(** * Progress tracking and live leaderboard synchronisation

    A shallow embedding of the client-side progress store
    ([frontend/components/progress-provider.tsx]), of the leaderboard
    display sort ([frontend/components/compact-leaderboard.tsx]) and of
    the [useProgressSync] hook (the WebSocket sync channel), followed by
    the properties the specification states about them.

    Conventions.
    - A JavaScript object used as a dictionary is a [gmap]; its keys are
      course identifiers and file keys (["<unit>-<class id>"]), which never
      coincide with a property name of [Object.prototype].
    - A JavaScript [number] that is computed with [/] and [*] is an IEEE-754
      binary64 value ([spec_float] at precision 53, the executable
      specification the kernel's primitive floats obey).  Counts and the
      integer fields of a leaderboard entry are [Z].
    - Identifiers are [string]s; the display name, which the code inspects
      character by character ([trim]), is a list of UTF-16 code units.
    - React state, refs and the closures captured by a render are explicit
      fields of a state record; browser and network events are the
      constructors of an event type, and each handler is a function from
      state to state. *)

From Stdlib Require Import ZArith List Bool Lia Permutation Sorted.
From Stdlib Require Import DecimalString DecimalZ.
From Stdlib.Floats Require Import SpecFloat.
From stdpp Require Import gmap strings list fin_maps.

Local Open Scope Z_scope.

(** ** JavaScript numbers *)

Module Number.

Definition prec : Z := 53.
Definition emax : Z := 1024.

Definition t : Type := spec_float.

(** The double nearest to an integer (exact up to [2^53]). *)
Definition of_Z (n : Z) : t := binary_normalize prec emax n 0 false.

Definition div (x y : t) : t := SFdiv prec emax x y.
Definition mul (x y : t) : t := SFmul prec emax x y.
Definition leb (x y : t) : bool := SFleb x y.

(** [Math.round]: the integer closest to [x], ties towards [+∞];
    [NaN] and the infinities are returned unchanged.  A finite double is
    exactly [±m * 2^e], so the rounding is computed on integers. *)
Definition round_Z (s : bool) (m : positive) (e : Z) : Z :=
  let n := if s then Z.neg m else Z.pos m in
  match e with
  | Z0 => n
  | Zpos _ => n * 2 ^ e
  | Zneg k => (2 * n + 2 ^ Zpos k) / 2 ^ (Zpos k + 1)
  end.

Definition round (x : t) : t :=
  match x with
  | S754_finite s m e =>
      let r := round_Z s m e in
      if r =? 0 then S754_zero s else of_Z r
  | _ => x
  end.

(** [0 <= x <= 100], as a comparison of doubles. *)
Definition in_percent_range (x : t) : bool :=
  leb (of_Z 0) x && leb x (of_Z 100).

End Number.

(** ** The local progress store (progress-provider.tsx) *)

Module Progress.

(** [ProgressData]: courseId -> fileKey -> completed. *)
Abbreviation ProgressData := (gmap string (gmap string bool)).

Record ProgressResult := {
  completed : nat;
  total : Z;
  percentage : Number.t
}.

(** [prev[courseId] || {}] *)
Definition courseProgressOf (progress : ProgressData) (courseId : string)
  : gmap string bool :=
  default ∅ (progress !! courseId).

(** [courseProgress[key]] used as a condition: an absent key reads
    [undefined], which is falsy. *)
Definition truthyAt (courseProgress : gmap string bool) (key : string) : bool :=
  default false (courseProgress !! key).

(** [keys.filter((key) => courseProgress[key])] *)
Definition completedKeys (courseProgress : gmap string bool)
    (fileKeys : list string) : list string :=
  List.filter (truthyAt courseProgress) fileKeys.

(** [totalFiles > 0 ? Math.round((completed / totalFiles) * 100) : 0] *)
Definition percentageOf (completed : nat) (totalFiles : Z) : Number.t :=
  if 0 <? totalFiles
  then Number.round
         (Number.mul
            (Number.div (Number.of_Z (Z.of_nat completed)) (Number.of_Z totalFiles))
            (Number.of_Z 100))
  else Number.of_Z 0.

Definition getUnitProgress (progress : ProgressData) (courseId : string)
    (unitNumber : Z) (totalFiles : Z) (fileKeys : list string) : ProgressResult :=
  let courseProgress := courseProgressOf progress courseId in
  let completed := length (completedKeys courseProgress fileKeys) in
  {| completed := completed;
     total := totalFiles;
     percentage := percentageOf completed totalFiles |}.

Definition getCourseProgress (progress : ProgressData) (courseId : string)
    (totalFiles : Z) (allFileKeys : list string) : ProgressResult :=
  let courseProgress := courseProgressOf progress courseId in
  let completed := length (completedKeys courseProgress allFileKeys) in
  {| completed := completed;
     total := totalFiles;
     percentage := percentageOf completed totalFiles |}.

(** [progress[courseId]?.[fileKey] ?? false] *)
Definition isFileComplete (progress : ProgressData) (courseId fileKey : string)
  : bool :=
  match progress !! courseId with
  | Some courseProgress => default false (courseProgress !! fileKey)
  | None => false
  end.

End Progress.

(** ** The leaderboard display sort (compact-leaderboard.tsx) *)

Record LeaderboardEntry := {
  le_userId : string;
  le_username : list N;
  le_completed : Z;
  le_total : Z;
  le_percentage : Z;
  le_lastUpdate : string
}.

Module Leaderboard.

(** The comparator handed to [sort]. *)
Definition compareEntries (a b : LeaderboardEntry) : Z :=
  if negb (le_percentage b =? le_percentage a)
  then le_percentage b - le_percentage a
  else le_completed b - le_completed a.

(** [Array.prototype.sort] with a comparator: a stable sort that puts [a]
    before [b] when the comparator is negative and [b] before [a] when it
    is positive.  [x] is inserted in front of an already sorted tail, all
    of whose elements followed it in the input. *)
Fixpoint insertSorted {A} (cmp : A -> A -> Z) (x : A) (l : list A) : list A :=
  match l with
  | [] => [x]
  | y :: l' => if 0 <? cmp x y then y :: insertSorted cmp x l' else x :: l
  end.

Fixpoint sort {A} (cmp : A -> A -> Z) (l : list A) : list A :=
  match l with
  | [] => []
  | x :: l' => insertSorted cmp x (sort cmp l')
  end.

(** [[...entries].sort(...)] *)
Definition sortedEntries (entries : list LeaderboardEntry) : list LeaderboardEntry :=
  sort compareEntries entries.

(** [findIndex]: the index of the first element satisfying [p], or [-1]. *)
Fixpoint findIndex {A} (p : A -> bool) (l : list A) : Z :=
  match l with
  | [] => -1
  | x :: l' =>
      if p x then 0
      else let i := findIndex p l' in if i <? 0 then -1 else i + 1
  end.

End Leaderboard.

(** ** The sync channel ([useProgressSync]) *)

Module Sync.

(** *** Strings inspected by [trim] *)

Definition jsstring := list N.

Definition of_string (s : string) : jsstring :=
  List.map Ascii.N_of_ascii (String.list_ascii_of_string s).

(** WhiteSpace and LineTerminator code points of ECMAScript, which
    [String.prototype.trim] strips. *)
Definition isWhiteSpace (c : N) : bool :=
  ((c =? 9) || (c =? 10) || (c =? 11) || (c =? 12) || (c =? 13) || (c =? 32)
   || (c =? 160) || (c =? 5760) || ((8192 <=? c) && (c <=? 8202))
   || (c =? 8232) || (c =? 8233) || (c =? 8239) || (c =? 8287)
   || (c =? 12288) || (c =? 65279))%N.

Fixpoint trimStart (s : jsstring) : jsstring :=
  match s with
  | [] => []
  | c :: s' => if isWhiteSpace c then trimStart s' else s
  end.

Definition trim (s : jsstring) : jsstring :=
  rev (trimStart (rev (trimStart s))).

(** A string used as a condition: only the empty string is falsy. *)
Definition truthy {A} (s : list A) : bool :=
  match s with [] => false | _ => true end.

Definition truthyId (s : string) : bool :=
  match s with EmptyString => false | _ => true end.

(** *** Messages *)

Record ProgressUpdate := {
  pu_courseId : string;
  pu_fileKey : string;
  pu_isComplete : bool
}.

(** Client to server: the objects handed to [ws.send]. *)
Inductive ClientMsg :=
| set_username (username : jsstring)
| progress_update (courseId fileKey : string) (isComplete : bool)
                  (username : jsstring)
| request_leaderboard (courseId : string)
| sync_study_items (courseId : string) (fileKeys : list string).

(** Server to client: what [JSON.parse(event.data)] yields;
    [unparsable] is a payload on which [JSON.parse] throws. *)
Inductive ServerMsg :=
| leaderboard_update (courseId : string) (leaderboard : list LeaderboardEntry)
| connected
| other_type (type : string)
| unparsable.

(** *** Sockets, timers and closures *)

Inductive ReadyState := CONNECTING | OPEN | CLOSING | CLOSED.

(** What a [connect] callback closes over: its dependency list
    [[userId, courseId, username]]. *)
Record Closure := {
  cl_userId : option string;
  cl_courseId : string;
  cl_username : jsstring
}.

(** A [WebSocket] created by [connect]; its handlers are the ones
    [connect] attached, so they see the closure of that [connect]. *)
Record Socket := {
  ws_closure : Closure;
  ws_readyState : ReadyState
}.

(** A timeout registered by [onclose]: it calls the [connect] of the
    socket that closed. *)
Record Timer := {
  tm_closure : Closure;
  tm_delay : Z;
  tm_armed : bool
}.

#[global] Instance ReadyState_eq_dec : EqDecision ReadyState.
Proof. solve_decision. Defined.

#[global] Instance Closure_eq_dec : EqDecision Closure.
Proof. solve_decision. Defined.

(** *** State of one hook instance and of the browser around it *)

Record Hook := {
  (* the argument of the current render *)
  courseId : string;
  (* useState *)
  leaderboard : list LeaderboardEntry;
  isConnected : bool;
  username : jsstring;
  userId : option string;
  (* useRef *)
  wsRef : option nat;
  reconnectTimeoutRef : option nat;
  pendingUpdatesRef : list ProgressUpdate;
  (* whether the component is mounted, and the dependencies of the
     connect effect when it last ran *)
  mounted : bool;
  effectDeps : option Closure;
  (* the browser: sockets and timers by creation order, what was handed
     to [send] (socket index, message) in order, and localStorage *)
  sockets : list Socket;
  timers : list Timer;
  wire : list (nat * ClientMsg);
  storedUserId : option string;
  storedUsername : option jsstring
}.

Definition set_courseId v (h : Hook) : Hook :=
  Build_Hook v (leaderboard h) (isConnected h) (username h) (userId h)
    (wsRef h) (reconnectTimeoutRef h) (pendingUpdatesRef h) (mounted h)
    (effectDeps h) (sockets h) (timers h) (wire h) (storedUserId h)
    (storedUsername h).
Definition setLeaderboard v (h : Hook) : Hook :=
  Build_Hook (courseId h) v (isConnected h) (username h) (userId h)
    (wsRef h) (reconnectTimeoutRef h) (pendingUpdatesRef h) (mounted h)
    (effectDeps h) (sockets h) (timers h) (wire h) (storedUserId h)
    (storedUsername h).
Definition setIsConnected v (h : Hook) : Hook :=
  Build_Hook (courseId h) (leaderboard h) v (username h) (userId h)
    (wsRef h) (reconnectTimeoutRef h) (pendingUpdatesRef h) (mounted h)
    (effectDeps h) (sockets h) (timers h) (wire h) (storedUserId h)
    (storedUsername h).
Definition setUsername v (h : Hook) : Hook :=
  Build_Hook (courseId h) (leaderboard h) (isConnected h) v (userId h)
    (wsRef h) (reconnectTimeoutRef h) (pendingUpdatesRef h) (mounted h)
    (effectDeps h) (sockets h) (timers h) (wire h) (storedUserId h)
    (storedUsername h).
Definition setUserId v (h : Hook) : Hook :=
  Build_Hook (courseId h) (leaderboard h) (isConnected h) (username h) v
    (wsRef h) (reconnectTimeoutRef h) (pendingUpdatesRef h) (mounted h)
    (effectDeps h) (sockets h) (timers h) (wire h) (storedUserId h)
    (storedUsername h).
Definition set_wsRef v (h : Hook) : Hook :=
  Build_Hook (courseId h) (leaderboard h) (isConnected h) (username h)
    (userId h) v (reconnectTimeoutRef h) (pendingUpdatesRef h) (mounted h)
    (effectDeps h) (sockets h) (timers h) (wire h) (storedUserId h)
    (storedUsername h).
Definition set_reconnectTimeoutRef v (h : Hook) : Hook :=
  Build_Hook (courseId h) (leaderboard h) (isConnected h) (username h)
    (userId h) (wsRef h) v (pendingUpdatesRef h) (mounted h)
    (effectDeps h) (sockets h) (timers h) (wire h) (storedUserId h)
    (storedUsername h).
Definition set_pendingUpdatesRef v (h : Hook) : Hook :=
  Build_Hook (courseId h) (leaderboard h) (isConnected h) (username h)
    (userId h) (wsRef h) (reconnectTimeoutRef h) v (mounted h)
    (effectDeps h) (sockets h) (timers h) (wire h) (storedUserId h)
    (storedUsername h).
Definition set_mounted v (h : Hook) : Hook :=
  Build_Hook (courseId h) (leaderboard h) (isConnected h) (username h)
    (userId h) (wsRef h) (reconnectTimeoutRef h) (pendingUpdatesRef h) v
    (effectDeps h) (sockets h) (timers h) (wire h) (storedUserId h)
    (storedUsername h).
Definition set_effectDeps v (h : Hook) : Hook :=
  Build_Hook (courseId h) (leaderboard h) (isConnected h) (username h)
    (userId h) (wsRef h) (reconnectTimeoutRef h) (pendingUpdatesRef h)
    (mounted h) v (sockets h) (timers h) (wire h) (storedUserId h)
    (storedUsername h).
Definition set_sockets v (h : Hook) : Hook :=
  Build_Hook (courseId h) (leaderboard h) (isConnected h) (username h)
    (userId h) (wsRef h) (reconnectTimeoutRef h) (pendingUpdatesRef h)
    (mounted h) (effectDeps h) v (timers h) (wire h) (storedUserId h)
    (storedUsername h).
Definition set_timers v (h : Hook) : Hook :=
  Build_Hook (courseId h) (leaderboard h) (isConnected h) (username h)
    (userId h) (wsRef h) (reconnectTimeoutRef h) (pendingUpdatesRef h)
    (mounted h) (effectDeps h) (sockets h) v (wire h) (storedUserId h)
    (storedUsername h).
Definition set_wire v (h : Hook) : Hook :=
  Build_Hook (courseId h) (leaderboard h) (isConnected h) (username h)
    (userId h) (wsRef h) (reconnectTimeoutRef h) (pendingUpdatesRef h)
    (mounted h) (effectDeps h) (sockets h) (timers h) v (storedUserId h)
    (storedUsername h).
Definition set_storedUserId v (h : Hook) : Hook :=
  Build_Hook (courseId h) (leaderboard h) (isConnected h) (username h)
    (userId h) (wsRef h) (reconnectTimeoutRef h) (pendingUpdatesRef h)
    (mounted h) (effectDeps h) (sockets h) (timers h) (wire h) v
    (storedUsername h).
Definition set_storedUsername v (h : Hook) : Hook :=
  Build_Hook (courseId h) (leaderboard h) (isConnected h) (username h)
    (userId h) (wsRef h) (reconnectTimeoutRef h) (pendingUpdatesRef h)
    (mounted h) (effectDeps h) (sockets h) (timers h) (wire h)
    (storedUserId h) v.

(** The state before the first effect of [useProgressSync(courseId)]. *)
Definition initial (courseId : string) (storedId : option string)
    (storedName : option jsstring) : Hook :=
  {| courseId := courseId; leaderboard := []; isConnected := false;
     username := []; userId := None;
     wsRef := None; reconnectTimeoutRef := None; pendingUpdatesRef := [];
     mounted := true; effectDeps := None;
     sockets := []; timers := []; wire := [];
     storedUserId := storedId; storedUsername := storedName |}.

(** *** Browser primitives *)

Definition readyStateOf (h : Hook) (i : nat) : option ReadyState :=
  ws_readyState <$> sockets h !! i.

(** [wsRef.current && wsRef.current.readyState === WebSocket.OPEN]:
    the index of the current socket when the guard passes. *)
Definition currentOpen (h : Hook) : option nat :=
  match wsRef h with
  | Some i =>
      match readyStateOf h i with
      | Some OPEN => Some i
      | _ => None
      end
  | None => None
  end.

Definition setReadyState (i : nat) (r : ReadyState) (h : Hook) : Hook :=
  set_sockets
    (alter (fun sk => {| ws_closure := ws_closure sk; ws_readyState := r |})
           i (sockets h)) h.

(** [ws.send(JSON.stringify(m))] on the open socket [i]. *)
Definition send (i : nat) (m : ClientMsg) (h : Hook) : Hook :=
  set_wire (wire h ++ [(i, m)]) h.

(** [ws.close()]: starts closing unless already closing or closed; the
    close event, and with it [onclose], comes later. *)
Definition close (i : nat) (h : Hook) : Hook :=
  match readyStateOf h i with
  | Some CONNECTING | Some OPEN => setReadyState i CLOSING h
  | _ => h
  end.

Definition clearTimeout (t : nat) (h : Hook) : Hook :=
  set_timers
    (alter (fun tm => {| tm_closure := tm_closure tm;
                         tm_delay := tm_delay tm;
                         tm_armed := false |})
           t (timers h)) h.

Definition truthyUser (u : option string) : bool :=
  match u with
  | Some s => truthyId s
  | None => false
  end.

(** *** The callbacks of the hook *)

(** [connect]: [if (!userId) return;] then a new socket with the four
    handlers attached becomes [wsRef.current].  The constructor is taken
    not to throw (it does so only on a malformed URL). *)
Definition connect (cl : Closure) (h : Hook) : Hook :=
  if truthyUser (cl_userId cl) then
    set_wsRef (Some (length (sockets h)))
      (set_sockets
         (sockets h ++ [{| ws_closure := cl; ws_readyState := CONNECTING |}]) h)
  else h.

(** The object sent for a queued update:
    [{type: "progress_update", ...update, username}]. *)
Definition flushMsg (cl : Closure) (u : ProgressUpdate) : ClientMsg :=
  progress_update (pu_courseId u) (pu_fileKey u) (pu_isComplete u)
                  (cl_username cl).

(** [ws.onopen] of socket [i], created by the [connect] closing over [cl]. *)
Definition onopen (i : nat) (cl : Closure) (h : Hook) : Hook :=
  let h1 := setIsConnected true h in
  let h2 :=
    if (0 <? length (pendingUpdatesRef h1))%nat then
      set_pendingUpdatesRef []
        (fold_left (fun acc u => send i (flushMsg cl u) acc)
                   (pendingUpdatesRef h1) h1)
    else h1 in
  send i (request_leaderboard (cl_courseId cl)) h2.

(** [ws.onmessage] *)
Definition onmessage (cl : Closure) (data : ServerMsg) (h : Hook) : Hook :=
  match data with
  | leaderboard_update c entries =>
      if decide (c = cl_courseId cl) then setLeaderboard entries h else h
  | connected => h
  | other_type _ => h
  | unparsable => h
  end.

(** [ws.onclose] *)
Definition onclose (cl : Closure) (h : Hook) : Hook :=
  let h1 := setIsConnected false h in
  set_reconnectTimeoutRef (Some (length (timers h1)))
    (set_timers
       (timers h1 ++ [{| tm_closure := cl; tm_delay := 3000; tm_armed := true |}])
       h1).

(** [updateUsername] *)
Definition updateUsername (newUsername : jsstring) (h : Hook) : Hook :=
  if negb (truthy (trim newUsername)) then h
  else
    let h1 := set_storedUsername (Some newUsername) (setUsername newUsername h) in
    match currentOpen h1 with
    | Some i => send i (set_username newUsername) h1
    | None => h1
    end.

(** [sendProgressUpdate] of the current render. *)
Definition sendProgressUpdate (fileKey : string) (isComplete : bool) (h : Hook)
  : Hook :=
  let update := {| pu_courseId := courseId h; pu_fileKey := fileKey;
                   pu_isComplete := isComplete |} in
  match currentOpen h with
  | Some i =>
      send i (progress_update (pu_courseId update) (pu_fileKey update)
                              (pu_isComplete update) (username h)) h
  | None => set_pendingUpdatesRef (pendingUpdatesRef h ++ [update]) h
  end.

(** [requestLeaderboardUpdate] *)
Definition requestLeaderboardUpdate (h : Hook) : Hook :=
  match currentOpen h with
  | Some i =>
      if truthyId (courseId h) then send i (request_leaderboard (courseId h)) h
      else h
  | None => h
  end.

(** [syncStudyItems] *)
Definition syncStudyItems (fileKeys : list string) (h : Hook) : Hook :=
  match currentOpen h with
  | Some i =>
      if truthyId (courseId h)
      then send i (sync_study_items (courseId h) fileKeys) h
      else h
  | None => h
  end.

(** The body of the polling interval, which exists while
    [isConnected && courseId]. *)
Definition pollTick (h : Hook) : Hook :=
  if isConnected h && truthyId (courseId h) then
    match currentOpen h with
    | Some i => send i (request_leaderboard (courseId h)) h
    | None => h
    end
  else h.

(** [currentUserRank] as returned by the hook. *)
Definition currentUserRank (h : Hook) : option Z :=
  let rank :=
    match userId h with
    | Some u =>
        if truthyId u
        then Some (Leaderboard.findIndex
                     (fun entry => bool_decide (le_userId entry = u))
                     (leaderboard h) + 1)
        else None
    | None => None
    end in
  match rank with
  | Some r => if 0 <? r then Some r else None
  | None => None
  end.

(** *** Effects *)

(** The closure of the [connect] created by the current render. *)
Definition currentClosure (h : Hook) : Closure :=
  {| cl_userId := userId h; cl_courseId := courseId h;
     cl_username := username h |}.

(** Cleanup of the connect effect. *)
Definition cleanup (h : Hook) : Hook :=
  let h1 :=
    match reconnectTimeoutRef h with
    | Some t => clearTimeout t h
    | None => h
    end in
  match wsRef h1 with
  | Some i => close i h1
  | None => h1
  end.

(** The connect effect, dependencies [[userId, connect]]: when they
    changed since it last ran, the previous cleanup runs, then
    [if (userId) connect()]. *)
Definition commit (h : Hook) : Hook :=
  let cl := currentClosure h in
  if decide (effectDeps h = Some cl) then h
  else
    let h1 := match effectDeps h with Some _ => cleanup h | None => h end in
    set_effectDeps (Some cl) (connect cl h1).

(** [getUserId] and [getUsername], then [setUserId], [setUsername];
    [freshId] and [freshName] are what the random generators produce. *)
Definition identify (freshId : string) (freshName : jsstring) (h : Hook) : Hook :=
  let '(id, h1) :=
    match storedUserId h with
    | Some s => if truthyId s then (s, h)
                else (freshId, set_storedUserId (Some freshId) h)
    | None => (freshId, set_storedUserId (Some freshId) h)
    end in
  let '(name, h2) :=
    match storedUsername h1 with
    | Some s => if truthy s then (s, h1)
                else (freshName, set_storedUsername (Some freshName) h1)
    | None => (freshName, set_storedUsername (Some freshName) h1)
    end in
  setUsername name (setUserId (Some id) h2).

(** *** Events *)

Inductive Event :=
| Identify (freshId : string) (freshName : jsstring)
| Render (courseId : string)
| Commit
| Unmount
| UpdateUsername (newUsername : jsstring)
| SendProgressUpdate (fileKey : string) (isComplete : bool)
| RequestLeaderboardUpdate
| SyncStudyItems (fileKeys : list string)
| PollTick
| WsOpen (i : nat)
| WsMessage (i : nat) (data : ServerMsg)
| WsError (i : nat)
| WsClose (i : nat)
| TimerFire (t : nat).

(** One event; an event that cannot occur in the state (an open event on
    a socket that is not connecting, a cleared timer firing, ...) leaves
    it unchanged. *)
Definition step (h : Hook) (ev : Event) : Hook :=
  match ev with
  | Identify freshId freshName =>
      if mounted h then identify freshId freshName h else h
  | Render c => if mounted h then set_courseId c h else h
  | Commit => if mounted h then commit h else h
  | Unmount =>
      if mounted h then
        set_mounted false
          (match effectDeps h with Some _ => cleanup h | None => h end)
      else h
  | UpdateUsername s => updateUsername s h
  | SendProgressUpdate fileKey isComplete =>
      sendProgressUpdate fileKey isComplete h
  | RequestLeaderboardUpdate => requestLeaderboardUpdate h
  | SyncStudyItems fileKeys => syncStudyItems fileKeys h
  | PollTick => if mounted h then pollTick h else h
  | WsOpen i =>
      match sockets h !! i with
      | Some sk =>
          match ws_readyState sk with
          | CONNECTING => onopen i (ws_closure sk) (setReadyState i OPEN h)
          | _ => h
          end
      | None => h
      end
  | WsMessage i data =>
      match sockets h !! i with
      | Some sk =>
          match ws_readyState sk with
          | OPEN => onmessage (ws_closure sk) data h
          | _ => h
          end
      | None => h
      end
  | WsError i => h
  | WsClose i =>
      match sockets h !! i with
      | Some sk =>
          match ws_readyState sk with
          | CLOSED => h
          | _ => onclose (ws_closure sk) (setReadyState i CLOSED h)
          end
      | None => h
      end
  | TimerFire t =>
      match timers h !! t with
      | Some tm =>
          if tm_armed tm then connect (tm_closure tm) (clearTimeout t h) else h
      | None => h
      end
  end.

Definition run (h : Hook) (evs : list Event) : Hook := fold_left step evs h.

End Sync.

(** ** The toggles of the progress store, which reach the sync channel
    through [window.__sendProgressUpdate] *)

Module App.

Import Progress.

(** [hook] is the hook instance whose [sendProgressUpdate] is installed
    as [window.__sendProgressUpdate], if any. *)
Record App := {
  progress : ProgressData;
  hook : option Sync.Hook
}.

(** [sendProgressToServer]: forwards [(fileKey, isComplete)] to the
    installed sender; the course argument is not passed on. *)
Definition sendProgressToServer (courseId fileKey : string) (isComplete : bool)
    (hook : option Sync.Hook) : option Sync.Hook :=
  match hook with
  | Some h => Some (Sync.sendProgressUpdate fileKey isComplete h)
  | None => None
  end.

Definition toggleFileComplete (courseId fileKey : string) (a : App) : App :=
  let courseProgress := courseProgressOf (progress a) courseId in
  let isComplete := negb (truthyAt courseProgress fileKey) in
  {| hook := sendProgressToServer courseId fileKey isComplete (hook a);
     progress := <[courseId := <[fileKey := isComplete]> courseProgress]>
                   (progress a) |}.

Definition toggleUnitComplete (courseId : string) (fileKeys : list string)
    (markComplete : bool) (a : App) : App :=
  let courseProgress := courseProgressOf (progress a) courseId in
  let '(updatedProgress, hook') :=
    fold_left
      (fun '(updated, hk) key =>
         (<[key := markComplete]> updated,
          sendProgressToServer courseId key markComplete hk))
      fileKeys (courseProgress, hook a) in
  {| hook := hook';
     progress := <[courseId := updatedProgress]> (progress a) |}.

(** What has been handed to a socket so far, and what is queued. *)
Definition sent (a : App) : list (nat * Sync.ClientMsg) :=
  match hook a with
  | Some h => Sync.wire h
  | None => []
  end.

Definition queued (a : App) : list Sync.ProgressUpdate :=
  match hook a with
  | Some h => Sync.pendingUpdatesRef h
  | None => []
  end.

End App.

(** ** Definitions used to state the properties *)

(** After [k] one-bit shifts of a record that started at mantissa [m];
    [exact0] says that the start had no round or sticky bit. *)
Definition shifted (m : Z) (exact0 : Prop) (k : Z) (rec : shr_record) : Prop :=
  shr_m rec = m / 2 ^ k
  ∧ (exact0 → m mod 2 ^ k = 0 → shr_r rec = false ∧ shr_s rec = false).

Module Trace.

Import Sync.

(** A state the hook can be in: some events after a first render. *)
Definition reachable (h : Hook) : Prop :=
  ∃ c storedId storedName evs, h = run (initial c storedId storedName) evs.

(** Every socket and every timer was made by a [connect] that had a user
    id. *)
Definition hasUser (cl : Closure) : Prop := truthyUser (cl_userId cl) = true.

Definition closuresHaveUser (h : Hook) : Prop :=
  Forall (fun sk => hasUser (ws_closure sk)) (sockets h)
  ∧ Forall (fun tm => hasUser (tm_closure tm)) (timers h).

Definition isWsOpen (ev : Event) : bool :=
  match ev with
  | WsOpen _ => true
  | _ => false
  end.

(** The updates issued by the [sendProgressUpdate] calls of a run, each
    with the course of the render it was issued from. *)
Fixpoint issued (h : Hook) (evs : list Event) : list ProgressUpdate :=
  match evs with
  | [] => []
  | ev :: evs' =>
      match ev with
      | SendProgressUpdate fileKey isComplete =>
          [{| pu_courseId := courseId h; pu_fileKey := fileKey;
              pu_isComplete := isComplete |}]
      | _ => []
      end ++ issued (step h ev) evs'
  end.

(** [n] rounds of: socket [i] closes, the timeout that [onclose]
    registered fires.  Returns the state and the socket of the latest
    attempt. *)
Fixpoint closeAndRetry (n : nat) (h : Hook) (i : nat) : Hook * nat :=
  match n with
  | O => (h, i)
  | S n' =>
      let t := length (timers h) in
      let j := length (sockets h) in
      closeAndRetry n' (step (step h (WsClose i)) (TimerFire t)) j
  end.

(** A rename while connected: the effect closes socket 0 and opens
    socket 1; socket 0 then reports its close, its [onclose] registers a
    timeout, and the timeout calls the [connect] that created socket 0. *)
Definition renameThenStaleReconnect : list Event :=
  [Identify "user_1" (of_string "A"); Commit; WsOpen 0%nat;
   UpdateUsername (of_string "B"); Commit;
   WsClose 0%nat; TimerFire 0%nat;
   SendProgressUpdate "1-f" true].

Definition sampleEntry : LeaderboardEntry :=
  {| le_userId := "user_9"; le_username := of_string "Z"; le_completed := 1;
     le_total := 2; le_percentage := 50; le_lastUpdate := "t" |}.

(** The same with a change of course instead of a rename. *)
Definition switchCourseThenStaleReconnect : list Event :=
  [Identify "user_1" (of_string "A"); Commit; WsOpen 0%nat;
   Render "c2"; Commit;
   WsClose 0%nat; TimerFire 0%nat; WsOpen 2%nat].

End Trace.

(** ** File keys and the units of a course
    (course-content.tsx, course-overview.tsx, progress-provider.tsx) *)

Module Keys.

(** [`${n}`] for an integer [n]: plain decimal notation, which is what
    JavaScript prints for integers of magnitude below [10^21]. *)
Definition toString (n : Z) : string := NilZero.string_of_int (Z.to_int n).

(** [`${unit.unit_number}-${cls.class_id}`]; the class id is taken in its
    string form. *)
Definition fileKey (unit_number : Z) (class_id : string) : string :=
  toString unit_number +:+ "-" +:+ class_id.

(** [`${unitNumber}-`] *)
Definition unitPrefix (unitNumber : Z) : string := toString unitNumber +:+ "-".

(** [key.split("-")[0]]: the characters before the first dash. *)
Fixpoint firstSegment (s : string) : string :=
  match s with
  | EmptyString => EmptyString
  | String c s' =>
      if Ascii.eqb c (Ascii.ascii_of_nat 45) then EmptyString else String c (firstSegment s')
  end.

(** [k.startsWith(p)] *)
Definition startsWith (p k : string) : bool := String.prefix p k.

End Keys.

Module Course.

Import Progress Keys.

(** The fields of a class and of a unit that the pages read. *)
Record ClassInfo := {
  class_id : string;
  class_name : string;
  filename : option string;
  files : list (option string);
  status : string
}.

Record UnitInfo := {
  unit_number : Z;
  unit_name : string;
  unit_directory : string;
  classes : list ClassInfo
}.

(** [cls.filename ?? cls.files?.[0]?.filename ?? null] *)
Definition primaryFilename (cls : ClassInfo) : option string :=
  match filename cls with
  | Some f => Some f
  | None =>
      match files cls with
      | Some f :: _ => Some f
      | _ => None
      end
  end.

(** [primaryFilename && cls.status === "success"] *)
Definition tracked (cls : ClassInfo) : bool :=
  match primaryFilename cls with
  | Some f => Sync.truthyId f && bool_decide (status cls = "success")
  | None => false
  end.

(** [unit.classes.filter(...).map((cls) => `${unit.unit_number}-${cls.class_id}`)] *)
Definition unitFileKeys (unit : UnitInfo) : list string :=
  List.map (fun cls => fileKey (unit_number unit) (class_id cls))
           (List.filter tracked (classes unit)).

(** The two nested [forEach] loops that push onto [allFileKeys]. *)
Definition allFileKeys (units : list UnitInfo) : list string :=
  fold_left
    (fun acc unit =>
       fold_left
         (fun acc cls =>
            if tracked cls
            then acc ++ [fileKey (unit_number unit) (class_id cls)]
            else acc)
         (classes unit) acc)
    units [].

(** [getCourseProgress(courseId, allFileKeys.length, allFileKeys)], as
    every page and the badge call it. *)
Definition courseProgress (progress : ProgressData) (courseId : string)
    (units : list UnitInfo) : ProgressResult :=
  getCourseProgress progress courseId
    (Z.of_nat (length (allFileKeys units))) (allFileKeys units).

(** [getUnitProgress(courseId, unit.unit_number, unitFileKeys.length, unitFileKeys)] *)
Definition unitProgress (progress : ProgressData) (courseId : string)
    (unit : UnitInfo) : ProgressResult :=
  getUnitProgress progress courseId (unit_number unit)
    (Z.of_nat (length (unitFileKeys unit))) (unitFileKeys unit).

(** The click handler of the unit button:
    [markComplete = unitProgress.percentage < 100], then
    [toggleUnitComplete(courseId, unitFileKeys, markComplete)]. *)
Definition onUnitButton (courseId : string) (unit : UnitInfo) (a : App.App)
  : App.App :=
  let markComplete :=
    SFltb (percentage (unitProgress (App.progress a) courseId unit))
          (Number.of_Z 100) in
  App.toggleUnitComplete courseId (unitFileKeys unit) markComplete a.

(** [progress.percentage === 100], the test behind the badge variant and
    the check mark. *)
Definition showsComplete (r : ProgressResult) : bool :=
  SFeqb (percentage r) (Number.of_Z 100).

(** [isUnitComplete]: the recorded keys of the course that start with
    [`${unitNumber}-`]; false when there is none, otherwise whether all of
    them are true.  The result does not depend on the order in which
    [Object.keys] lists them. *)
Definition isUnitComplete (progress : ProgressData) (courseId : string)
    (unitNumber : Z) : bool :=
  let courseProgress := courseProgressOf progress courseId in
  let keys :=
    List.filter (startsWith (unitPrefix unitNumber))
                (List.map fst (map_to_list courseProgress)) in
  if (length keys =? 0)%nat then false
  else forallb (truthyAt courseProgress) keys.

(** [primaryFilename && progress[courseId]?.[key]], the test of the inner
    loop below; the status of the class is not looked at. *)
Definition completedWithFile (progress : ProgressData) (courseId : string)
    (unit : UnitInfo) (cls : ClassInfo) : bool :=
  let key := fileKey (unit_number unit) (class_id cls) in
  match primaryFilename cls with
  | Some f => Sync.truthyId f && isFileComplete progress courseId key
  | None => false
  end.

(** The effect of the course page that opens the unit of the last
    completed file: the last key, in traversal order, of a class with a
    file name whose progress entry is true. *)
Definition lastCompletedKey (progress : ProgressData) (courseId : string)
    (units : list UnitInfo) : option string :=
  fold_left
    (fun last unit =>
       fold_left
         (fun last cls =>
            let key := fileKey (unit_number unit) (class_id cls) in
            if completedWithFile progress courseId unit cls
            then Some key else last)
         (classes unit) last)
    units None.

(** [setOpenUnits((prev) => prev.includes(unitVal) ? prev : [...prev, unitVal])] *)
Definition openUnit (unitVal : string) (prev : list string) : list string :=
  if bool_decide (unitVal ∈ prev) then prev else prev ++ [unitVal].

Definition openLastCompleted (progress : ProgressData) (courseId : string)
    (units : list UnitInfo) (openUnits : list string) : list string :=
  match lastCompletedKey progress courseId units with
  | Some key =>
      if Sync.truthyId key
      then openUnit ("unit-" +:+ firstSegment key) openUnits
      else openUnits
  | None => openUnits
  end.

End Course.

(** ** The leaderboard views (compact-leaderboard.tsx, leaderboard.tsx) *)

Module Board.

(** [entries.find(e => e.userId === currentUserId)] *)
Definition currentUserEntry (entries : list LeaderboardEntry)
    (currentUserId : option string) : option LeaderboardEntry :=
  match currentUserId with
  | Some u => List.find (fun e => bool_decide (le_userId e = u)) entries
  | None => None
  end.

(** [sortedEntries.slice(0, 5)] *)
Definition topEntries (entries : list LeaderboardEntry) : list LeaderboardEntry :=
  take 5 (Leaderboard.sortedEntries entries).

(** The rank shown by the compact leaderboard:
    [currentUserEntry ? sortedEntries.findIndex(...) + 1 : null]. *)
Definition currentUserRank (entries : list LeaderboardEntry)
    (currentUserId : option string) : option Z :=
  match currentUserId, currentUserEntry entries currentUserId with
  | Some u, Some _ =>
      Some (Leaderboard.findIndex (fun e => bool_decide (le_userId e = u))
              (Leaderboard.sortedEntries entries) + 1)
  | _, _ => None
  end.

(** [handleUpdateUsername] of the rename dialog, with the hook's
    [updateUsername] as [onUpdateUsername]; returns whether the dialog is
    still open. *)
Definition handleUpdateUsername (newUsername : Sync.jsstring) (isEditing : bool)
    (h : Sync.Hook) : bool * Sync.Hook :=
  if Sync.truthy (Sync.trim newUsername)
  then (false, Sync.updateUsername (Sync.trim newUsername) h)
  else (isEditing, h).

End Board.

(** ** The study page (app/study/page.tsx) *)

Module Study.

Import Progress.

(** A study cart item, with the fields [handleAddToCart] fills in. *)
Record StudyItem := {
  si_id : string;
  si_url : string;
  si_title : string;
  si_courseName : string;
  si_unitNumber : Z;
  si_courseId : option string;
  si_fileKey : option string
}.

(** The state of the page: the cart, its own React state, the progress
    store and its sync hook, whose [sendProgressUpdate] is the installed
    [window.__sendProgressUpdate]. *)
Record Page := {
  items : list StudyItem;
  activeIndex : Z;
  scale : Z;
  progress : ProgressData;
  sync : Sync.Hook
}.

(** [items[i]] for an integer [i]: [undefined] out of range. *)
Definition at_index {A} (l : list A) (i : Z) : option A :=
  if i <? 0 then None else l !! Z.to_nat i.

(** [items[activeIndex]] *)
Definition activeItem (p : Page) : option StudyItem :=
  at_index (items p) (activeIndex p).

(** [items[activeIndex]?.courseId || "global"] *)
Definition currentCourseId (p : Page) : string :=
  match activeItem p with
  | Some it =>
      match si_courseId it with
      | Some c => if Sync.truthyId c then c else "global"
      | None => "global"
      end
  | None => "global"
  end.

(** [handleZoomIn], [handleZoomOut] *)
Definition handleZoomIn (scale : Z) : Z := Z.min (scale + 25) 200.
Definition handleZoomOut (scale : Z) : Z := Z.max (scale - 25) 50.

(** [goToPrev] *)
Definition goToPrev (p : Page) : Page :=
  {| items := items p; activeIndex := Z.max 0 (activeIndex p - 1);
     scale := scale p; progress := progress p; sync := sync p |}.

(** [goToNext]: marks the active item complete if it is not, asks for a
    fresh leaderboard, and moves on.  The updater of [toggleFileComplete]
    is run at the call, as React does when no other update is pending. *)
Definition goToNext (p : Page) : Page :=
  let a := {| App.progress := progress p; App.hook := Some (sync p) |} in
  let a1 :=
    match activeItem p with
    | Some it =>
        match si_courseId it, si_fileKey it with
        | Some c, Some k =>
            if Sync.truthyId c && Sync.truthyId k then
              if isFileComplete (progress p) c k then a
              else App.toggleFileComplete c k a
            else a
        | _, _ => a
        end
    | None => a
    end in
  let h1 := default (sync p) (App.hook a1) in
  {| items := items p;
     activeIndex := Z.min (Z.of_nat (length (items p)) - 1) (activeIndex p + 1);
     scale := scale p;
     progress := App.progress a1;
     sync := Sync.requestLeaderboardUpdate h1 |}.

(** The keys the cart holds for the current course:
    [items.filter(item => item.courseId === currentCourseId && item.fileKey)
          .map(item => item.fileKey)]. *)
Definition fileKeysForCourse (p : Page) : list string :=
  omap
    (fun it =>
       match si_courseId it, si_fileKey it with
       | Some c, Some k =>
           if bool_decide (c = currentCourseId p) && Sync.truthyId k
           then Some k else None
       | _, _ => None
       end)
    (items p).

(** The effect that reports the cart to the server. *)
Definition syncCartEffect (p : Page) : Sync.Hook :=
  if Sync.isConnected (sync p)
     && Sync.truthyId (currentCourseId p)
     && negb (bool_decide (currentCourseId p = "global"))
  then
    if (0 <? length (fileKeysForCourse p))%nat
    then Sync.syncStudyItems (fileKeysForCourse p) (sync p)
    else sync p
  else sync p.

(** One row of the sidebar and one group of rows, as [groupedItems]
    builds them. *)
Record Row := {
  row_item : StudyItem;
  row_index : Z;
  row_isActive : bool;
  row_isComplete : bool
}.

Record Group := {
  g_unitNum : Z;
  g_group : list StudyItem;
  g_unitComplete : bool;
  g_items : list Row
}.

(** [groups[it.unitNumber] = groups[it.unitNumber] || [];
     groups[it.unitNumber].push(it)]: the object [groups] as an
    association list with one entry for each unit number. *)
Fixpoint pushGroup (groups : list (Z * list StudyItem)) (it : StudyItem)
  : list (Z * list StudyItem) :=
  match groups with
  | [] => [(si_unitNumber it, [it])]
  | (u, l) :: groups' =>
      if u =? si_unitNumber it then (u, l ++ [it]) :: groups'
      else (u, l) :: pushGroup groups' it
  end.

Definition groupsOf (items : list StudyItem) : list (Z * list StudyItem) :=
  fold_left pushGroup items [].

(** [Object.keys(groups).map((k) => Number(k)).sort((a, b) => a - b)];
    the keys are distinct, so the sorted list does not depend on the order
    in which [Object.keys] lists them. *)
Definition sortedUnits (groups : list (Z * list StudyItem)) : list Z :=
  Leaderboard.sort (fun a b => a - b) (List.map fst groups).

(** [groups[unitNum]] *)
Definition groupOf (groups : list (Z * list StudyItem)) (unitNum : Z)
  : list StudyItem :=
  match List.find (fun g => g.1 =? unitNum) groups with
  | Some g => g.2
  | None => []
  end.

Definition rowOf (p : Page) (index : Z) (item : StudyItem) : Row :=
  {| row_item := item;
     row_index := index;
     row_isActive := index =? activeIndex p;
     row_isComplete :=
       match si_courseId item, si_fileKey item with
       | Some c, Some k =>
           if Sync.truthyId c && Sync.truthyId k
           then isFileComplete (progress p) c k else false
       | _, _ => false
       end |}.

(** [groupedItems]; [globalIndex] runs through the rows of all groups. *)
Definition groupedItems (p : Page) : list Group :=
  let groups := groupsOf (items p) in
  (fold_left
     (fun '(globalIndex, out) unitNum =>
        let group := groupOf groups unitNum in
        let unitComplete :=
          match group with
          | it :: _ =>
              match si_courseId it with
              | Some c =>
                  if Sync.truthyId c
                  then Course.isUnitComplete (progress p) c unitNum else false
              | None => false
              end
          | [] => false
          end in
        let '(globalIndex', rows) :=
          fold_left
            (fun '(index, rows) item => (index + 1, rows ++ [rowOf p index item]))
            group (globalIndex, []) in
        (globalIndex',
         out ++ [{| g_unitNum := unitNum; g_group := group;
                    g_unitComplete := unitComplete; g_items := rows |}]))
     (sortedUnits groups) (0, [])).2.

(** The rows of the sidebar from top to bottom. *)
Definition sidebarRows (p : Page) : list Row :=
  concat (List.map g_items (groupedItems p)).

(** A click on a row: [setActiveIndex(index)]. *)
Definition selectRow (row : Row) (p : Page) : Page :=
  {| items := items p; activeIndex := row_index row;
     scale := scale p; progress := progress p; sync := sync p |}.

End Study.

(** ** The search index of the courses page (app/courses/page.tsx) *)

Module Search.

Import Keys Course.

Inductive ItemType := course | unit | file.

#[global] Instance ItemType_eq_dec : EqDecision ItemType.
Proof. solve_decision. Defined.

(** An entry of the search index; [download] is absent except on files. *)
Record SearchItem := {
  s_type : ItemType;
  s_title : string;
  s_subtitle : string;
  s_href : string;
  s_download : option bool
}.

Record CourseSummary := {
  course_id : string;
  course_name : string;
  units : list UnitInfo
}.

Definition courseItem (dir : string) (summary : CourseSummary) : SearchItem :=
  {| s_type := course; s_title := course_name summary;
     s_subtitle := course_id summary; s_href := "/course/" +:+ dir;
     s_download := None |}.

Definition unitItem (dir : string) (summary : CourseSummary) (u : UnitInfo)
  : SearchItem :=
  {| s_type := unit;
     s_title := "Unit " +:+ toString (unit_number u) +:+ ": " +:+ unit_name u;
     s_subtitle := course_name summary;
     s_href := "/course/" +:+ dir +:+ "#unit-" +:+ toString (unit_number u);
     s_download := None |}.

Definition fileItem (baseURL dir : string) (u : UnitInfo) (cls : ClassInfo)
    (filename : string) : SearchItem :=
  {| s_type := file; s_title := class_name cls;
     s_subtitle := "Unit " +:+ toString (unit_number u);
     s_href := baseURL +:+ "/" +:+ dir +:+ "/" +:+ unit_directory u +:+ "/"
               +:+ filename;
     s_download := Some true |}.

(** [buildSearchItems]: the three nested loops that push onto [items];
    a class is listed when [cls.filename && cls.status === "success"]. *)
Definition buildSearchItems (baseURL : string)
    (courses : list (string * CourseSummary)) : list SearchItem :=
  fold_left
    (fun items '(dir, summary) =>
       fold_left
         (fun items u =>
            fold_left
              (fun items cls =>
                 match filename cls with
                 | Some f =>
                     if Sync.truthyId f && bool_decide (status cls = "success")
                     then items ++ [fileItem baseURL dir u cls f]
                     else items
                 | None => items
                 end)
              (classes u) (items ++ [unitItem dir summary u]))
         (units summary) (items ++ [courseItem dir summary]))
    courses [].

End Search.

(** ** What the server is handed *)

Module Channel.

Import Sync.

(** The update carried by a [progress_update] message. *)
Definition updateOf (m : ClientMsg) : option ProgressUpdate :=
  match m with
  | progress_update c k b _ =>
      Some {| pu_courseId := c; pu_fileKey := k; pu_isComplete := b |}
  | _ => None
  end.

(** The progress updates handed to [send] so far, in order, whatever the
    socket. *)
Definition delivered (h : Hook) : list ProgressUpdate :=
  omap (fun im => updateOf im.2) (wire h).

(** The queue is empty whenever the current socket is open. *)
Definition flushed (h : Hook) : Prop :=
  currentOpen h = None ∨ pendingUpdatesRef h = [].

End Channel.

(** ** Properties of the percentage *)

Section Doubles.

(** *** Rounding to 53 bits *)

Lemma digits2_bounds (p : positive) :
  2 ^ (Zpos (digits2_pos p) - 1) ≤ Zpos p < 2 ^ Zpos (digits2_pos p).
Proof.
  induction p as [p IH|p IH|]; cbn [digits2_pos].
  - rewrite Pos2Z.inj_succ.
    replace (Z.succ (Zpos (digits2_pos p)) - 1) with (Z.succ (Zpos (digits2_pos p) - 1)) by lia.
    rewrite !Z.pow_succ_r by lia. lia.
  - rewrite Pos2Z.inj_succ.
    replace (Z.succ (Zpos (digits2_pos p)) - 1) with (Z.succ (Zpos (digits2_pos p) - 1)) by lia.
    rewrite !Z.pow_succ_r by lia. lia.
  - simpl. lia.
Qed.

Lemma digits2_unique (p : positive) (d : Z) :
  2 ^ (d - 1) ≤ Zpos p < 2 ^ d → Zpos (digits2_pos p) = d.
Proof.
  intros [Hlo Hhi]. pose proof (digits2_bounds p) as [Hlo' Hhi'].
  assert (0 < d).
  { destruct (Z_lt_le_dec 0 d) as [|Hd]; [done|].
    assert (2 ^ d ≤ 1); [|lia].
    destruct (Z.eq_dec d 0) as [->|]; [simpl; lia|].
    rewrite Z.pow_neg_r by lia. lia. }
  set (d' := Zpos (digits2_pos p)) in *.
  destruct (Z_lt_le_dec d d') as [Hlt|Hge].
  - assert (2 ^ d ≤ 2 ^ (d' - 1)) by (apply Z.pow_le_mono_r; lia). lia.
  - destruct (Z_lt_le_dec d' d) as [Hlt|Hge']; [|lia].
    assert (2 ^ d' ≤ 2 ^ (d - 1)) by (apply Z.pow_le_mono_r; lia). lia.
Qed.

Lemma shr_1_spec (m : Z) (r s : bool) :
  0 ≤ m →
  shr_1 {| shr_m := m; shr_r := r; shr_s := s |}
  = {| shr_m := m / 2; shr_r := Z.odd m; shr_s := r || s |}.
Proof.
  intros Hm. destruct m as [|[p|p|]|]; try lia; cbn [shr_1 Z.odd].
  - reflexivity.
  - f_equal. rewrite Pos2Z.inj_xI. apply (Z.div_unique _ _ _ 1); lia.
  - f_equal. rewrite Pos2Z.inj_xO. apply (Z.div_unique _ _ _ 0); lia.
  - reflexivity.
Qed.

Lemma shifted_step (m : Z) (exact0 : Prop) (k : Z) (rec : shr_record) :
  0 ≤ m → 0 ≤ k → shifted m exact0 k rec → shifted m exact0 (k + 1) (shr_1 rec).
Proof.
  intros Hm Hk [Hrec Hex]. destruct rec as [m' r s].
  cbn [shr_m shr_r shr_s] in Hrec, Hex. subst m'. unfold shifted.
  assert (Hpow : 0 < 2 ^ k) by (apply Z.pow_pos_nonneg; lia).
  rewrite shr_1_spec by (apply Z.div_pos; lia).
  rewrite Z.pow_add_r by lia. change (2 ^ 1) with 2.
  cbn [shr_m shr_r shr_s]. split.
  - rewrite Z.div_div by lia. reflexivity.
  - intros Hx Hmod.
    assert (Hk0 : m mod 2 ^ k = 0).
    { rewrite Z.rem_mul_r in Hmod by lia.
      pose proof (Z.mod_pos_bound m (2 ^ k) Hpow).
      pose proof (Z.mod_pos_bound (m / 2 ^ k) 2 ltac:(lia)). nia. }
    destruct (Hex Hx Hk0) as [-> ->]. split; [|reflexivity].
    rewrite Z.rem_mul_r in Hmod by lia. rewrite Hk0 in Hmod.
    assert (Heven : (m / 2 ^ k) mod 2 = 0).
    { pose proof (Z.mod_pos_bound (m / 2 ^ k) 2 ltac:(lia)). nia. }
    rewrite <- Z.negb_even. apply negb_false_iff.
    apply Z.even_spec. exists ((m / 2 ^ k) / 2).
    pose proof (Z.div_mod (m / 2 ^ k) 2 ltac:(lia)). lia.
Qed.

Lemma shifted_iter (m : Z) (exact0 : Prop) (n : positive) :
  0 ≤ m → ∀ k rec, 0 ≤ k → shifted m exact0 k rec →
  shifted m exact0 (k + Zpos n) (SpecFloat.iter_pos shr_1 n rec).
Proof.
  intros Hm. induction n as [n IH|n IH|]; intros k rec Hk Hrec;
    cbn [SpecFloat.iter_pos].
  - replace (k + Zpos n~1) with ((k + 1 + Zpos n) + Zpos n) by lia.
    apply IH; [lia|]. apply IH; [lia|]. by apply shifted_step.
  - replace (k + Zpos n~0) with ((k + Zpos n) + Zpos n) by lia.
    apply IH; [lia|]. by apply IH.
  - by apply shifted_step.
Qed.

Lemma loc_of_shr_record_of_loc (m : Z) (l : location) :
  loc_of_shr_record (shr_record_of_loc m l) = l
  ∧ shr_m (shr_record_of_loc m l) = m.
Proof. by destruct l as [|[]]. Qed.

Lemma round_nearest_even_bounds (m : Z) (l : location) :
  m ≤ round_nearest_even m l ≤ m + 1.
Proof.
  destruct l as [|[]]; simpl; try lia. destruct (Z.even m); lia.
Qed.

(** The first shift of [binary_round_aux]: a mantissa of [d >= 53] digits
    loses its [d - 53] low bits. *)
Lemma shr_fexp_spec (m e d : Z) (l : location) :
  0 < m → Zdigits2 m = d → 53 ≤ d → -1074 ≤ d + e - 53 →
  ∃ rec, shr_fexp 53 1024 m e l = (rec, e + (d - 53))
       ∧ shr_m rec = m / 2 ^ (d - 53)
       ∧ (l = loc_Exact → m mod 2 ^ (d - 53) = 0 →
          loc_of_shr_record rec = loc_Exact).
Proof.
  intros Hm Hd Hd53 He. unfold shr_fexp, fexp, emin. rewrite Hd.
  replace (Z.sub (Z.max (Z.sub (Z.add d e) 53) (Z.sub (Z.sub 3 1024) 53)) e)
    with (d - 53) by lia.
  destruct (d - 53) as [|n|n] eqn:Hn; [| |lia].
  - exists (shr_record_of_loc m l). cbn [shr]. rewrite Z.add_0_r.
    destruct (loc_of_shr_record_of_loc m l) as [Hl Hm'].
    split; [done|]. split; [by rewrite Hm', Z.div_1_r|].
    intros Hx _. by rewrite Hl.
  - eexists. cbn [shr]. split; [reflexivity|].
    destruct (shifted_iter m (l = loc_Exact) n ltac:(lia) 0
                (shr_record_of_loc m l)) as [Hrec Hex]; [lia| |].
    { split.
      - by rewrite (proj2 (loc_of_shr_record_of_loc m l)), Z.div_1_r.
      - intros -> _. done. }
    rewrite Z.add_0_l in Hrec, Hex. split; [exact Hrec|].
    intros Hx Hmod. destruct (Hex Hx Hmod) as [Hr Hs].
    destruct (SpecFloat.iter_pos _ _ _) as [m' r s]. simpl in *. by subst.
Qed.

Lemma div_pow2_bounds (m d : Z) :
  53 ≤ d → 2 ^ (d - 1) ≤ m < 2 ^ d →
  2 ^ 52 ≤ m / 2 ^ (d - 53) < 2 ^ 53.
Proof.
  intros Hd [Hlo Hhi].
  assert (Hp : 0 < 2 ^ (d - 53)) by (apply Z.pow_pos_nonneg; lia).
  assert (H1 : 2 ^ (d - 1) = 2 ^ 52 * 2 ^ (d - 53)).
  { rewrite <- Z.pow_add_r by lia. f_equal. lia. }
  assert (H2 : 2 ^ d = 2 ^ 53 * 2 ^ (d - 53)).
  { rewrite <- Z.pow_add_r by lia. f_equal. lia. }
  split.
  - apply Z.div_le_lower_bound; lia.
  - apply Z.div_lt_upper_bound; lia.
Qed.

(** [binary_round_aux] on a positive mantissa of [d >= 53] digits, away
    from underflow and overflow: the mantissa is cut to 53 bits and
    possibly incremented; an increment up to [2^53] renormalises. *)
Lemma binary_round_aux_spec (m e d : Z) (l : location) :
  0 < m → Zdigits2 m = d → 53 ≤ d → -1074 ≤ d + e - 53 → d + e - 53 < 971 →
  ∃ m1, m / 2 ^ (d - 53) ≤ m1 ≤ m / 2 ^ (d - 53) + 1
      ∧ (l = loc_Exact → m mod 2 ^ (d - 53) = 0 → m1 = m / 2 ^ (d - 53))
      ∧ ((m1 < 2 ^ 53
          ∧ binary_round_aux 53 1024 false m e l
            = S754_finite false (Z.to_pos m1) (e + (d - 53)))
         ∨ (m1 = 2 ^ 53
            ∧ binary_round_aux 53 1024 false m e l
              = S754_finite false (Z.to_pos (2 ^ 52)) (e + (d - 53) + 1))).
Proof.
  intros Hm Hd Hd53 Hlo Hhi.
  destruct (shr_fexp_spec m e d l Hm Hd Hd53 Hlo) as (rec & Hshr & Hrec & Hex).
  assert (Hb : 2 ^ (d - 1) ≤ m < 2 ^ d).
  { destruct m as [|p|p]; try lia. simpl in Hd. subst d. apply digits2_bounds. }
  pose proof (div_pow2_bounds m d Hd53 Hb) as Hm0.
  set (m0 := m / 2 ^ (d - 53)) in *.
  set (e1 := e + (d - 53)) in *.
  set (m1 := round_nearest_even (shr_m rec) (loc_of_shr_record rec)).
  pose proof (round_nearest_even_bounds (shr_m rec) (loc_of_shr_record rec)) as Hm1.
  fold m1 in Hm1. rewrite Hrec in Hm1.
  exists m1. split; [exact Hm1|]. split.
  { intros Hx Hmod. unfold m1. rewrite (Hex Hx Hmod), Hrec. reflexivity. }
  unfold binary_round_aux. rewrite Hshr. fold m1.
  destruct (Z_lt_le_dec m1 (2 ^ 53)) as [Hlt|Hge]; [left|right].
  - split; [done|].
    assert (Hd1 : Zdigits2 m1 = 53).
    { destruct m1 as [|p|p] eqn:E; try lia. simpl. apply digits2_unique. lia. }
    destruct (shr_fexp_spec m1 e1 53 loc_Exact ltac:(lia) Hd1 ltac:(lia) ltac:(lia))
      as (rec2 & Hshr2 & Hrec2 & _).
    rewrite Hshr2. replace (53 - 53) with 0 in * by lia.
    rewrite Z.div_1_r in Hrec2. rewrite Hrec2.
    destruct m1 as [|p|p] eqn:E; try lia.
    rewrite Z.add_0_r.
    replace (Z.leb e1 (Z.sub 1024 53)) with true; [done|].
    symmetry. apply Z.leb_le. lia.
  - assert (Heq : m1 = 2 ^ 53) by lia. split; [done|].
    assert (Hd1 : Zdigits2 m1 = 54) by (by rewrite Heq).
    destruct (shr_fexp_spec m1 e1 54 loc_Exact ltac:(lia) Hd1 ltac:(lia) ltac:(lia))
      as (rec2 & Hshr2 & Hrec2 & _).
    rewrite Hshr2. rewrite Hrec2, Heq.
    replace (54 - 53) with 1 by lia.
    change (2 ^ 53 / 2 ^ 1) with (Z.pos (Z.to_pos (2 ^ 52))).
    cbv iota beta.
    replace (Z.leb (e1 + 1) (Z.sub 1024 53)) with true; [done|].
    symmetry. apply Z.leb_le. lia.
Qed.

Lemma iter_xO (p k : positive) : Zpos (Pos.iter xO p k) = Zpos p * 2 ^ Zpos k.
Proof.
  induction k as [|k IH] using Pos.peano_ind.
  - simpl. lia.
  - rewrite Pos.iter_succ, Pos2Z.inj_xO, IH, Pos2Z.inj_succ.
    rewrite Z.pow_succ_r by lia. lia.
Qed.

(** An integer below [2^53] is a double with a 53-bit mantissa. *)
Lemma of_Z_spec (n : Z) :
  0 < n < 2 ^ 53 →
  ∃ m e, Number.of_Z n = S754_finite false m e
       ∧ 2 ^ 52 ≤ Zpos m < 2 ^ 53 ∧ -52 ≤ e ≤ 0
       ∧ Zpos m = n * 2 ^ (- e).
Proof.
  intros [Hn0 Hn]. destruct n as [|p|p]; try lia.
  pose proof (digits2_bounds p) as Hd.
  set (d := Zpos (digits2_pos p)) in *.
  assert (Hd53 : 1 ≤ d ≤ 53).
  { split; [unfold d; lia|].
    destruct (Z_lt_le_dec 53 d) as [Hgt|]; [|lia].
    assert (2 ^ 53 ≤ 2 ^ (d - 1)) by (apply Z.pow_le_mono_r; lia). lia. }
  unfold Number.of_Z, binary_normalize, binary_round, fexp, emin,
    Number.prec, Number.emax.
  fold d. replace (Z.max (Z.sub (Z.add d 0) 53) (Z.sub (Z.sub 3 1024) 53))
    with (d - 53) by lia.
  assert (Hal : ∃ mz, shl_align p 0 (d - 53) = (mz, d - 53)
                      ∧ Zpos mz = Zpos p * 2 ^ (53 - d)).
  { unfold shl_align. replace (Z.sub (d - 53) 0) with (d - 53) by lia.
    destruct (d - 53) as [|k|k] eqn:Hk; try lia.
    - exists p. replace d with 53 by lia. split; [done|]. simpl. lia.
    - eexists. split; [reflexivity|]. rewrite iter_xO. f_equal. f_equal. lia. }
  destruct Hal as (mz & -> & Hmz).
  assert (Hmzb : 2 ^ 52 ≤ Zpos mz < 2 ^ 53).
  { rewrite Hmz.
    assert (2 ^ 52 = 2 ^ (d - 1) * 2 ^ (53 - d)) as ->
      by (rewrite <- Z.pow_add_r by lia; f_equal; lia).
    assert (2 ^ 53 = 2 ^ d * 2 ^ (53 - d)) as ->
      by (rewrite <- Z.pow_add_r by lia; f_equal; lia).
    assert (0 < 2 ^ (53 - d)) by (apply Z.pow_pos_nonneg; lia). nia. }
  destruct (binary_round_aux_spec (Zpos mz) (d - 53) 53 loc_Exact)
    as (m1 & Hm1 & Hex & Hres); try lia.
  { simpl. apply digits2_unique. lia. }
  replace (53 - 53) with 0 in * by lia. rewrite Z.div_1_r in *.
  rewrite (Hex eq_refl (Z.mod_1_r _)) in Hres.
  destruct Hres as [[_ ->]|[Hbad _]]; [|lia].
  exists mz, (d - 53). rewrite Z.add_0_r. simpl Z.to_pos.
  split; [done|]. split; [done|]. split; [lia|].
  rewrite Hmz. f_equal. f_equal. lia.
Qed.

Lemma digits2_53 (m : positive) : 2 ^ 52 ≤ Zpos m < 2 ^ 53 → Zdigits2 (Zpos m) = 53.
Proof. intros H. simpl. apply digits2_unique. lia. Qed.

Lemma div_core_spec (mx my : positive) (ex ey : Z) :
  2 ^ 52 ≤ Zpos mx < 2 ^ 53 → 2 ^ 52 ≤ Zpos my < 2 ^ 53 →
  -52 ≤ ex ≤ 0 → -52 ≤ ey ≤ 0 →
  SFdiv_core_binary 53 1024 (Zpos mx) ex (Zpos my) ey
  = (Zpos mx * 2 ^ 53 / Zpos my, ex - ey - 53,
     new_location (Zpos my) ((Zpos mx * 2 ^ 53) mod Zpos my)).
Proof.
  intros Hmx Hmy Hex Hey. unfold SFdiv_core_binary.
  rewrite (digits2_53 mx Hmx), (digits2_53 my Hmy).
  unfold fexp, emin.
  replace (Z.min (Z.max (Z.sub (Z.sub (Z.add 53 ex) (Z.add 53 ey)) 53)
                        (Z.sub (Z.sub 3 1024) 53)) (Z.sub ex ey))
    with (ex - ey - 53) by lia.
  replace (Z.sub (Z.sub ex ey) (ex - ey - 53)) with 53 by lia.
  cbv iota beta. rewrite Z.shiftl_mul_pow2 by lia.
  unfold Z.div, Z.modulo.
  by destruct (Z.div_eucl (Zpos mx * 2 ^ 53) (Zpos my)) as [q r].
Qed.

Lemma new_location_0 (n : Z) : new_location n 0 = loc_Exact.
Proof.
  unfold new_location, new_location_even, new_location_odd.
  by destruct (Z.even n).
Qed.

(** The quotient of two 53-bit doubles, the first not above the second,
    is a 53-bit double not above one. *)
Lemma div_le_one (mx my : positive) (ex ey : Z) :
  2 ^ 52 ≤ Zpos mx < 2 ^ 53 → 2 ^ 52 ≤ Zpos my < 2 ^ 53 →
  -52 ≤ ex ≤ 0 → -52 ≤ ey ≤ 0 →
  ex < ey ∨ (ex = ey ∧ Zpos mx ≤ Zpos my) →
  ∃ mq eq,
    Number.div (S754_finite false mx ex) (S754_finite false my ey)
    = S754_finite false mq eq
    ∧ 2 ^ 52 ≤ Zpos mq < 2 ^ 53 ∧ -107 ≤ eq ≤ -52 ∧ Zpos mq ≤ 2 ^ (- eq)
    ∧ 51 ≤ ex - ey - eq ≤ 53
    ∧ (Zpos mq - 1) * Zpos my ≤ Zpos mx * 2 ^ (ex - ey - eq)
      ≤ (Zpos mq + 1) * Zpos my.
Proof.
  intros Hmx Hmy Hex Hey Hle. unfold Number.div, SFdiv, Number.prec, Number.emax.
  rewrite (div_core_spec mx my ex ey Hmx Hmy Hex Hey). cbn [xorb].
  set (q := Zpos mx * 2 ^ 53 / Zpos my).
  set (r := (Zpos mx * 2 ^ 53) mod Zpos my).
  set (e' := ex - ey - 53).
  assert (Hq : 2 ^ 52 ≤ q < 2 ^ 54).
  { unfold q. split.
    - apply Z.div_le_lower_bound; [lia|]. nia.
    - apply Z.div_lt_upper_bound; [lia|].
      change (2 ^ 54) with (2 ^ 53 * 2). nia. }
  assert (Hd : ∃ d, Zdigits2 q = d ∧ 2 ^ (d - 1) ≤ q < 2 ^ d
                    ∧ ((d = 53 ∧ q < 2 ^ 53) ∨ (d = 54 ∧ 2 ^ 53 ≤ q))).
  { destruct q as [|p|p] eqn:Eq; try lia.
    destruct (Z_lt_le_dec (Zpos p) (2 ^ 53)) as [Hlt|Hge].
    - exists 53. split; [apply digits2_unique; lia|]. split; [lia|]. by left.
    - exists 54. split; [apply digits2_unique; lia|]. split; [lia|]. by right. }
  destruct Hd as (d & Hd & Hdb & Hdcase).
  destruct (binary_round_aux_spec q e' d (new_location (Zpos my) r))
    as (m1 & Hm1 & Hexact & Hres); try lia.
  pose proof (div_pow2_bounds q d ltac:(lia) Hdb) as Hm0.
  set (m0 := q / 2 ^ (d - 53)) in *.
  assert (Hpow53 : ∀ k, 53 ≤ k → 2 ^ 53 ≤ 2 ^ k)
    by (intros k Hk; apply Z.pow_le_mono_r; lia).
  assert (Hfin : ∀ m e, 2 ^ 52 ≤ m < 2 ^ 53 ∨ m = 2 ^ 52 →
                        -107 ≤ e ≤ -52 → (e = -52 → m = 2 ^ 52) →
                        2 ^ 52 ≤ m < 2 ^ 53 ∧ m ≤ 2 ^ (- e)).
  { intros m e Hm He Hm52. split; [lia|].
    destruct (Z.eq_dec e (-52)) as [->|Hne].
    - rewrite (Hm52 eq_refl). simpl. lia.
    - specialize (Hpow53 (- e) ltac:(lia)). lia. }
  (* the tie case [mx = my]: the quotient is exactly one *)
  assert (Htie : ex = ey → d = 54 → m1 = 2 ^ 52).
  { intros Hee Hd54. destruct Hle as [|[_ Hmm]]; [lia|].
    destruct Hdcase as [[? _]|[_ Hq53]]; [lia|].
    assert (Hqle : q ≤ 2 ^ 53).
    { unfold q. apply Z.div_le_upper_bound; [lia|]. nia. }
    assert (Hq' : q = 2 ^ 53) by lia.
    assert (Hmxy : Zpos mx = Zpos my).
    { assert (Zpos my * q ≤ Zpos mx * 2 ^ 53)
        by (unfold q; apply Z.mul_div_le; lia).
      rewrite Hq' in *. nia. }
    assert (Hr : r = 0).
    { unfold r. rewrite Hmxy, Z.mul_comm. apply Z.mod_mul. lia. }
    rewrite Hr, new_location_0 in Hexact.
    rewrite Hexact; [|done|].
    - unfold m0. rewrite Hd54, Hq'. reflexivity.
    - rewrite Hd54, Hq'. reflexivity. }
  (* the quotient and its truncation, as inequalities *)
  assert (Hqlo : Zpos my * q ≤ Zpos mx * 2 ^ 53)
    by (unfold q; apply Z.mul_div_le; lia).
  assert (Hqhi : Zpos mx * 2 ^ 53 < Zpos my * (q + 1)).
  { unfold q. pose proof (Z.mul_succ_div_gt (Zpos mx * 2 ^ 53) (Zpos my)
                            ltac:(lia)). lia. }
  assert (Hm0q : 2 ^ (d - 53) * m0 ≤ q < 2 ^ (d - 53) * (m0 + 1)).
  { unfold m0. split.
    - apply Z.mul_div_le. apply Z.pow_pos_nonneg; lia.
    - pose proof (Z.mul_succ_div_gt q (2 ^ (d - 53))
                    ltac:(apply Z.pow_pos_nonneg; lia)). lia. }
  destruct Hres as [[Hlt ->]|[Heq ->]].
  - exists (Z.to_pos m1), (e' + (d - 53)).
    rewrite Z2Pos.id by lia. split; [done|].
    assert (He : -107 ≤ e' + (d - 53) ≤ -52) by (unfold e'; lia).
    destruct (Hfin m1 (e' + (d - 53))) as [? ?]; [lia|lia| |].
    { intros He52. apply Htie; unfold e' in *; lia. }
    split; [done|]. split; [done|]. split; [done|].
    split; [unfold e'; lia|].
    destruct Hdcase as [[-> _]|[-> _]].
    + replace (ex - ey - (e' + (53 - 53))) with 53 by (unfold e'; lia).
      change (2 ^ (53 - 53)) with 1 in Hm0q. nia.
    + replace (ex - ey - (e' + (54 - 53))) with 52 by (unfold e'; lia).
      change (2 ^ (54 - 53)) with 2 in Hm0q.
      change (2 ^ 53) with (2 * 2 ^ 52) in Hqlo, Hqhi. nia.
  - exists (Z.to_pos (2 ^ 52)), (e' + (d - 53) + 1). split; [done|].
    change (Zpos (Z.to_pos (2 ^ 52))) with (2 ^ 52).
    assert (Hd53 : ex = ey → d = 53).
    { intros Hee. destruct (Z.eq_dec d 53) as [|Hne]; [done|].
      rewrite (Htie Hee ltac:(lia)) in Heq. discriminate Heq. }
    assert (He : -107 ≤ e' + (d - 53) + 1 ≤ -52).
    { unfold e'. destruct Hle as [|[Hee _]]; [lia|].
      specialize (Hd53 Hee). lia. }
    destruct (Hfin (2 ^ 52) (e' + (d - 53) + 1)) as [? ?]; [by right|lia|done|].
    split; [done|]. split; [done|]. split; [done|].
    split; [unfold e'; lia|].
    assert (Hm0' : m0 = 2 ^ 53 - 1) by lia.
    destruct Hdcase as [[-> _]|[-> _]].
    + replace (ex - ey - (e' + (53 - 53) + 1)) with 52 by (unfold e'; lia).
      change (2 ^ (53 - 53)) with 1 in Hm0q.
      change (2 ^ 53) with (2 * 2 ^ 52) in *. nia.
    + replace (ex - ey - (e' + (54 - 53) + 1)) with 51 by (unfold e'; lia).
      change (2 ^ (54 - 53)) with 2 in Hm0q.
      change (2 ^ 53) with (4 * 2 ^ 51) in *.
      change (2 ^ 52) with (2 * 2 ^ 51) in *. nia.
Qed.

Lemma of_Z_100 : Number.of_Z 100 = S754_finite false 7036874417766400 (-46).
Proof. reflexivity. Qed.

(** A 53-bit double not above one, times [100], is not above [100]. *)
Lemma mul_100_le (mq : positive) (eq : Z) :
  2 ^ 52 ≤ Zpos mq < 2 ^ 53 → -107 ≤ eq ≤ -52 → Zpos mq ≤ 2 ^ (- eq) →
  ∃ m' e',
    Number.mul (S754_finite false mq eq) (Number.of_Z 100)
    = S754_finite false m' e'
    ∧ e' ≤ -44 ∧ Zpos m' ≤ 100 * 2 ^ (- e')
    ∧ 52 ≤ e' - eq + 46 ≤ 54
    ∧ (Zpos m' - 1) * 2 ^ (e' - eq + 46) ≤ Zpos mq * (100 * 2 ^ 46)
      ≤ (Zpos m' + 1) * 2 ^ (e' - eq + 46).
Proof.
  intros Hmq Heq Hle. rewrite of_Z_100.
  unfold Number.mul, SFmul, Number.prec, Number.emax. cbn [xorb].
  rewrite Pos2Z.inj_mul.
  set (P := Zpos mq * Zpos 7036874417766400).
  assert (HP : 2 ^ 104 ≤ P < 2 ^ 106) by (unfold P; lia).
  assert (Hd : ∃ d, Zdigits2 P = d ∧ 2 ^ (d - 1) ≤ P < 2 ^ d
                    ∧ (d = 105 ∨ d = 106)).
  { destruct P as [|p|p] eqn:EP; try lia.
    destruct (Z_lt_le_dec (Zpos p) (2 ^ 105)) as [Hlt|Hge].
    - exists 105. split; [apply digits2_unique; lia|]. split; [lia|]. by left.
    - exists 106. split; [apply digits2_unique; lia|]. split; [lia|]. by right. }
  destruct Hd as (d & Hd & Hdb & Hdcase).
  destruct (binary_round_aux_spec P (eq + -46) d loc_Exact)
    as (m1 & Hm1 & Hexact & Hres); try lia.
  pose proof (div_pow2_bounds P d ltac:(lia) Hdb) as Hm0.
  set (n := d - 53) in *.
  set (m0 := P / 2 ^ n) in *.
  set (k := 46 - eq - n).
  assert (Hk : 45 ≤ k) by (unfold k, n; lia).
  assert (Hpn : 0 < 2 ^ n) by (apply Z.pow_pos_nonneg; unfold n; lia).
  assert (Hpk : 0 < 2 ^ k) by (apply Z.pow_pos_nonneg; lia).
  (* P <= 100 * 2^k * 2^n *)
  assert (HPle : P ≤ 2 ^ n * (100 * 2 ^ k)).
  { assert (Hsplit : 2 ^ (- eq) * 2 ^ 46 = 2 ^ n * 2 ^ k).
    { rewrite <- !Z.pow_add_r by (unfold n; lia). f_equal. unfold k. lia. }
    unfold P. change (Zpos 7036874417766400) with (100 * 2 ^ 46). nia. }
  assert (Hm1le : m1 ≤ 100 * 2 ^ k).
  { assert (Hm0le : m0 ≤ 100 * 2 ^ k)
      by (unfold m0; apply Z.div_le_upper_bound; lia).
    destruct (Z.eq_dec m0 (100 * 2 ^ k)) as [Heq0|Hne]; [|lia].
    assert (HPge : 2 ^ n * m0 ≤ P) by (unfold m0; apply Z.mul_div_le; lia).
    assert (HPeq : P = (100 * 2 ^ k) * 2 ^ n) by nia.
    rewrite Hexact; [lia|done|].
    rewrite HPeq. apply Z.mod_mul. lia. }
  assert (Hm0P : 2 ^ n * m0 ≤ P < 2 ^ n * (m0 + 1)).
  { unfold m0. split.
    - apply Z.mul_div_le. lia.
    - pose proof (Z.mul_succ_div_gt P (2 ^ n) Hpn). lia. }
  change (Zpos 7036874417766400) with (100 * 2 ^ 46) in P.
  destruct Hres as [[Hlt ->]|[Heq1 ->]].
  - exists (Z.to_pos m1), (eq + -46 + n).
    rewrite Z2Pos.id by lia. split; [done|]. split; [unfold n; lia|].
    replace (- (eq + -46 + n)) with k by (unfold k; lia). split; [done|].
    replace (eq + -46 + n - eq + 46) with n by lia.
    split; [unfold n; lia|]. fold P. nia.
  - exists (Z.to_pos (2 ^ 52)), (eq + -46 + n + 1). split; [done|].
    split; [unfold n; lia|].
    change (Zpos (Z.to_pos (2 ^ 52))) with (2 ^ 52).
    replace (- (eq + -46 + n + 1)) with (k - 1) by (unfold k; lia).
    assert (2 ^ k = 2 * 2 ^ (k - 1)).
    { rewrite <- Z.pow_succ_r by lia. f_equal. lia. }
    change (2 ^ 53) with (2 * 2 ^ 52) in Heq1. split; [lia|].
    replace (eq + -46 + n + 1 - eq + 46) with (n + 1) by lia.
    split; [unfold n; lia|]. fold P.
    rewrite Z.pow_add_r by (unfold n; lia). change (2 ^ 1) with 2.
    change (2 ^ 53) with (2 * 2 ^ 52) in Hm0. nia.
Qed.

Lemma round_Z_half (m : positive) (e : Z) :
  e < 0 →
  (2 * Number.round_Z false m e - 1) * 2 ^ (- e) ≤ 2 * Zpos m
  < (2 * Number.round_Z false m e + 1) * 2 ^ (- e).
Proof.
  intros He. destruct e as [|p|p]; try lia. unfold Number.round_Z.
  change (- Zneg p) with (Zpos p).
  assert (Hp : 0 < 2 ^ Zpos p) by (apply Z.pow_pos_nonneg; lia).
  rewrite Z.pow_add_r by lia. change (2 ^ 1) with 2.
  set (a := 2 * Zpos m + 2 ^ Zpos p). set (b := 2 ^ Zpos p * 2).
  pose proof (Z.mul_div_le a b ltac:(lia)).
  pose proof (Z.mul_succ_div_gt a b ltac:(lia)).
  unfold a, b in *. nia.
Qed.

Lemma round_Z_le_100 (m : positive) (e : Z) :
  e < 0 → Zpos m ≤ 100 * 2 ^ (- e) → 0 ≤ Number.round_Z false m e ≤ 100.
Proof.
  intros He Hm. destruct e as [|p|p]; try lia. unfold Number.round_Z.
  change (- Zneg p) with (Zpos p) in Hm.
  assert (Hp : 0 < 2 ^ Zpos p) by (apply Z.pow_pos_nonneg; lia).
  rewrite Z.pow_add_r by lia. change (2 ^ 1) with 2.
  split.
  - apply Z.div_pos; lia.
  - assert ((2 * Zpos m + 2 ^ Zpos p) / (2 ^ Zpos p * 2) < 101); [|lia].
    apply Z.div_lt_upper_bound; lia.
Qed.

Lemma percent_in_range (r : Z) :
  0 ≤ r ≤ 100 →
  Number.in_percent_range (if r =? 0 then S754_zero false else Number.of_Z r)
  = true.
Proof.
  intros Hr.
  assert (Hall : forallb
            (fun n => Number.in_percent_range
                        (if Z.of_nat n =? 0 then S754_zero false
                         else Number.of_Z (Z.of_nat n)))
            (seq 0 101) = true) by (vm_compute; reflexivity).
  rewrite forallb_forall in Hall.
  specialize (Hall (Z.to_nat r)). rewrite Z2Nat.id in Hall by lia.
  apply Hall. apply in_seq. lia.
Qed.

(** Three roundings, each off by at most one unit of its scale, cannot
    move the result away from a nearest integer when the scales are fine
    enough for the denominator. *)
Lemma nearest_from_errors (c t r mq m' A K T : Z) :
  0 < T → 0 < t ≤ T → 1024 * T ≤ A → 4 * T ≤ K →
  0 ≤ c → 0 ≤ r → 0 < mq → 0 < m' →
  (mq - 1) * t ≤ c * A ≤ (mq + 1) * t →
  (m' - 1) * A ≤ 100 * mq * K ≤ (m' + 1) * A →
  (2 * r - 1) * K ≤ 2 * m' < (2 * r + 1) * K →
  2 * Z.abs (r * t - 100 * c) ≤ t.
Proof.
  intros HT Ht HA HK Hc Hr Hmq Hm' HD HM HR.
  assert (Hsmall : t * (200 * K + 2 * A) < K * A).
  { assert (H1 : t * (200 * K + 2 * A) ≤ T * (200 * K + 2 * A))
      by (apply Z.mul_le_mono_nonneg_r; lia).
    assert (H2 : K * (1024 * T) ≤ K * A)
      by (apply Z.mul_le_mono_nonneg_l; lia).
    assert (H3 : (4 * T) * A ≤ K * A)
      by (apply Z.mul_le_mono_nonneg_r; lia).
    assert (H4 : 0 < T * K) by (apply Z.mul_pos_pos; lia).
    lia. }
  assert (HKA : 0 < K * A) by (apply Z.mul_pos_pos; lia).
  assert (HAt : 0 ≤ A * t) by (apply Z.mul_nonneg_nonneg; lia).
  destruct (Z.abs_spec (r * t - 100 * c)) as [[Hsign ->]|[Hsign ->]].
  - destruct (Z_le_gt_dec (2 * (r * t - 100 * c)) t) as [|Hgt]; [done|exfalso].
    assert (H4 : (2 * r * K) * (A * t) ≤ (2 * m' + K) * (A * t))
      by (apply Z.mul_le_mono_nonneg_r; lia).
    assert (H5 : (2 * (m' * A)) * t ≤ (2 * (100 * mq * K + A)) * t)
      by (apply Z.mul_le_mono_nonneg_r; lia).
    assert (H6 : (200 * K) * (mq * t) ≤ (200 * K) * (c * A + t))
      by (apply Z.mul_le_mono_nonneg_l; lia).
    assert (H8 : (K * A) * 1 ≤ (K * A) * (2 * r * t - 200 * c - t))
      by (apply Z.mul_le_mono_nonneg_l; lia).
    lia.
  - destruct (Z_le_gt_dec (2 * - (r * t - 100 * c)) t) as [|Hgt]; [done|exfalso].
    assert (H4 : (2 * m') * (A * t) ≤ ((2 * r + 1) * K) * (A * t))
      by (apply Z.mul_le_mono_nonneg_r; lia).
    assert (H5 : (2 * (100 * mq * K - A)) * t ≤ (2 * (m' * A)) * t)
      by (apply Z.mul_le_mono_nonneg_r; lia).
    assert (H6 : (200 * K) * (c * A - t) ≤ (200 * K) * (mq * t))
      by (apply Z.mul_le_mono_nonneg_l; lia).
    assert (H8 : (K * A) * 1 ≤ (K * A) * (200 * c - 2 * r * t - t))
      by (apply Z.mul_le_mono_nonneg_l; lia).
    lia.
Qed.

Lemma of_Z_ordered (c t : Z) (mx my : positive) (ex ey : Z) :
  0 < c ≤ t →
  2 ^ 52 ≤ Zpos mx < 2 ^ 53 → 2 ^ 52 ≤ Zpos my < 2 ^ 53 →
  -52 ≤ ex ≤ 0 → -52 ≤ ey ≤ 0 →
  Zpos mx = c * 2 ^ (- ex) → Zpos my = t * 2 ^ (- ey) →
  ex < ey ∨ (ex = ey ∧ Zpos mx ≤ Zpos my).
Proof.
  intros Hc Hmx Hmy Hex Hey Hcx Hty.
  assert (Hpx : 0 < 2 ^ (- ex)) by (apply Z.pow_pos_nonneg; lia).
  destruct (Z_lt_le_dec ex ey) as [|Hge]; [by left|right].
  assert (Hee : ex = ey).
  { destruct (Z.eq_dec ex ey) as [|Hne]; [done|]. exfalso.
    assert (Hs : 2 ^ (- ey) = 2 ^ (ex - ey) * 2 ^ (- ex)).
    { rewrite <- Z.pow_add_r by lia. f_equal. lia. }
    assert (2 ≤ 2 ^ (ex - ey)).
    { change 2 with (2 ^ 1) at 1. apply Z.pow_le_mono_r; lia. }
    nia. }
  split; [done|]. subst ey. nia.
Qed.

(** The percentage of [completed] out of [totalFiles >= completed]:
    an integer between [0] and [100]. *)
Lemma percentageOf_in_range (completed : nat) (totalFiles : Z) :
  Z.of_nat completed ≤ totalFiles → 0 < totalFiles < 2 ^ 53 →
  ∃ n, 0 ≤ n ≤ 100
     ∧ Progress.percentageOf completed totalFiles = Number.of_Z n
     ∧ Number.in_percent_range (Progress.percentageOf completed totalFiles) = true.
Proof.
  intros Hc Ht. unfold Progress.percentageOf.
  replace (0 <? totalFiles) with true by (symmetry; apply Z.ltb_lt; lia).
  destruct (of_Z_spec totalFiles Ht) as (my & ey & -> & Hmy & Hey & Hty).
  destruct (Z.eq_dec (Z.of_nat completed) 0) as [->|Hc0];
    [by exists 0|].
  destruct (of_Z_spec (Z.of_nat completed) ltac:(lia))
    as (mx & ex & -> & Hmx & Hex & Hcx).
  pose proof (of_Z_ordered (Z.of_nat completed) totalFiles mx my ex ey
                ltac:(lia) Hmx Hmy Hex Hey Hcx Hty) as Hle.
  destruct (div_le_one mx my ex ey Hmx Hmy Hex Hey Hle)
    as (mq & eq & -> & Hmq & Heq & Hq1 & _).
  destruct (mul_100_le mq eq Hmq Heq Hq1) as (m' & e' & -> & He' & Hm' & _).
  pose proof (round_Z_le_100 m' e' ltac:(lia) Hm') as Hr.
  exists (Number.round_Z false m' e'). split; [done|].
  unfold Number.round. split; [|by apply percent_in_range].
  destruct (Number.round_Z false m' e' =? 0) eqn:E; [|done].
  apply Z.eqb_eq in E. by rewrite E.
Qed.

(** It is an integer nearest to [100 * completed / totalFiles]. *)
Lemma percentageOf_nearest (completed : nat) (totalFiles : Z) :
  Z.of_nat completed ≤ totalFiles → 0 < totalFiles ≤ 2 ^ 42 →
  ∃ n, Progress.percentageOf completed totalFiles = Number.of_Z n
     ∧ 2 * Z.abs (n * totalFiles - 100 * Z.of_nat completed) ≤ totalFiles.
Proof.
  intros Hc Ht. unfold Progress.percentageOf.
  replace (0 <? totalFiles) with true by (symmetry; apply Z.ltb_lt; lia).
  set (c := Z.of_nat completed) in *. set (t := totalFiles) in *.
  destruct (Z.eq_dec c 0) as [->|Hc0].
  { exists 0. split; [|simpl; lia].
    by destruct (of_Z_spec t ltac:(lia)) as (my & ey & -> & _). }
  destruct (of_Z_spec t ltac:(lia)) as (my & ey & -> & Hmy & Hey & Hty).
  destruct (of_Z_spec c ltac:(unfold c in *; lia))
    as (mx & ex & -> & Hmx & Hex & Hcx).
  assert (Hc' : 0 < c ≤ t) by (unfold c in *; lia).
  pose proof (of_Z_ordered c t mx my ex ey Hc' Hmx Hmy Hex Hey Hcx Hty) as Hle.
  assert (Hpy : 0 < 2 ^ (- ey)) by (apply Z.pow_pos_nonneg; lia).
  destruct (div_le_one mx my ex ey Hmx Hmy Hex Hey Hle)
    as (mq & eq & -> & Hmq & Heq & Hq1 & Hg & Hdiv).
  destruct (mul_100_le mq eq Hmq Heq Hq1)
    as (m' & e' & -> & He' & Hm' & HN & Hmul).
  pose proof (round_Z_le_100 m' e' ltac:(lia) Hm') as Hr.
  pose proof (round_Z_half m' e' ltac:(lia)) as Hhalf.
  set (r := Number.round_Z false m' e') in *.
  exists r. split.
  { unfold Number.round. fold r. destruct (r =? 0) eqn:E; [|done].
    apply Z.eqb_eq in E. by rewrite E. }
  set (A := 2 ^ (- eq)) in *. set (K := 2 ^ (- e')) in *.
  assert (HA : 2 ^ 52 ≤ A) by (apply Z.pow_le_mono_r; lia).
  assert (HK : 2 ^ 44 ≤ K) by (apply Z.pow_le_mono_r; lia).
  (* the error of the division, over the scale [A] *)
  assert (HD : (Zpos mq - 1) * t ≤ c * A ≤ (Zpos mq + 1) * t).
  { assert (Hsc : 2 ^ (- ex) * 2 ^ (ex - ey - eq) = 2 ^ (- ey) * A).
    { unfold A. rewrite <- !Z.pow_add_r by lia. f_equal. lia. }
    rewrite Hcx, Hty in Hdiv.
    assert (H1 : c * 2 ^ (- ex) * 2 ^ (ex - ey - eq) = (c * A) * 2 ^ (- ey))
      by (rewrite <- Z.mul_assoc, Hsc; ring).
    rewrite H1 in Hdiv.
    replace ((Zpos mq - 1) * (t * 2 ^ (- ey)))
      with (((Zpos mq - 1) * t) * 2 ^ (- ey)) in Hdiv by ring.
    replace ((Zpos mq + 1) * (t * 2 ^ (- ey)))
      with (((Zpos mq + 1) * t) * 2 ^ (- ey)) in Hdiv by ring.
    split; apply (Z.mul_le_mono_pos_r _ _ (2 ^ (- ey))); lia. }
  (* the error of the multiplication, over the scales [A] and [K] *)
  assert (HM : (Zpos m' - 1) * A ≤ 100 * Zpos mq * K ≤ (Zpos m' + 1) * A).
  { assert (Hsc : 2 ^ (e' - eq + 46) * K = A * 2 ^ 46).
    { unfold A, K. rewrite <- !Z.pow_add_r by lia. f_equal. lia. }
    assert (HpN : 0 < 2 ^ (e' - eq + 46)) by (apply Z.pow_pos_nonneg; lia).
    set (N := 2 ^ (e' - eq + 46)) in *.
    assert (H46 : 0 < 2 ^ 46) by lia.
    split; apply (Z.mul_le_mono_pos_r _ _ (2 ^ 46) H46).
    - replace ((Zpos m' - 1) * A * 2 ^ 46) with ((Zpos m' - 1) * N * K)
        by (rewrite <- Z.mul_assoc, Hsc; ring).
      replace (100 * Zpos mq * K * 2 ^ 46)
        with (Zpos mq * (100 * 2 ^ 46) * K) by ring.
      apply Z.mul_le_mono_nonneg_r; lia.
    - replace ((Zpos m' + 1) * A * 2 ^ 46) with ((Zpos m' + 1) * N * K)
        by (rewrite <- Z.mul_assoc, Hsc; ring).
      replace (100 * Zpos mq * K * 2 ^ 46)
        with (Zpos mq * (100 * 2 ^ 46) * K) by ring.
      apply Z.mul_le_mono_nonneg_r; lia. }
  apply (nearest_from_errors c t r (Zpos mq) (Zpos m') A K (2 ^ 42));
    try done; lia.
Qed.

End Doubles.

(** ** Properties of the progress store *)

Section ProgressStore.

Import Progress App.

Lemma isFileComplete_truthyAt (p : ProgressData) (c k : string) :
  isFileComplete p c k = truthyAt (courseProgressOf p c) k.
Proof.
  unfold isFileComplete, truthyAt, courseProgressOf.
  destruct (p !! c) as [cp|]; simpl; [done|].
  by rewrite lookup_empty.
Qed.

Lemma courseProgressOf_insert_eq (p : ProgressData) (c : string) (m : gmap string bool) :
  courseProgressOf (<[c := m]> p) c = m.
Proof. unfold courseProgressOf. by rewrite lookup_insert_eq. Qed.

Lemma toggleUnit_fold (c : string) (b : bool) (keys : list string)
    (m : gmap string bool) (hk : option Sync.Hook) :
  fold_left
    (fun '(updated, hk) key =>
       (<[key := b]> updated, sendProgressToServer c key b hk))
    keys (m, hk)
  = (fold_left (fun updated key => <[key := b]> updated) keys m,
     fold_left (fun hk key => sendProgressToServer c key b hk) keys hk).
Proof.
  revert m hk. induction keys as [|k keys IH]; intros m hk; simpl; [done|].
  apply IH.
Qed.

Lemma lookup_fold_insert (b : bool) (keys : list string) (m : gmap string bool)
    (key : string) :
  fold_left (fun updated k => <[k := b]> updated) keys m !! key
  = if decide (key ∈ keys) then Some b else m !! key.
Proof.
  revert m. induction keys as [|k keys IH]; intros m; cbn [fold_left].
  - rewrite decide_False; [done | by intros ?%elem_of_nil].
  - rewrite IH. destruct (decide (key ∈ keys)) as [Hin|Hnin].
    + rewrite decide_True; [done | by right].
    + destruct (decide (key = k)) as [->|Hne].
      * rewrite lookup_insert_eq. rewrite decide_True; [done | by left].
      * rewrite lookup_insert_ne by done.
        rewrite decide_False; [done|].
        intros [?|?]%elem_of_cons; done.
Qed.

Lemma progress_toggleUnit (c : string) (keys : list string) (b : bool) (a : App) :
  progress (toggleUnitComplete c keys b a)
  = <[c := fold_left (fun updated k => <[k := b]> updated) keys
             (courseProgressOf (progress a) c)]> (progress a).
Proof. unfold toggleUnitComplete. by rewrite toggleUnit_fold. Qed.

(** C10: the two toggles leave every other course untouched;
    [toggleUnitComplete] sets exactly the listed keys of the course to
    [markComplete] and [toggleFileComplete] changes no key but [fileKey]. *)
Theorem toggles_change_only_their_course (a : App) (courseId fileKey : string)
    (fileKeys : list string) (markComplete : bool) :
  (∀ other, other ≠ courseId →
     progress (toggleFileComplete courseId fileKey a) !! other
     = progress a !! other)
  ∧ (∀ other, other ≠ courseId →
       progress (toggleUnitComplete courseId fileKeys markComplete a) !! other
       = progress a !! other)
  ∧ (∀ key, key ∉ fileKeys →
       courseProgressOf
         (progress (toggleUnitComplete courseId fileKeys markComplete a))
         courseId !! key
       = courseProgressOf (progress a) courseId !! key)
  ∧ (∀ key, key ∈ fileKeys →
       courseProgressOf
         (progress (toggleUnitComplete courseId fileKeys markComplete a))
         courseId !! key
       = Some markComplete)
  ∧ (∀ key, key ≠ fileKey →
       courseProgressOf (progress (toggleFileComplete courseId fileKey a))
         courseId !! key
       = courseProgressOf (progress a) courseId !! key).
Proof.
  repeat split.
  - intros other Hne. simpl. by rewrite lookup_insert_ne.
  - intros other Hne. rewrite progress_toggleUnit. by rewrite lookup_insert_ne.
  - intros key Hnin. rewrite progress_toggleUnit, courseProgressOf_insert_eq.
    rewrite lookup_fold_insert. by rewrite decide_False.
  - intros key Hin. rewrite progress_toggleUnit, courseProgressOf_insert_eq.
    rewrite lookup_fold_insert. by rewrite decide_True.
  - intros key Hne. simpl. rewrite courseProgressOf_insert_eq.
    by rewrite lookup_insert_ne.
Qed.

Lemma isFileComplete_toggle (a : App) (c k : string) :
  isFileComplete (progress (toggleFileComplete c k a)) c k
  = negb (isFileComplete (progress a) c k).
Proof.
  rewrite !isFileComplete_truthyAt. simpl.
  rewrite courseProgressOf_insert_eq. unfold truthyAt at 1.
  by rewrite lookup_insert_eq.
Qed.

(** C9 (amended): two successive toggles of a file restore
    [isFileComplete]; when a sender is installed they hand it the file key
    with a value and then with its negation, which go out on the open
    socket, or are queued when there is none; with no sender installed
    nothing is sent. *)
Theorem toggle_twice_restores (a : App) (courseId fileKey : string) :
  let b := negb (isFileComplete (progress a) courseId fileKey) in
  let a2 := toggleFileComplete courseId fileKey
              (toggleFileComplete courseId fileKey a) in
  isFileComplete (progress a2) courseId fileKey
  = isFileComplete (progress a) courseId fileKey
  ∧ hook a2
    = Sync.sendProgressUpdate fileKey (negb b)
        <$> (Sync.sendProgressUpdate fileKey b <$> hook a)
  ∧ (∀ h i, hook a = Some h → Sync.currentOpen h = Some i →
       sent a2
       = sent a
         ++ [(i, Sync.progress_update (Sync.courseId h) fileKey b
                   (Sync.username h));
             (i, Sync.progress_update (Sync.courseId h) fileKey (negb b)
                   (Sync.username h))]
       ∧ queued a2 = queued a)
  ∧ (∀ h, hook a = Some h → Sync.currentOpen h = None →
       sent a2 = sent a
       ∧ queued a2
         = queued a
           ++ [{| Sync.pu_courseId := Sync.courseId h;
                  Sync.pu_fileKey := fileKey; Sync.pu_isComplete := b |};
               {| Sync.pu_courseId := Sync.courseId h;
                  Sync.pu_fileKey := fileKey;
                  Sync.pu_isComplete := negb b |}])
  ∧ (hook a = None → sent a2 = [] ∧ queued a2 = []).
Proof.
  intros b a2.
  assert (Hhook : hook a2
    = Sync.sendProgressUpdate fileKey (negb b)
        <$> (Sync.sendProgressUpdate fileKey b <$> hook a)).
  { unfold a2, b. simpl. rewrite courseProgressOf_insert_eq.
    unfold truthyAt at 1. rewrite lookup_insert_eq. simpl.
    rewrite <- isFileComplete_truthyAt.
    destruct (hook a); simpl; [|done].
    by rewrite negb_involutive. }
  split; [|split; [exact Hhook|]].
  - unfold a2. rewrite !isFileComplete_toggle. apply negb_involutive.
  - split; [|split].
    + intros h i Hh Hopen. unfold sent, queued. rewrite Hhook, Hh. simpl.
      unfold Sync.sendProgressUpdate at 2 4. rewrite Hopen. simpl.
      unfold Sync.sendProgressUpdate.
      assert (Hopen' : Sync.currentOpen
        (Sync.send i (Sync.progress_update (Sync.courseId h) fileKey b
                        (Sync.username h)) h) = Some i) by exact Hopen.
      rewrite Hopen'. simpl. split; [|done].
      by rewrite <- app_assoc.
    + intros h Hh Hopen. unfold sent, queued. rewrite Hhook, Hh. simpl.
      unfold Sync.sendProgressUpdate at 2 4. rewrite Hopen. simpl.
      unfold Sync.sendProgressUpdate.
      assert (Hopen' : Sync.currentOpen
        (Sync.set_pendingUpdatesRef
           (Sync.pendingUpdatesRef h
            ++ [{| Sync.pu_courseId := Sync.courseId h;
                   Sync.pu_fileKey := fileKey; Sync.pu_isComplete := b |}]) h)
        = None) by exact Hopen.
      rewrite Hopen'. simpl. split; [done|].
      by rewrite <- app_assoc.
    + intros Hh. unfold sent, queued. rewrite Hhook, Hh. done.
Qed.

End ProgressStore.

(** C9, as stated, fails where no sender is installed: a file toggled
    twice in a store with no sync hook sends no update at all. *)
Lemma toggle_twice_sends_nothing_without_sender :
  let a := {| App.progress := ∅; App.hook := None |} in
  let a2 := App.toggleFileComplete "c1" "1-a" (App.toggleFileComplete "c1" "1-a" a) in
  App.sent a2 = []
  ∧ ¬ (∃ i c u b,
         App.sent a2
         = App.sent a ++ [(i, Sync.progress_update c "1-a" b u);
                          (i, Sync.progress_update c "1-a" (negb b) u)]).
Proof.
  split; [reflexivity|].
  intros (i & c & u & b & H). discriminate H.
Qed.

(** ** Properties of the sync channel *)

Section SyncChannel.

Import Sync Trace.

(** *** Renaming *)

Lemma trimStart_nil (s : jsstring) :
  trimStart s = [] ↔ forallb isWhiteSpace s = true.
Proof.
  induction s as [|c s IH]; simpl; [done|].
  destruct (isWhiteSpace c); simpl; [exact IH|].
  split; intros H; discriminate H.
Qed.

Lemma trimStart_forallb (s : jsstring) :
  forallb isWhiteSpace (trimStart s) = forallb isWhiteSpace s.
Proof.
  induction s as [|c s IH]; simpl; [done|].
  destruct (isWhiteSpace c) eqn:Hc; simpl; [exact IH|].
  by rewrite Hc.
Qed.

Lemma forallb_rev {A} (p : A → bool) (l : list A) :
  forallb p (rev l) = forallb p l.
Proof.
  induction l as [|x l IH]; simpl; [done|].
  rewrite forallb_app, IH. simpl. rewrite andb_true_r. apply andb_comm.
Qed.

Lemma truthy_trim (s : jsstring) :
  truthy (trim s) = negb (forallb isWhiteSpace s).
Proof.
  unfold trim.
  destruct (forallb isWhiteSpace s) eqn:Hs; simpl.
  - apply trimStart_nil in Hs. rewrite Hs. reflexivity.
  - destruct (rev (trimStart (rev (trimStart s)))) as [|c r] eqn:Hr; [|done].
    exfalso.
    apply (f_equal (@rev N)) in Hr. rewrite rev_involutive in Hr. simpl in Hr.
    apply trimStart_nil in Hr.
    rewrite forallb_rev, trimStart_forallb in Hr. congruence.
Qed.

(** C7: [updateUsername] ignores an input made of white space only (the
    empty string included): the state, and with it the stored name and the
    messages sent, is unchanged.  Any other input becomes the user name,
    is written to localStorage, and is announced with one [set_username]
    message on the current socket when that socket is open; nothing is sent
    otherwise. *)
Theorem updateUsername_rejects_blank (h : Hook) (newUsername : jsstring) :
  (forallb isWhiteSpace newUsername = true →
     step h (UpdateUsername newUsername) = h)
  ∧ (forallb isWhiteSpace newUsername = false →
       let h' := step h (UpdateUsername newUsername) in
       username h' = newUsername
       ∧ storedUsername h' = Some newUsername
       ∧ wire h'
         = wire h
           ++ match currentOpen h with
              | Some i => [(i, set_username newUsername)]
              | None => []
              end).
Proof.
  split; intros Hws; simpl; unfold updateUsername;
    rewrite truthy_trim, Hws; simpl; [done|].
  match goal with |- context [currentOpen ?x] =>
    change (currentOpen x) with (currentOpen h) end.
  destruct (currentOpen h); simpl; [done|].
  by rewrite app_nil_r.
Qed.

(** *** Rank of the local user *)

Lemma findIndex_ge (A : Type) (p : A → bool) (l : list A) :
  -1 ≤ Leaderboard.findIndex p l.
Proof.
  induction l as [|x l IH]; simpl; [lia|].
  destruct (p x); [lia|].
  destruct (Leaderboard.findIndex p l <? 0) eqn:E; lia.
Qed.

Lemma findIndex_none (A : Type) (p : A → bool) (l : list A) :
  Leaderboard.findIndex p l = -1 ↔ ∀ x, x ∈ l → p x = false.
Proof.
  induction l as [|x l IH]; simpl.
  - split; [|done]. intros _ y Hy. by apply elem_of_nil in Hy.
  - destruct (p x) eqn:Hx.
    + split; [lia|]. intros H. specialize (H x). rewrite Hx in H.
      discriminate H. by left.
    + pose proof (findIndex_ge A p l) as Hge.
      destruct (Leaderboard.findIndex p l <? 0) eqn:E.
      * apply Z.ltb_lt in E.
        split; [|done]. intros _ y [->|Hy]%elem_of_cons; [done|].
        apply IH; [lia | done].
      * apply Z.ltb_ge in E. split; [lia|].
        intros H. assert (Leaderboard.findIndex p l = -1); [|lia].
        apply IH. intros y Hy. apply H. by right.
Qed.

Lemma findIndex_first (A : Type) (p : A → bool) (l : list A) (i : nat) (x : A) :
  l !! i = Some x → p x = true →
  (∀ j y, (j < i)%nat → l !! j = Some y → p y = false) →
  Leaderboard.findIndex p l = Z.of_nat i.
Proof.
  revert i. induction l as [|z l IH]; intros i Hi Hx Hbefore; [done|].
  destruct i as [|i]; simpl in *.
  - injection Hi as ->. by rewrite Hx.
  - rewrite (Hbefore 0%nat z) by (lia || done).
    rewrite (IH i Hi Hx).
    + destruct (Z.of_nat i <? 0) eqn:E; [apply Z.ltb_lt in E|]; lia.
    + intros j y Hj Hy. apply (Hbefore (S j) y); [lia | done].
Qed.

(** C4: [currentUserRank] is the 1-based position of the first entry of
    the displayed leaderboard whose [userId] is the local one, and is
    absent when there is no such entry or no local [userId]; the displayed
    leaderboard is the array of the last accepted [leaderboard_update]. *)
Theorem currentUserRank_is_position (h : Hook) :
  (userId h = None → currentUserRank h = None)
  ∧ (∀ u, userId h = Some u →
       (∀ entry, entry ∈ leaderboard h → le_userId entry ≠ u) →
       currentUserRank h = None)
  ∧ (∀ u i entry, userId h = Some u → truthyId u = true →
       leaderboard h !! i = Some entry → le_userId entry = u →
       (∀ j other, (j < i)%nat → leaderboard h !! j = Some other →
                   le_userId other ≠ u) →
       currentUserRank h = Some (Z.of_nat i + 1))
  ∧ (∀ i sk entries, sockets h !! i = Some sk → ws_readyState sk = OPEN →
       let h' := step h (WsMessage i
                   (leaderboard_update (cl_courseId (ws_closure sk)) entries)) in
       leaderboard h' = entries ∧ userId h' = userId h).
Proof.
  split; [|split; [|split]].
  - intros Hu. unfold currentUserRank. by rewrite Hu.
  - intros u Hu Hnone. unfold currentUserRank. rewrite Hu.
    destruct (truthyId u); [|done].
    replace (Leaderboard.findIndex _ (leaderboard h)) with (-1); [done|].
    symmetry. apply findIndex_none. intros x Hx.
    apply bool_decide_eq_false. by apply Hnone.
  - intros u i entry Hu Ht Hi He Hbefore. unfold currentUserRank.
    rewrite Hu, Ht.
    rewrite (findIndex_first _ _ _ i entry Hi).
    + destruct (0 <? Z.of_nat i + 1) eqn:E; [done|]. apply Z.ltb_ge in E. lia.
    + by apply bool_decide_eq_true.
    + intros j y Hj Hy. apply bool_decide_eq_false. by apply (Hbefore j).
  - intros i sk entries Hi Hopen. simpl. rewrite Hi, Hopen. simpl.
    by rewrite decide_True.
Qed.

End SyncChannel.

Section Connection.

Import Sync Trace.

(** *** What the socket handlers do *)

Lemma step_WsOpen (h : Hook) (i : nat) (sk : Socket) :
  sockets h !! i = Some sk → ws_readyState sk = CONNECTING →
  step h (WsOpen i) = onopen i (ws_closure sk) (setReadyState i OPEN h).
Proof. intros Hi Hst. simpl. by rewrite Hi, Hst. Qed.

Lemma step_WsClose (h : Hook) (i : nat) (sk : Socket) :
  sockets h !! i = Some sk → ws_readyState sk ≠ CLOSED →
  step h (WsClose i) = onclose (ws_closure sk) (setReadyState i CLOSED h).
Proof. intros Hi Hst. simpl. rewrite Hi. by destruct (ws_readyState sk). Qed.

Lemma step_WsMessage (h : Hook) (i : nat) (sk : Socket) (data : ServerMsg) :
  sockets h !! i = Some sk → ws_readyState sk = OPEN →
  step h (WsMessage i data) = onmessage (ws_closure sk) data h.
Proof. intros Hi Hst. simpl. by rewrite Hi, Hst. Qed.

Lemma wire_flush (i : nat) (cl : Closure) (l : list ProgressUpdate) (h : Hook) :
  wire (fold_left (fun acc u => send i (flushMsg cl u) acc) l h)
  = wire h ++ List.map (fun u => (i, flushMsg cl u)) l.
Proof.
  revert h. induction l as [|u l IH]; intros h; simpl.
  - by rewrite app_nil_r.
  - rewrite IH. simpl. by rewrite <- app_assoc.
Qed.

Lemma wire_onopen (i : nat) (cl : Closure) (h : Hook) :
  wire (onopen i cl h)
  = wire h ++ List.map (fun u => (i, flushMsg cl u)) (pendingUpdatesRef h)
      ++ [(i, request_leaderboard (cl_courseId cl))].
Proof.
  unfold onopen. simpl.
  destruct (pendingUpdatesRef h) as [|u l] eqn:Hp; simpl; [done|].
  rewrite wire_flush. simpl. by rewrite <- !app_assoc.
Qed.

Lemma pending_onopen (i : nat) (cl : Closure) (h : Hook) :
  pendingUpdatesRef (onopen i cl h) = [].
Proof.
  unfold onopen. simpl.
  destruct (pendingUpdatesRef h) as [|u l] eqn:Hp; simpl; done.
Qed.

(** The flush tags every queued update with the user name that the
    [connect] of the opening socket closed over, and the handler accepts
    a snapshot exactly when it is for the course of that closure. *)
Lemma onmessage_leaderboard (cl : Closure) (c : string)
    (entries : list LeaderboardEntry) (h : Hook) :
  leaderboard (onmessage cl (leaderboard_update c entries) h)
  = if decide (c = cl_courseId cl) then entries else leaderboard h.
Proof. simpl. by destruct (decide (c = cl_courseId cl)). Qed.

(** C5: the code does not tag the flushed updates with the current user
    name when the socket that opens was created by the [connect] of an
    earlier render.  After a rename from "A" to "B" the closed socket's
    [onclose] reconnects with the old callback; the update queued
    meanwhile goes out on that socket under the name "A". *)
Theorem flush_tags_with_stale_username :
  let h := run (initial "c1" None None) renameThenStaleReconnect in
  let h' := step h (WsOpen 2%nat) in
  username h = of_string "B"
  ∧ pendingUpdatesRef h
    = [{| pu_courseId := "c1"; pu_fileKey := "1-f"; pu_isComplete := true |}]
  ∧ username h' = of_string "B"
  ∧ wire h'
    = wire h ++ [(2%nat, progress_update "c1" "1-f" true (of_string "A"));
                 (2%nat, request_leaderboard "c1")].
Proof. vm_compute. repeat split. Qed.

(** C6: the code replaces the displayed leaderboard with a snapshot for a
    course that is no longer displayed when the snapshot arrives on a
    socket created by the [connect] of an earlier render.  After the hook
    moved from course "c1" to "c2", the closed socket's [onclose]
    reconnects with the old callback, and a snapshot for "c1" received on
    that socket is displayed. *)
Theorem stale_socket_accepts_other_course :
  let h := run (initial "c1" None None) switchCourseThenStaleReconnect in
  let h' := step h (WsMessage 2%nat (leaderboard_update "c1" [sampleEntry])) in
  courseId h = "c2"
  ∧ leaderboard h = []
  ∧ courseId h' = "c2"
  ∧ leaderboard h' = [sampleEntry]
  ∧ leaderboard (step h (WsMessage 2%nat (leaderboard_update "c2" [sampleEntry])))
    = [].
Proof. vm_compute. repeat split. Qed.

End Connection.

Section Offline.

Import Sync Trace.

(** *** While the current socket is not open *)

Lemma currentOpen_None (h : Hook) :
  currentOpen h = None
  ↔ ∀ i sk, wsRef h = Some i → sockets h !! i = Some sk →
            ws_readyState sk ≠ OPEN.
Proof.
  unfold currentOpen, readyStateOf. split.
  - intros H i sk Hi Hsk. rewrite Hi, Hsk in H. simpl in H.
    by destruct (ws_readyState sk).
  - intros H. destruct (wsRef h) as [i|]; [|done].
    destruct (sockets h !! i) as [sk|] eqn:Hsk; simpl; [|done].
    specialize (H i sk eq_refl Hsk). by destruct (ws_readyState sk).
Qed.

Lemma offline_setReadyState (h : Hook) (i : nat) (r : ReadyState) :
  r ≠ OPEN → currentOpen h = None → currentOpen (setReadyState i r h) = None.
Proof.
  intros Hr Hoff. apply currentOpen_None. intros j sk Hj Hsk.
  simpl in Hj, Hsk. destruct (decide (i = j)) as [->|Hne].
  - rewrite list_lookup_alter_eq in Hsk.
    destruct (sockets h !! j); simpl in Hsk; [|done].
    by injection Hsk as <-.
  - rewrite list_lookup_alter_ne in Hsk by done.
    by apply (proj1 (currentOpen_None h) Hoff j).
Qed.

Lemma offline_close (h : Hook) (i : nat) :
  currentOpen h = None → currentOpen (close i h) = None.
Proof.
  intros Hoff. unfold close.
  destruct (readyStateOf h i) as [[]|]; try done;
    by apply offline_setReadyState.
Qed.

Lemma offline_connect (cl : Closure) (h : Hook) :
  currentOpen (connect cl h) = None ∨ connect cl h = h.
Proof.
  unfold connect. destruct (truthyUser (cl_userId cl)); [left|by right].
  apply currentOpen_None. intros j sk Hj Hsk. simpl in Hj, Hsk.
  injection Hj as <-. rewrite list_lookup_middle in Hsk by done.
  by injection Hsk as <-.
Qed.

Lemma currentOpen_same (h h' : Hook) :
  wsRef h' = wsRef h → sockets h' = sockets h → currentOpen h' = currentOpen h.
Proof. intros Hw Hs. unfold currentOpen, readyStateOf. by rewrite Hw, Hs. Qed.

Lemma offline_cleanup (h : Hook) :
  currentOpen h = None → currentOpen (cleanup h) = None.
Proof.
  intros Hoff. unfold cleanup.
  set (h1 := match reconnectTimeoutRef h with
             | Some t => clearTimeout t h
             | None => h
             end).
  assert (H1 : currentOpen h1 = None).
  { unfold h1. destruct (reconnectTimeoutRef h) as [t|]; [|done].
    by rewrite (currentOpen_same h (clearTimeout t h)). }
  destruct (wsRef h1) as [i|]; [by apply offline_close | done].
Qed.

Lemma frame_connect (cl : Closure) (h : Hook) :
  wire (connect cl h) = wire h
  ∧ pendingUpdatesRef (connect cl h) = pendingUpdatesRef h.
Proof. unfold connect. by destruct (truthyUser (cl_userId cl)). Qed.

Lemma frame_close (i : nat) (h : Hook) :
  wire (close i h) = wire h ∧ pendingUpdatesRef (close i h) = pendingUpdatesRef h.
Proof. unfold close. by destruct (readyStateOf h i) as [[]|]. Qed.

Lemma frame_cleanup (h : Hook) :
  wire (cleanup h) = wire h ∧ pendingUpdatesRef (cleanup h) = pendingUpdatesRef h.
Proof.
  unfold cleanup.
  set (h1 := match reconnectTimeoutRef h with
             | Some t => clearTimeout t h
             | None => h
             end).
  assert (H1 : wire h1 = wire h ∧ pendingUpdatesRef h1 = pendingUpdatesRef h)
    by (unfold h1; by destruct (reconnectTimeoutRef h)).
  destruct H1 as [<- <-].
  destruct (wsRef h1) as [i|]; [apply frame_close | done].
Qed.

Lemma frame_identify (freshId : string) (freshName : jsstring) (h : Hook) :
  wire (identify freshId freshName h) = wire h
  ∧ pendingUpdatesRef (identify freshId freshName h) = pendingUpdatesRef h
  ∧ wsRef (identify freshId freshName h) = wsRef h
  ∧ sockets (identify freshId freshName h) = sockets h.
Proof.
  unfold identify.
  destruct (storedUserId h) as [s|]; [destruct (truthyId s)|]; simpl;
    (destruct (storedUsername h) as [n|]; [destruct (truthy n)|]); done.
Qed.

(** An event other than a socket opening keeps the channel offline, sends
    nothing, and only ever appends to the queue. *)
Lemma offline_step (h : Hook) (ev : Event) :
  isWsOpen ev = false → currentOpen h = None →
  currentOpen (step h ev) = None
  ∧ wire (step h ev) = wire h
  ∧ pendingUpdatesRef (step h ev) = pendingUpdatesRef h ++ issued h [ev].
Proof.
  intros Hev Hoff.
  destruct ev as [fid fname|c| | |s|fk b| |fks| |i|i data|i|i|t];
    simpl in *; try discriminate Hev; rewrite ?app_nil_r.
  - destruct (mounted h); [|done].
    destruct (frame_identify fid fname h) as (-> & -> & Hw & Hs).
    by rewrite (currentOpen_same _ _ Hw Hs).
  - by destruct (mounted h).
  - destruct (mounted h); [|done]. unfold commit.
    destruct (decide (effectDeps h = Some (currentClosure h))); [done|].
    set (h1 := match effectDeps h with Some _ => cleanup h | None => h end).
    assert (H1 : currentOpen h1 = None
                 ∧ wire h1 = wire h
                 ∧ pendingUpdatesRef h1 = pendingUpdatesRef h).
    { unfold h1. destruct (effectDeps h); [|done].
      split; [by apply offline_cleanup | apply frame_cleanup]. }
    destruct H1 as (Hoff1 & Hw1 & Hp1).
    destruct (frame_connect (currentClosure h) h1) as [Hw2 Hp2].
    simpl. rewrite Hw2, Hp2, Hw1, Hp1. split; [|done].
    change (currentOpen (connect (currentClosure h) h1) = None).
    destruct (offline_connect (currentClosure h) h1) as [H|H]; [done|].
    by rewrite H.
  - destruct (mounted h); [|done]. simpl.
    set (h1 := match effectDeps h with Some _ => cleanup h | None => h end).
    change (currentOpen h1 = None ∧ wire h1 = wire h
            ∧ pendingUpdatesRef h1 = pendingUpdatesRef h).
    unfold h1. destruct (effectDeps h); [|done].
    split; [by apply offline_cleanup | apply frame_cleanup].
  - unfold updateUsername. destruct (negb (truthy (trim s))); [done|].
    match goal with |- context [currentOpen ?x] =>
      change (currentOpen x) with (currentOpen h) end.
    by rewrite Hoff.
  - unfold sendProgressUpdate. by rewrite Hoff.
  - unfold requestLeaderboardUpdate. by rewrite Hoff.
  - unfold syncStudyItems. by rewrite Hoff.
  - destruct (mounted h); [|done]. unfold pollTick. rewrite Hoff.
    by destruct (isConnected h && truthyId (courseId h)).
  - destruct (sockets h !! i) as [sk|]; [|done].
    destruct (ws_readyState sk); try done.
    unfold onmessage.
    destruct data as [c entries| | |]; try done.
    by destruct (decide (c = cl_courseId (ws_closure sk))).
  - done.
  - destruct (sockets h !! i) as [sk|]; [|done].
    assert (Hc : currentOpen (onclose (ws_closure sk) (setReadyState i CLOSED h))
                 = None).
    { change (currentOpen (setReadyState i CLOSED h) = None).
      by apply offline_setReadyState. }
    destruct (ws_readyState sk); done.
  - destruct (timers h !! t) as [tm|]; [|done].
    destruct (tm_armed tm); [|done].
    destruct (frame_connect (tm_closure tm) (clearTimeout t h)) as [-> ->].
    split; [|done].
    destruct (offline_connect (tm_closure tm) (clearTimeout t h)) as [H|H];
      [done | by rewrite H].
Qed.

Lemma issued_cons (h : Hook) (ev : Event) (evs : list Event) :
  issued h (ev :: evs) = issued h [ev] ++ issued (step h ev) evs.
Proof. cbn [issued]. by rewrite app_nil_r. Qed.

Lemma offline_run (h : Hook) (evs : list Event) :
  forallb (fun ev => negb (isWsOpen ev)) evs = true → currentOpen h = None →
  currentOpen (run h evs) = None
  ∧ wire (run h evs) = wire h
  ∧ pendingUpdatesRef (run h evs) = pendingUpdatesRef h ++ issued h evs.
Proof.
  revert h. induction evs as [|ev evs IH]; intros h Hevs Hoff.
  - simpl. by rewrite app_nil_r.
  - simpl in Hevs. apply andb_true_iff in Hevs as [Hev Hevs].
    apply negb_true_iff in Hev.
    destruct (offline_step h ev Hev Hoff) as (Hoff1 & Hw1 & Hp1).
    destruct (IH (step h ev) Hevs Hoff1) as (Hoff2 & Hw2 & Hp2).
    change (run h (ev :: evs)) with (run (step h ev) evs).
    rewrite Hw2, Hp2, Hw1, Hp1. split; [done|split; [done|]].
    by rewrite (issued_cons h ev evs), app_assoc.
Qed.

(** C3: over any run of events in which no socket opens, starting with
    the current socket not open, nothing is sent and every update issued
    by [sendProgressUpdate] is appended to the pending queue in the order
    of issue.  When a socket then opens, its handler sends the whole queue
    on that socket in queue order, followed by the leaderboard request, and
    empties the queue; a later opening sends no queued update again. *)
Theorem offline_updates_flushed_in_order (h : Hook) (evs : list Event)
    (i : nat) (sk : Socket) :
  currentOpen h = None →
  forallb (fun ev => negb (isWsOpen ev)) evs = true →
  sockets (run h evs) !! i = Some sk → ws_readyState sk = CONNECTING →
  let h1 := run h evs in
  let h2 := step h1 (WsOpen i) in
  wire h1 = wire h
  ∧ pendingUpdatesRef h1 = pendingUpdatesRef h ++ issued h evs
  ∧ wire h2
    = wire h
      ++ List.map (fun u => (i, flushMsg (ws_closure sk) u))
           (pendingUpdatesRef h ++ issued h evs)
      ++ [(i, request_leaderboard (cl_courseId (ws_closure sk)))]
  ∧ pendingUpdatesRef h2 = []
  ∧ (∀ j sk', sockets h2 !! j = Some sk' → ws_readyState sk' = CONNECTING →
       wire (step h2 (WsOpen j))
       = wire h2 ++ [(j, request_leaderboard (cl_courseId (ws_closure sk')))]).
Proof.
  intros Hoff Hevs Hi Hst h1 h2.
  destruct (offline_run h evs Hevs Hoff) as (_ & Hw1 & Hp1).
  fold h1 in Hw1, Hp1, Hi.
  assert (Hh2 : h2 = onopen i (ws_closure sk) (setReadyState i OPEN h1))
    by (by apply step_WsOpen).
  assert (Hp2 : pendingUpdatesRef h2 = []).
  { rewrite Hh2. apply pending_onopen. }
  split; [done|]. split; [done|]. split; [|split; [done|]].
  - rewrite Hh2, wire_onopen. simpl. by rewrite Hw1, Hp1.
  - intros j sk' Hj Hst'. rewrite (step_WsOpen h2 j sk' Hj Hst').
    rewrite wire_onopen. simpl. by rewrite Hp2.
Qed.

End Offline.

(** The scenario of the specification: offline, [f1] then [f2] are
    toggled, then the socket opens. *)
Lemma offline_updates_flushed_in_order_witness :
  let h := Sync.run (Sync.initial "c1" None None)
             [Sync.Identify "user_1" (Sync.of_string "A"); Sync.Commit] in
  let evs := [Sync.SendProgressUpdate "1-f1" true;
              Sync.SendProgressUpdate "1-f2" true] in
  let h2 := Sync.step (Sync.run h evs) (Sync.WsOpen 0%nat) in
  Sync.wire h2
  = [(0%nat, Sync.progress_update "c1" "1-f1" true (Sync.of_string "A"));
     (0%nat, Sync.progress_update "c1" "1-f2" true (Sync.of_string "A"));
     (0%nat, Sync.request_leaderboard "c1")]
  ∧ Sync.pendingUpdatesRef h2 = [].
Proof.
  intros h evs h2.
  pose proof (offline_updates_flushed_in_order h evs 0%nat
    {| Sync.ws_closure :=
         {| Sync.cl_userId := Some "user_1"; Sync.cl_courseId := "c1";
            Sync.cl_username := Sync.of_string "A" |};
       Sync.ws_readyState := Sync.CONNECTING |}
    eq_refl eq_refl eq_refl eq_refl) as (_ & _ & Hw & Hp & _).
  split; [exact Hw | exact Hp].
Defined.

Section Reconnect.

Import Sync Trace.

(** *** Every socket and timer belongs to a [connect] with a user id *)

Lemma haveUser_same (h h' : Hook) :
  sockets h' = sockets h → timers h' = timers h →
  closuresHaveUser h → closuresHaveUser h'.
Proof. unfold closuresHaveUser. by intros -> ->. Qed.

Lemma haveUser_setReadyState (i : nat) (r : ReadyState) (h : Hook) :
  closuresHaveUser h → closuresHaveUser (setReadyState i r h).
Proof.
  intros [Hs Ht]. split; [|done]. simpl.
  apply Forall_alter; [done|]. by intros sk _ Hsk.
Qed.

Lemma haveUser_clearTimeout (t : nat) (h : Hook) :
  closuresHaveUser h → closuresHaveUser (clearTimeout t h).
Proof.
  intros [Hs Ht]. split; [done|]. simpl.
  apply Forall_alter; [done|]. by intros tm _ Htm.
Qed.

Lemma haveUser_close (i : nat) (h : Hook) :
  closuresHaveUser h → closuresHaveUser (close i h).
Proof.
  intros H. unfold close.
  destruct (readyStateOf h i) as [[]|]; try done;
    by apply haveUser_setReadyState.
Qed.

Lemma haveUser_cleanup (h : Hook) :
  closuresHaveUser h → closuresHaveUser (cleanup h).
Proof.
  intros H. unfold cleanup.
  set (h1 := match reconnectTimeoutRef h with
             | Some t => clearTimeout t h
             | None => h
             end).
  assert (H1 : closuresHaveUser h1).
  { unfold h1. destruct (reconnectTimeoutRef h); [|done].
    by apply haveUser_clearTimeout. }
  destruct (wsRef h1); [by apply haveUser_close | done].
Qed.

Lemma haveUser_connect (cl : Closure) (h : Hook) :
  closuresHaveUser h → closuresHaveUser (connect cl h).
Proof.
  intros [Hs Ht]. unfold connect.
  destruct (truthyUser (cl_userId cl)) eqn:Hcl; [|done].
  split; [|done]. simpl. apply Forall_app. split; [done|].
  by apply Forall_singleton.
Qed.

Lemma haveUser_onclose (cl : Closure) (h : Hook) :
  hasUser cl → closuresHaveUser h → closuresHaveUser (onclose cl h).
Proof.
  intros Hcl [Hs Ht]. split; [done|]. simpl.
  apply Forall_app. split; [done|]. by apply Forall_singleton.
Qed.

Lemma haveUser_flush (i : nat) (cl : Closure) (l : list ProgressUpdate) (h : Hook) :
  sockets (fold_left (fun acc u => send i (flushMsg cl u) acc) l h) = sockets h
  ∧ timers (fold_left (fun acc u => send i (flushMsg cl u) acc) l h) = timers h.
Proof.
  revert h. induction l as [|u l IH]; intros h; simpl; [done|].
  destruct (IH (send i (flushMsg cl u) h)) as [-> ->]. done.
Qed.

Lemma haveUser_step (h : Hook) (ev : Event) :
  closuresHaveUser h → closuresHaveUser (step h ev).
Proof.
  intros H.
  destruct ev as [fid fname|c| | |s|fk b| |fks| |i|i data|i|i|t]; simpl.
  - destruct (mounted h); [|done]. revert H. apply haveUser_same;
      unfold identify;
      (destruct (storedUserId h) as [s|]; [destruct (truthyId s)|]); simpl;
      (destruct (storedUsername h) as [n|]; [destruct (truthy n)|]); done.
  - by destruct (mounted h).
  - destruct (mounted h); [|done]. unfold commit.
    destruct (decide (effectDeps h = Some (currentClosure h))); [done|].
    apply (haveUser_same (connect (currentClosure h)
             match effectDeps h with Some _ => cleanup h | None => h end));
      [done..|].
    apply haveUser_connect. destruct (effectDeps h); [|done].
    by apply haveUser_cleanup.
  - destruct (mounted h); [|done].
    apply (haveUser_same
             match effectDeps h with Some _ => cleanup h | None => h end);
      [done..|].
    destruct (effectDeps h); [|done]. by apply haveUser_cleanup.
  - unfold updateUsername. destruct (negb (truthy (trim s))); [done|].
    match goal with |- context [currentOpen ?x] =>
      destruct (currentOpen x) end; revert H; by apply haveUser_same.
  - unfold sendProgressUpdate.
    destruct (currentOpen h); revert H; by apply haveUser_same.
  - unfold requestLeaderboardUpdate.
    destruct (currentOpen h); [|done].
    destruct (truthyId (courseId h)); [|done].
    revert H. by apply haveUser_same.
  - unfold syncStudyItems.
    destruct (currentOpen h); [|done].
    destruct (truthyId (courseId h)); [|done].
    revert H. by apply haveUser_same.
  - destruct (mounted h); [|done]. unfold pollTick.
    destruct (isConnected h && truthyId (courseId h)); [|done].
    destruct (currentOpen h); [|done]. revert H. by apply haveUser_same.
  - destruct (sockets h !! i) as [sk|] eqn:Hi; [|done].
    destruct (ws_readyState sk); try done.
    apply (haveUser_same (setReadyState i OPEN h)).
    + unfold onopen. simpl.
      destruct (pendingUpdatesRef h) as [|u l]; simpl; [done|].
      match goal with |- context [fold_left _ l ?h0] =>
        destruct (haveUser_flush i (ws_closure sk) l h0) as [Hfs Hft] end.
      by rewrite ?Hfs, ?Hft.
    + unfold onopen. simpl.
      destruct (pendingUpdatesRef h) as [|u l]; simpl; [done|].
      match goal with |- context [fold_left _ l ?h0] =>
        destruct (haveUser_flush i (ws_closure sk) l h0) as [Hfs Hft] end.
      by rewrite ?Hfs, ?Hft.
    + by apply haveUser_setReadyState.
  - destruct (sockets h !! i) as [sk|]; [|done].
    destruct (ws_readyState sk); try done.
    destruct data as [c entries| | |]; simpl; try done.
    destruct (decide (c = cl_courseId (ws_closure sk))); [|done].
    revert H. by apply haveUser_same.
  - done.
  - destruct (sockets h !! i) as [sk|] eqn:Hi; [|done].
    assert (Hsk : hasUser (ws_closure sk)).
    { destruct H as [Hs _]. rewrite Forall_lookup in Hs. by apply (Hs i). }
    assert (H' : closuresHaveUser
                   (onclose (ws_closure sk) (setReadyState i CLOSED h))).
    { apply haveUser_onclose; [done|]. by apply haveUser_setReadyState. }
    by destruct (ws_readyState sk).
  - destruct (timers h !! t) as [tm|]; [|done].
    destruct (tm_armed tm); [|done].
    apply haveUser_connect. by apply haveUser_clearTimeout.
Qed.

Lemma haveUser_reachable (h : Hook) : reachable h → closuresHaveUser h.
Proof.
  intros (c & sid & sname & evs & ->).
  assert (H0 : closuresHaveUser (initial c sid sname)) by (split; constructor).
  revert H0. generalize (initial c sid sname).
  induction evs as [|ev evs IH]; intros h0 H0; [done|].
  simpl. apply IH. by apply haveUser_step.
Qed.

End Reconnect.

Section Retry.

Import Sync Trace.

Lemma step_TimerFire (h : Hook) (t : nat) (tm : Timer) :
  timers h !! t = Some tm → tm_armed tm = true →
  step h (TimerFire t) = connect (tm_closure tm) (clearTimeout t h).
Proof. intros Ht Harmed. simpl. by rewrite Ht, Harmed. Qed.

(** One round: the socket closes, the timeout fires. *)
Lemma close_then_fire (h : Hook) (i : nat) (sk : Socket) :
  hasUser (ws_closure sk) →
  sockets h !! i = Some sk → ws_readyState sk ≠ CLOSED →
  let h2 := step (step h (WsClose i)) (TimerFire (length (timers h))) in
  timers h2
  = timers h ++ [{| tm_closure := ws_closure sk; tm_delay := 3000;
                    tm_armed := false |}]
  ∧ sockets h2
    = alter (fun s => {| ws_closure := ws_closure s; ws_readyState := CLOSED |})
        i (sockets h)
      ++ [{| ws_closure := ws_closure sk; ws_readyState := CONNECTING |}]
  ∧ isConnected h2 = false
  ∧ wsRef h2 = Some (length (sockets h)).
Proof.
  intros Hu Hi Hst h2. unfold h2.
  rewrite (step_WsClose h i sk Hi Hst).
  set (tm := {| tm_closure := ws_closure sk; tm_delay := 3000; tm_armed := true |}).
  set (h1 := onclose (ws_closure sk) (setReadyState i CLOSED h)).
  assert (Ht : timers h1 !! length (timers h) = Some tm).
  { unfold h1. simpl. by apply list_lookup_middle. }
  rewrite (step_TimerFire h1 _ tm Ht eq_refl).
  unfold connect. simpl. unfold hasUser in Hu. rewrite Hu. simpl.
  rewrite alter_app_r_alt by done. rewrite Nat.sub_diag. simpl.
  by rewrite length_alter.
Qed.

Lemma closeAndRetry_spec (n : nat) (h : Hook) (i : nat) (sk : Socket) :
  hasUser (ws_closure sk) →
  sockets h !! i = Some sk → ws_readyState sk ≠ CLOSED →
  length (sockets (closeAndRetry n h i).1) = (length (sockets h) + n)%nat
  ∧ timers (closeAndRetry n h i).1
    = timers h ++ replicate n {| tm_closure := ws_closure sk; tm_delay := 3000;
                                 tm_armed := false |}
  ∧ ∃ st, sockets (closeAndRetry n h i).1 !! (closeAndRetry n h i).2
          = Some {| ws_closure := ws_closure sk; ws_readyState := st |}
          ∧ st ≠ CLOSED.
Proof.
  revert h i sk. induction n as [|n IH]; intros h i sk Hu Hi Hst.
  - simpl. rewrite Nat.add_0_r, app_nil_r. split; [done|]. split; [done|].
    exists (ws_readyState sk). split; [|done]. by destruct sk.
  - cbn [closeAndRetry].
    destruct (close_then_fire h i sk Hu Hi Hst) as (Ht & Hs & _ & _).
    set (h2 := step (step h (WsClose i)) (TimerFire (length (timers h)))) in *.
    set (sk2 := {| ws_closure := ws_closure sk; ws_readyState := CONNECTING |}).
    assert (Hj : sockets h2 !! length (sockets h) = Some sk2).
    { rewrite Hs. apply list_lookup_middle. by rewrite length_alter. }
    destruct (IH h2 (length (sockets h)) sk2 Hu Hj) as (Hlen & Htm & Hlast);
      [done|].
    split; [|split].
    + rewrite Hlen, Hs, length_app, length_alter. simpl. lia.
    + rewrite Htm, Ht. simpl. by rewrite <- app_assoc.
    + exact Hlast.
Qed.

(** C8: when a socket that is not yet closed reports its close, the
    handler sets [isConnected] to false and registers a timeout of 3000 ms
    that calls the same [connect]; when it fires a new socket is created.
    This holds again for that socket, for any number [n] of rounds: after
    [n] closes there have been [n] timeouts, each of 3000 ms, and [n] new
    connection attempts, the latest one still pending. *)
Theorem reconnect_after_every_close (h : Hook) (i : nat) (sk : Socket) (n : nat) :
  reachable h → sockets h !! i = Some sk → ws_readyState sk ≠ CLOSED →
  let h1 := step h (WsClose i) in
  let h2 := step h1 (TimerFire (length (timers h))) in
  let hn := (closeAndRetry n h i).1 in
  (isConnected h1 = false
   ∧ timers h1
     = timers h ++ [{| tm_closure := ws_closure sk; tm_delay := 3000;
                       tm_armed := true |}]
   ∧ reconnectTimeoutRef h1 = Some (length (timers h)))
  ∧ (sockets h2 !! length (sockets h)
     = Some {| ws_closure := ws_closure sk; ws_readyState := CONNECTING |}
     ∧ wsRef h2 = Some (length (sockets h)))
  ∧ (length (sockets hn) = (length (sockets h) + n)%nat
     ∧ timers hn
       = timers h ++ replicate n {| tm_closure := ws_closure sk;
                                    tm_delay := 3000; tm_armed := false |}
     ∧ ∃ st, sockets hn !! (closeAndRetry n h i).2
             = Some {| ws_closure := ws_closure sk; ws_readyState := st |}
             ∧ st ≠ CLOSED).
Proof.
  intros Hreach Hi Hst h1 h2 hn.
  assert (Hu : hasUser (ws_closure sk)).
  { destruct (haveUser_reachable h Hreach) as [Hs _].
    rewrite Forall_lookup in Hs. by apply (Hs i). }
  split; [|split].
  - unfold h1. by rewrite (step_WsClose h i sk Hi Hst).
  - destruct (close_then_fire h i sk Hu Hi Hst) as (_ & Hs & _ & Hw).
    fold h1 h2 in Hs, Hw. split; [|done].
    rewrite Hs. apply list_lookup_middle. by rewrite length_alter.
  - by apply closeAndRetry_spec.
Qed.

(** A connected hook whose socket closes three times in a row. *)
Lemma reconnect_after_every_close_witness :
  let h := run (initial "c1" None None)
             [Identify "user_1" (of_string "A"); Commit; WsOpen 0%nat] in
  let cl := {| cl_userId := Some "user_1"; cl_courseId := "c1";
               cl_username := of_string "A" |} in
  let hn := (closeAndRetry 3 h 0%nat).1 in
  length (sockets hn) = 4%nat
  ∧ timers hn = replicate 3 {| tm_closure := cl; tm_delay := 3000;
                               tm_armed := false |}.
Proof.
  intros h cl hn.
  assert (Hreach : reachable h) by (by eexists _, _, _, _).
  pose proof (reconnect_after_every_close h 0%nat
    {| ws_closure := cl; ws_readyState := OPEN |} 3 Hreach eq_refl
    ltac:(discriminate)) as (_ & _ & Hlen & Htm & _).
  split; [exact Hlen | exact Htm].
Defined.

End Retry.

(** ** Properties of the display sort *)

Section StableInsertionSort.

Import Leaderboard.

Context {A : Type}.
Variable cmp : A → A → Z.

(** [a] may stand before [b]. *)
Let before (a b : A) : Prop := cmp a b ≤ 0.

(** A consistent comparator. *)
Hypothesis cmp_flip : ∀ a b, 0 < cmp a b → cmp b a ≤ 0.
Hypothesis cmp_trans : ∀ a b c, cmp a b ≤ 0 → cmp b c ≤ 0 → cmp a c ≤ 0.

Lemma insertSorted_perm (x : A) (l : list A) : insertSorted cmp x l ≡ₚ x :: l.
Proof.
  induction l as [|y l IH]; simpl; [done|].
  destruct (0 <? cmp x y); [|done].
  rewrite IH. apply Permutation_swap.
Qed.

Lemma sort_perm (l : list A) : sort cmp l ≡ₚ l.
Proof.
  induction l as [|x l IH]; simpl; [done|].
  rewrite insertSorted_perm. by rewrite IH.
Qed.

Lemma insertSorted_sorted (x : A) (l : list A) :
  StronglySorted before l → StronglySorted before (insertSorted cmp x l).
Proof.
  induction l as [|y l IH]; intros Hl; simpl.
  - by repeat constructor.
  - apply StronglySorted_inv in Hl as [Hl Hy].
    destruct (0 <? cmp x y) eqn:E.
    + apply Z.ltb_lt in E. constructor; [by apply IH|].
      rewrite insertSorted_perm. constructor; [by apply cmp_flip | done].
    + apply Z.ltb_ge in E. constructor; [by constructor|].
      constructor; [done|].
      eapply Forall_impl; [exact Hy|]. intros z Hz. by apply (cmp_trans x y z).
Qed.

Lemma sort_sorted (l : list A) : StronglySorted before (sort cmp l).
Proof.
  induction l as [|x l IH]; simpl; [constructor|].
  by apply insertSorted_sorted.
Qed.

Lemma sorted_lookup (l : list A) (i j : nat) (a b : A) :
  StronglySorted before l → (i < j)%nat →
  l !! i = Some a → l !! j = Some b → cmp a b ≤ 0.
Proof.
  intros Hl. revert i j. induction Hl as [|x l Hl IH Hx]; intros i j Hij Hi Hj.
  - done.
  - destruct j as [|j]; [lia|]. simpl in Hj. destruct i as [|i]; simpl in Hi.
    + injection Hi as <-. rewrite Forall_lookup in Hx. by apply (Hx j).
    + apply (IH i j); [lia | done..].
Qed.

End StableInsertionSort.

Section Ranking.

Import Leaderboard.

Lemma compareEntries_le (a b : LeaderboardEntry) :
  compareEntries a b ≤ 0
  ↔ le_percentage b < le_percentage a
    ∨ (le_percentage b = le_percentage a ∧ le_completed b ≤ le_completed a).
Proof.
  unfold compareEntries.
  destruct (le_percentage b =? le_percentage a) eqn:E; simpl.
  - apply Z.eqb_eq in E. lia.
  - apply Z.eqb_neq in E. lia.
Qed.

Lemma compareEntries_gt (a b : LeaderboardEntry) :
  0 < compareEntries a b
  ↔ le_percentage a < le_percentage b
    ∨ (le_percentage b = le_percentage a ∧ le_completed a < le_completed b).
Proof.
  unfold compareEntries.
  destruct (le_percentage b =? le_percentage a) eqn:E; simpl.
  - apply Z.eqb_eq in E. lia.
  - apply Z.eqb_neq in E. lia.
Qed.

(** C2: the displayed ranking is a rearrangement of the entries in which
    an entry with a greater percentage, or with the same percentage and a
    greater completed count, stands before the other. *)
Theorem sortedEntries_ranks_by_percentage_then_completed
    (entries : list LeaderboardEntry) :
  sortedEntries entries ≡ₚ entries
  ∧ ∀ i j a b,
      sortedEntries entries !! i = Some a →
      sortedEntries entries !! j = Some b →
      le_percentage a > le_percentage b
      ∨ (le_percentage a = le_percentage b ∧ le_completed a > le_completed b) →
      (i < j)%nat.
Proof.
  assert (Hflip : ∀ a b, 0 < compareEntries a b → compareEntries b a ≤ 0).
  { intros a b. rewrite compareEntries_gt, compareEntries_le. lia. }
  assert (Htrans : ∀ a b c, compareEntries a b ≤ 0 → compareEntries b c ≤ 0 →
                            compareEntries a c ≤ 0).
  { intros a b c. rewrite !compareEntries_le. lia. }
  split; [apply sort_perm|].
  intros i j a b Hi Hj Hab.
  destruct (decide (i < j)%nat) as [|Hge]; [done|]. exfalso.
  destruct (decide (i = j)) as [->|Hne].
  - rewrite Hi in Hj. injection Hj as ->. lia.
  - pose proof (sorted_lookup compareEntries (sortedEntries entries) j i b a
                  (sort_sorted compareEntries Hflip Htrans entries)
                  ltac:(lia) Hj Hi) as Hba.
    apply compareEntries_le in Hba. lia.
Qed.

End Ranking.

(** ** Progress of a course and of a unit *)

Section ProgressPercentage.

Import Progress.

Lemma completedKeys_isFileComplete (progress : ProgressData) (courseId : string)
    (fileKeys : list string) :
  completedKeys (courseProgressOf progress courseId) fileKeys
  = List.filter (isFileComplete progress courseId) fileKeys.
Proof.
  unfold completedKeys. induction fileKeys as [|k l IH]; [done|].
  cbn [List.filter]. by rewrite IH, isFileComplete_truthyAt.
Qed.

Lemma length_filter_le {A} (p : A → bool) (l : list A) :
  (length (List.filter p l) ≤ length l)%nat.
Proof.
  induction l as [|x l IH]; simpl; [lia|]. destruct (p x); simpl; lia.
Qed.

(** C1 (amended): [getCourseProgress] and [getUnitProgress] count the
    supplied keys that are marked complete for the course, return
    [totalFiles] as the total, and as percentage [0] when [totalFiles] is
    not positive and otherwise [Math.round((completed / totalFiles) * 100)]
    in double arithmetic.  The percentage is an integer in [[0,100]]
    whenever the count is at most [totalFiles] (a safe integer), in
    particular when [totalFiles] is the number of supplied keys, and it is
    then an integer nearest to [100 * completed / totalFiles]; nothing
    bounds it by [100] otherwise. *)
Theorem progress_percentage (progress : ProgressData) (courseId : string)
    (unitNumber totalFiles : Z) (fileKeys : list string) :
  let course := getCourseProgress progress courseId totalFiles fileKeys in
  let unit := getUnitProgress progress courseId unitNumber totalFiles fileKeys in
  let marked := length (List.filter (isFileComplete progress courseId) fileKeys) in
  (completed course = marked ∧ total course = totalFiles ∧ unit = course)
  ∧ (totalFiles ≤ 0 → percentage course = Number.of_Z 0)
  ∧ (0 < totalFiles →
       percentage course
       = Number.round
           (Number.mul
              (Number.div (Number.of_Z (Z.of_nat marked)) (Number.of_Z totalFiles))
              (Number.of_Z 100)))
  ∧ (0 < totalFiles < 2 ^ 53 → Z.of_nat marked ≤ totalFiles →
       ∃ n, 0 ≤ n ≤ 100 ∧ percentage course = Number.of_Z n
          ∧ Number.in_percent_range (percentage course) = true)
  ∧ (totalFiles = Z.of_nat (length fileKeys) → totalFiles < 2 ^ 53 →
       ∃ n, 0 ≤ n ≤ 100 ∧ percentage course = Number.of_Z n
          ∧ Number.in_percent_range (percentage course) = true)
  ∧ (0 < totalFiles ≤ 2 ^ 42 → Z.of_nat marked ≤ totalFiles →
       ∃ n, percentage course = Number.of_Z n
          ∧ 2 * Z.abs (n * totalFiles - 100 * Z.of_nat marked) ≤ totalFiles).
Proof.
  intros course unit marked.
  assert (Hc : completed course = marked).
  { unfold course, marked, getCourseProgress. cbn [completed].
    by rewrite completedKeys_isFileComplete. }
  assert (Hp : percentage course = percentageOf marked totalFiles).
  { unfold course, getCourseProgress in *. cbn [completed percentage] in *.
    by rewrite Hc. }
  split; [done|]. rewrite Hp. split; [|split; [|split; [|split]]].
  - intros Ht. unfold percentageOf.
    by replace (0 <? totalFiles) with false by (symmetry; apply Z.ltb_ge; lia).
  - intros Ht. unfold percentageOf.
    by replace (0 <? totalFiles) with true by (symmetry; apply Z.ltb_lt; lia).
  - intros Ht Hm. by apply percentageOf_in_range.
  - intros Ht Hsafe.
    pose proof (length_filter_le (isFileComplete progress courseId) fileKeys) as Hle.
    fold marked in Hle.
    destruct (Z.eq_dec totalFiles 0) as [H0|Hne].
    + exists 0. unfold percentageOf. rewrite H0. done.
    + apply percentageOf_in_range; lia.
  - intros Ht Hm. by apply percentageOf_nearest.
Qed.

(** The arithmetic is that of doubles: [23 / 40 * 100] evaluates to
    [57.49999999999999], so 23 files of 40 show as 57, one of the two
    integers nearest to 57.5. *)
Example percentage_of_23_out_of_40 :
  percentageOf 23 40 = Number.of_Z 57.
Proof. reflexivity. Qed.

(** C1, as stated, fails: with [totalFiles = 1] and two supplied keys, both
    complete, the percentage is [200]. *)
Lemma percentage_above_100 :
  let progress : ProgressData :=
    {[ "c1" := <["1-a" := true]> {[ "1-b" := true ]} ]} in
  let result := getCourseProgress progress "c1" 1 ["1-a"; "1-b"] in
  completed result = 2%nat
  ∧ percentage result = Number.of_Z 200
  ∧ Number.in_percent_range (percentage result) = false
  ∧ percentage (getUnitProgress progress "c1" 1 1 ["1-a"; "1-b"])
    = Number.of_Z 200.
Proof. vm_compute. repeat split. Qed.

End ProgressPercentage.

(** ** Further properties of the progress store and of the course page *)

Section CourseProgress.

Import Progress App Course.

(** *** The two ends of the scale *)

Lemma percentageOf_zero (totalFiles : Z) :
  0 < totalFiles < 2 ^ 53 → percentageOf 0 totalFiles = Number.of_Z 0.
Proof.
  intros Ht. unfold percentageOf.
  replace (0 <? totalFiles) with true by (symmetry; apply Z.ltb_lt; lia).
  by destruct (of_Z_spec totalFiles Ht) as (my & ey & -> & _).
Qed.

Lemma nearest_in_range (c t r : Z) :
  0 ≤ c ≤ t → 0 < t → 2 * Z.abs (r * t - 100 * c) ≤ t → 0 ≤ r ≤ 100.
Proof. intros Hc Ht Hr. split; nia. Qed.

Lemma percentageOf_all (n : nat) :
  (0 < n)%nat → Z.of_nat n ≤ 2 ^ 42 →
  percentageOf n (Z.of_nat n) = Number.of_Z 100.
Proof.
  intros Hn Hle.
  destruct (percentageOf_nearest n (Z.of_nat n)) as (r & -> & Hr); [lia..|].
  f_equal. nia.
Qed.

Lemma compare_with_100 (r : Z) :
  0 ≤ r ≤ 100 →
  SFeqb (Number.of_Z r) (Number.of_Z 100) = bool_decide (r = 100)
  ∧ SFltb (Number.of_Z r) (Number.of_Z 100) = bool_decide (r < 100).
Proof.
  intros Hr.
  assert (Hall : forallb
            (fun n => Bool.eqb (SFeqb (Number.of_Z (Z.of_nat n)) (Number.of_Z 100))
                               (Z.of_nat n =? 100)
                      && Bool.eqb (SFltb (Number.of_Z (Z.of_nat n)) (Number.of_Z 100))
                                  (Z.of_nat n <? 100))
            (seq 0 101) = true) by (vm_compute; reflexivity).
  rewrite forallb_forall in Hall.
  specialize (Hall (Z.to_nat r)). rewrite Z2Nat.id in Hall by lia.
  destruct (andb_prop _ _ (Hall ltac:(apply in_seq; lia))) as [H1 H2].
  apply Bool.eqb_prop in H1, H2. rewrite H1, H2. split.
  - destruct (Z.eqb_spec r 100); [by rewrite bool_decide_true
                                 | by rewrite bool_decide_false].
  - destruct (Z.ltb_spec r 100); [by rewrite bool_decide_true
                                 | rewrite bool_decide_false; [done|lia]].
Qed.

(** *** Counting completed keys *)

Lemma completedKeys_insert_notin (cp : gmap string bool) (k : string) (b : bool)
    (l : list string) :
  k ∉ l → completedKeys (<[k := b]> cp) l = completedKeys cp l.
Proof.
  unfold completedKeys. induction l as [|x l IH]; intros Hk; [done|].
  apply not_elem_of_cons in Hk as [Hne Hk]. cbn [List.filter].
  rewrite (IH Hk). unfold truthyAt at 1 3.
  by rewrite lookup_insert_ne.
Qed.

Lemma completedKeys_insert_in (cp : gmap string bool) (k : string) (l : list string) :
  NoDup l → k ∈ l →
  length (completedKeys (<[k := negb (truthyAt cp k)]> cp) l)
  = if truthyAt cp k then Nat.pred (length (completedKeys cp l))
    else S (length (completedKeys cp l)).
Proof.
  induction l as [|x l IH]; intros Hnd Hk; [by apply elem_of_nil in Hk|].
  apply NoDup_cons in Hnd as [Hx Hnd].
  unfold completedKeys in *. cbn [List.filter].
  destruct (decide (k = x)) as [->|Hne].
  - fold (completedKeys (<[x:=negb (truthyAt cp x)]> cp) l).
    rewrite (completedKeys_insert_notin cp x _ l Hx).
    unfold truthyAt at 1. rewrite lookup_insert_eq. simpl.
    by destruct (truthyAt cp x).
  - apply elem_of_cons in Hk as [?|Hk]; [done|].
    specialize (IH Hnd Hk).
    unfold truthyAt at 1. rewrite lookup_insert_ne by done.
    fold (truthyAt cp x). destruct (truthyAt cp x) eqn:Ex; simpl; [|done].
    rewrite IH. destruct (truthyAt cp k) eqn:Ek; [|done].
    (* [k] is complete and listed in [l]: the count there is positive *)
    assert (Hpos : (0 < length (List.filter (truthyAt cp) l))%nat).
    { clear -Hk Ek. induction l as [|y l IH]; [by apply elem_of_nil in Hk|].
      cbn [List.filter]. apply elem_of_cons in Hk as [->|Hk].
      - rewrite Ek. simpl. lia.
      - destruct (truthyAt cp y); simpl; [lia | by apply IH]. }
    lia.
Qed.

(** X1: toggling a file that is listed once among the keys moves the
    completed count of the course by exactly one, up when the file was
    incomplete and down when it was complete; toggling a file that is not
    listed leaves the count as it is. *)
Theorem toggle_moves_count_by_one (a : App) (courseId fileKey : string)
    (totalFiles : Z) (fileKeys : list string) :
  NoDup fileKeys →
  let before := completed (getCourseProgress (progress a) courseId totalFiles fileKeys) in
  let after :=
    completed (getCourseProgress
                 (progress (toggleFileComplete courseId fileKey a))
                 courseId totalFiles fileKeys) in
  (fileKey ∈ fileKeys →
     if isFileComplete (progress a) courseId fileKey
     then S after = before else after = S before)
  ∧ (fileKey ∉ fileKeys → after = before).
Proof.
  intros Hnd before after. unfold before, after, getCourseProgress.
  cbn [completed toggleFileComplete progress].
  rewrite courseProgressOf_insert_eq, isFileComplete_truthyAt. split.
  - intros Hin. rewrite (completedKeys_insert_in _ _ _ Hnd Hin).
    destruct (truthyAt (courseProgressOf (progress a) courseId) fileKey) eqn:E;
      [|done].
    assert (Hpos : (0 < length (completedKeys
                                  (courseProgressOf (progress a) courseId)
                                  fileKeys))%nat); [|lia].
    unfold completedKeys. clear -Hin E.
    induction fileKeys as [|y l IH]; [by apply elem_of_nil in Hin|].
    cbn [List.filter]. apply elem_of_cons in Hin as [->|Hin].
    + rewrite E. simpl. lia.
    + destruct (truthyAt _ y); simpl; [lia | by apply IH].
  - intros Hnin. by rewrite completedKeys_insert_notin.
Qed.

Lemma toggle_moves_count_by_one_witness :
  let a := {| progress := ∅; hook := None |} in
  completed (getCourseProgress (progress (toggleFileComplete "c1" "1-a" a))
               "c1" 2 ["1-a"; "1-b"])
  = 1%nat.
Proof.
  intros a.
  assert (Hnd : NoDup ["1-a"; "1-b"]).
  { apply NoDup_cons. split; [|apply NoDup_singleton].
    intros H%list_elem_of_singleton. discriminate H. }
  destruct (toggle_moves_count_by_one a "c1" "1-a" 2 ["1-a"; "1-b"] Hnd)
    as [Hin _].
  specialize (Hin ltac:(by left)). exact Hin.
Defined.

End CourseProgress.

Section UnitToggle.

Import Progress App Course.

Lemma filter_all {A} (p : A → bool) (l : list A) :
  (∀ x, x ∈ l → p x = true) → List.filter p l = l.
Proof.
  induction l as [|x l IH]; intros H; [done|]. cbn [List.filter].
  rewrite (H x) by (by left). f_equal. apply IH. intros y Hy. apply H. by right.
Qed.

Lemma filter_none {A} (p : A → bool) (l : list A) :
  (∀ x, x ∈ l → p x = false) → List.filter p l = [].
Proof.
  induction l as [|x l IH]; intros H; [done|]. cbn [List.filter].
  rewrite (H x) by (by left). apply IH. intros y Hy. apply H. by right.
Qed.

Lemma length_filter_all {A} (p : A → bool) (l : list A) :
  length (List.filter p l) = length l → ∀ x, x ∈ l → p x = true.
Proof.
  induction l as [|x l IH]; intros Hlen y Hy; [by apply elem_of_nil in Hy|].
  cbn [List.filter] in Hlen.
  pose proof (length_filter_le p l) as Hle.
  destruct (p x) eqn:Ex; simpl in Hlen; [|lia].
  apply elem_of_cons in Hy as [->|Hy]; [done|]. apply IH; [lia|done].
Qed.

Lemma completedKeys_toggleUnit (a : App) (c : string) (keys : list string)
    (b : bool) :
  completedKeys
    (courseProgressOf (progress (toggleUnitComplete c keys b a)) c) keys
  = if b then keys else [].
Proof.
  rewrite progress_toggleUnit, courseProgressOf_insert_eq. unfold completedKeys.
  destruct b; [apply filter_all | apply filter_none]; intros k Hk;
    unfold truthyAt; rewrite lookup_fold_insert; by rewrite decide_True.
Qed.

(** X2: once a unit is marked complete, its progress over the same keys
    counts all of them and shows 100 percent; once it is marked incomplete
    it counts none and shows 0 percent. *)
Theorem unit_toggle_sets_progress (a : App) (courseId : string) (unitNumber : Z)
    (fileKeys : list string) :
  fileKeys ≠ [] → Z.of_nat (length fileKeys) ≤ 2 ^ 42 →
  let total := Z.of_nat (length fileKeys) in
  let marked :=
    getUnitProgress (progress (toggleUnitComplete courseId fileKeys true a))
      courseId unitNumber total fileKeys in
  let cleared :=
    getUnitProgress (progress (toggleUnitComplete courseId fileKeys false a))
      courseId unitNumber total fileKeys in
  completed marked = length fileKeys ∧ percentage marked = Number.of_Z 100
  ∧ completed cleared = 0%nat ∧ percentage cleared = Number.of_Z 0.
Proof.
  intros Hne Hlen total marked cleared.
  assert (Hpos : (0 < length fileKeys)%nat) by (destruct fileKeys; [done|simpl; lia]).
  unfold marked, cleared, getUnitProgress. cbn [completed percentage].
  rewrite !completedKeys_toggleUnit. cbn [length].
  split; [done|]. split; [by apply percentageOf_all|]. split; [done|].
  apply percentageOf_zero. unfold total. lia.
Qed.

Lemma unit_toggle_sets_progress_witness :
  let a := {| progress := ∅; hook := None |} in
  percentage
    (getUnitProgress (progress (toggleUnitComplete "c1" ["1-a"; "1-b"] true a))
       "c1" 1 2 ["1-a"; "1-b"])
  = Number.of_Z 100.
Proof.
  intros a.
  destruct (unit_toggle_sets_progress a "c1" 1 ["1-a"; "1-b"]
              ltac:(discriminate) ltac:(vm_compute; discriminate))
    as (_ & H & _).
  exact H.
Defined.

(** X3: of two unit toggles over the same keys the last one decides: the
    stored progress is the one the second toggle alone would give; in
    particular repeating a unit toggle changes nothing more. *)
Theorem last_unit_toggle_wins (a : App) (courseId : string)
    (fileKeys : list string) (first second : bool) :
  progress (toggleUnitComplete courseId fileKeys second
              (toggleUnitComplete courseId fileKeys first a))
  = progress (toggleUnitComplete courseId fileKeys second a).
Proof.
  rewrite !progress_toggleUnit, courseProgressOf_insert_eq, insert_insert_eq.
  f_equal. apply map_eq. intros k. rewrite !lookup_fold_insert.
  by destruct (decide (k ∈ fileKeys)).
Qed.

(** X4: over the keys of a page, with their number as total, the display
    reads 100 percent whenever every key is complete; with fewer than 200
    keys it reads 100 percent only then. *)
Theorem full_percentage_means_all_complete (progress : ProgressData)
    (courseId : string) (fileKeys : list string) :
  let result :=
    getCourseProgress progress courseId (Z.of_nat (length fileKeys)) fileKeys in
  (fileKeys ≠ [] → Z.of_nat (length fileKeys) ≤ 2 ^ 42 →
     (∀ k, k ∈ fileKeys → isFileComplete progress courseId k = true) →
     showsComplete result = true)
  ∧ ((length fileKeys < 200)%nat → showsComplete result = true →
       fileKeys ≠ []
       ∧ ∀ k, k ∈ fileKeys → isFileComplete progress courseId k = true).
Proof.
  intros result. unfold result, showsComplete, getCourseProgress.
  cbn [percentage]. rewrite completedKeys_isFileComplete.
  set (done := List.filter (isFileComplete progress courseId) fileKeys).
  pose proof (length_filter_le (isFileComplete progress courseId) fileKeys) as Hle.
  fold done in Hle. split.
  - intros Hne Hlen Hall.
    assert (Hpos : (0 < length fileKeys)%nat)
      by (destruct fileKeys; [done|simpl; lia]).
    unfold done. rewrite (filter_all _ _ Hall), percentageOf_all by done.
    reflexivity.
  - intros Hlen Hshow.
    assert (Hne : fileKeys ≠ []) by (intros ->; discriminate Hshow).
    assert (Hpos : (0 < length fileKeys)%nat)
      by (destruct fileKeys; [done|simpl; lia]).
    split; [done|].
    destruct (percentageOf_nearest (length done) (Z.of_nat (length fileKeys)))
      as (r & Hr & Hnear); [lia..|].
    rewrite Hr in Hshow.
    assert (Hr100 : 0 ≤ r ≤ 100)
      by (apply (nearest_in_range (Z.of_nat (length done))
                   (Z.of_nat (length fileKeys))); [lia | lia | done]).
    rewrite (proj1 (compare_with_100 r Hr100)) in Hshow.
    apply bool_decide_eq_true in Hshow. subst r.
    apply length_filter_all. fold done. lia.
Qed.

(** With 200 keys the display already reads 100 percent while one file is
    still open. *)
Example percentage_of_199_out_of_200 :
  percentageOf 199 200 = Number.of_Z 100.
Proof. reflexivity. Qed.

(** X5: a click on the unit button of a unit with tracked files marks all
    its files complete when the unit shows less than 100 percent, and
    marks all of them incomplete when it shows 100 percent: after the
    click the unit shows 100 or 0 percent accordingly. *)
Theorem unit_button_flips (a : App) (courseId : string) (unit : UnitInfo) :
  unitFileKeys unit ≠ [] → Z.of_nat (length (unitFileKeys unit)) ≤ 2 ^ 42 →
  percentage (unitProgress (progress (onUnitButton courseId unit a)) courseId unit)
  = if showsComplete (unitProgress (progress a) courseId unit)
    then Number.of_Z 0 else Number.of_Z 100.
Proof.
  intros Hne Hlen.
  set (keys := unitFileKeys unit) in *.
  assert (Hpos : (0 < length keys)%nat) by (destruct keys; [done|simpl; lia]).
  unfold onUnitButton, showsComplete. fold keys.
  set (before := percentage (unitProgress (progress a) courseId unit)).
  assert (Hb : ∃ r, 0 ≤ r ≤ 100 ∧ before = Number.of_Z r).
  { unfold before, unitProgress, getUnitProgress. cbn [percentage]. fold keys.
    pose proof (length_filter_le
                  (truthyAt (courseProgressOf (progress a) courseId)) keys).
    destruct (percentageOf_in_range
                (length (completedKeys (courseProgressOf (progress a) courseId) keys))
                (Z.of_nat (length keys))) as (r & Hr & -> & _);
      [unfold completedKeys; lia | lia | by exists r]. }
  destruct Hb as (r & Hr & ->).
  destruct (compare_with_100 r Hr) as [-> ->].
  unfold unitProgress, getUnitProgress. cbn [percentage]. fold keys.
  rewrite completedKeys_toggleUnit.
  destruct (decide (r = 100)) as [->|Hne100].
  - rewrite bool_decide_false by lia. rewrite bool_decide_true by done.
    apply percentageOf_zero. lia.
  - rewrite bool_decide_true by lia. rewrite bool_decide_false by done.
    by apply percentageOf_all.
Qed.

Lemma unit_button_flips_witness :
  let unit := {| unit_number := 1; unit_name := "Intro"; unit_directory := "u1";
                 classes := [{| class_id := "7"; class_name := "Slides";
                                filename := Some "a.pdf"; files := [];
                                status := "success" |}] |} in
  let a := {| progress := ∅; hook := None |} in
  percentage (unitProgress (progress (onUnitButton "c1" unit a)) "c1" unit)
  = Number.of_Z 100.
Proof.
  intros unit a.
  exact (unit_button_flips a "c1" unit ltac:(discriminate)
           ltac:(vm_compute; discriminate)).
Defined.

End UnitToggle.

Section CoursePage.

Import Progress App Keys Course.

Lemma fold_push_tracked (n : Z) (cs : list ClassInfo) (acc : list string) :
  fold_left
    (fun acc cls => if tracked cls then acc ++ [fileKey n (class_id cls)] else acc)
    cs acc
  = acc ++ List.map (fun cls => fileKey n (class_id cls)) (List.filter tracked cs).
Proof.
  revert acc. induction cs as [|cls cs IH]; intros acc; cbn [fold_left List.filter].
  - by rewrite app_nil_r.
  - rewrite IH. destruct (tracked cls); [|done].
    cbn [List.map]. by rewrite <- app_assoc.
Qed.

Lemma fold_push_units (units : list UnitInfo) (acc : list string) :
  fold_left
    (fun acc unit =>
       fold_left
         (fun acc cls =>
            if tracked cls
            then acc ++ [fileKey (unit_number unit) (class_id cls)]
            else acc)
         (classes unit) acc)
    units acc
  = acc ++ concat (List.map unitFileKeys units).
Proof.
  revert acc.
  induction units as [|u units IH]; intros acc; cbn [fold_left List.map concat].
  - by rewrite app_nil_r.
  - rewrite IH, fold_push_tracked. by rewrite <- app_assoc.
Qed.

Lemma allFileKeys_concat (units : list UnitInfo) :
  allFileKeys units = concat (List.map unitFileKeys units).
Proof. unfold allFileKeys. by rewrite fold_push_units. Qed.

(** X6: the keys of the course page are the keys of its units, unit after
    unit; so the completed count and the total of the course are the sums
    of those of its units. *)
Theorem course_progress_sums_units (progress : ProgressData) (courseId : string)
    (units : list UnitInfo) :
  allFileKeys units = concat (List.map unitFileKeys units)
  ∧ completed (courseProgress progress courseId units)
    = sum_list (List.map (fun u => completed (unitProgress progress courseId u)) units)
  ∧ total (courseProgress progress courseId units)
    = foldr Z.add 0
        (List.map (fun u => total (unitProgress progress courseId u)) units).
Proof.
  split; [apply allFileKeys_concat|].
  unfold courseProgress, unitProgress, getCourseProgress, getUnitProgress.
  cbn [completed total]. rewrite allFileKeys_concat. unfold completedKeys.
  generalize (truthyAt (courseProgressOf progress courseId)) as p. intros p.
  induction units as [|u units [IHc IHt]]; [done|].
  cbn [List.map concat sum_list sum_list_with foldr].
  rewrite List.filter_app, !length_app, Nat2Z.inj_add.
  split; [by rewrite IHc | by rewrite IHt].
Qed.

Lemma firstSegment_uint (d : Decimal.uint) :
  firstSegment (NilEmpty.string_of_uint d) = NilEmpty.string_of_uint d.
Proof. induction d; simpl; by rewrite ?IHd. Qed.

Lemma firstSegment_toString (n : Z) :
  0 ≤ n → firstSegment (toString n) = toString n.
Proof.
  intros Hn. unfold toString. destruct n as [|p|p]; [done| |lia].
  cbn [Z.to_int NilZero.string_of_int]. unfold NilZero.string_of_uint.
  destruct (Pos.to_uint p) eqn:E; try (rewrite <- E; apply firstSegment_uint).
  done.
Qed.

Lemma toString_inj (n m : Z) : toString n = toString m → n = m.
Proof.
  intros H. apply to_int_inj. unfold toString in H.
  assert (Hnn : ∀ z, Z.to_int z ≠ Decimal.Pos Decimal.Nil
                     ∧ Z.to_int z ≠ Decimal.Neg Decimal.Nil).
  { intros [|p|p]; split; try discriminate; simpl;
      intros [= E]; by apply DecimalPos.Unsigned.to_uint_nonnil in E. }
  destruct (Hnn n) as [Hn1 Hn2]. destruct (Hnn m) as [Hm1 Hm2].
  pose proof (NilZero.isi _ Hn1 Hn2) as En.
  pose proof (NilZero.isi _ Hm1 Hm2) as Em.
  rewrite H in En. congruence.
Qed.

Lemma prefix_cons (c b : Ascii.ascii) (s k : string) :
  String.prefix (String c s) (String b k)
  = if Ascii.ascii_dec c b then String.prefix s k else false.
Proof. reflexivity. Qed.

Lemma firstSegment_prefix (s k : string) :
  firstSegment s = s → String.prefix (s +:+ "-") k = true → firstSegment k = s.
Proof.
  revert k. induction s as [|c s IH]; intros k Hs Hp.
  - destruct k as [|b k]; [discriminate Hp|].
    change ("" +:+ "-") with (String (Ascii.ascii_of_nat 45) "") in Hp.
    rewrite prefix_cons in Hp.
    destruct (Ascii.ascii_dec _ b) as [<-|]; [done | discriminate Hp].
  - destruct k as [|b k]; [discriminate Hp|].
    change (String c s +:+ "-") with (String c (s +:+ "-")) in Hp.
    rewrite prefix_cons in Hp. cbn [firstSegment] in Hs |- *.
    destruct (Ascii.ascii_dec c b) as [<-|]; [|discriminate Hp].
    destruct (Ascii.eqb c _); [discriminate Hs|].
    injection Hs as Hs. by rewrite (IH k Hs Hp).
Qed.

Lemma prefix_append (s rest : string) : String.prefix s (s +:+ rest) = true.
Proof.
  induction s as [|c s IH]; [by destruct rest|].
  change (String c s +:+ rest) with (String c (s +:+ rest)).
  rewrite prefix_cons. by destruct (Ascii.ascii_dec c c).
Qed.

Lemma append_assoc (a b c : string) : (a +:+ b) +:+ c = a +:+ (b +:+ c).
Proof.
  induction a as [|x a IH]; [done|].
  change (String x ((a +:+ b) +:+ c) = String x (a +:+ (b +:+ c))).
  by f_equal.
Qed.

Lemma firstSegment_fileKey (n : Z) (id : string) :
  0 ≤ n → firstSegment (fileKey n id) = toString n.
Proof.
  intros Hn. apply firstSegment_prefix; [by apply firstSegment_toString|].
  unfold fileKey. rewrite <- append_assoc. apply prefix_append.
Qed.

(** X7: for unit numbers that are not negative, a key starts with the
    prefix of a unit exactly when it was built for that unit, and the text
    before its first dash is the number of its unit. *)
Theorem key_belongs_to_its_unit (n m : Z) (class_id : string) :
  0 ≤ n → 0 ≤ m →
  startsWith (unitPrefix n) (fileKey m class_id) = bool_decide (n = m)
  ∧ firstSegment (fileKey m class_id) = toString m.
Proof.
  intros Hn Hm. split; [|by apply firstSegment_fileKey].
  unfold startsWith, unitPrefix. case_bool_decide as E.
  - subst m. unfold fileKey. rewrite <- append_assoc. apply prefix_append.
  - apply not_true_is_false. intros Hp. apply E, toString_inj.
    rewrite <- (firstSegment_fileKey m class_id Hm). symmetry.
    apply firstSegment_prefix; [by apply firstSegment_toString | done].
Qed.

Lemma key_belongs_to_its_unit_witness :
  startsWith (unitPrefix 1) (fileKey 11 "3") = false
  ∧ firstSegment (fileKey 11 "3") = "11".
Proof.
  exact (key_belongs_to_its_unit 1 11 "3" ltac:(lia) ltac:(lia)).
Defined.

(** With a negative unit number the key begins with the sign, and the text
    before the first dash is empty. *)
Example firstSegment_negative_unit : firstSegment (fileKey (-1) "3") = "".
Proof. reflexivity. Qed.

End CoursePage.

Section LastCompleted.

Import Progress App Keys Course.

Variables (progress : ProgressData) (courseId : string).

Lemma inner_last (u : UnitInfo) (cs : list ClassInfo) (last : option string) :
  let r :=
    fold_left
      (fun last cls =>
         let key := fileKey (unit_number u) (class_id cls) in
         if completedWithFile progress courseId u cls then Some key else last)
      cs last in
  (r = last ∧ ∀ cls, cls ∈ cs → completedWithFile progress courseId u cls = false)
  ∨ (∃ cs1 cls cs2,
       cs = cs1 ++ cls :: cs2
       ∧ completedWithFile progress courseId u cls = true
       ∧ (∀ cls', cls' ∈ cs2 → completedWithFile progress courseId u cls' = false)
       ∧ r = Some (fileKey (unit_number u) (class_id cls))).
Proof.
  induction cs as [|cls cs IH] using rev_ind; intros r.
  - left. split; [done|]. by intros ? ?%elem_of_nil.
  - unfold r. rewrite fold_left_app. cbn [fold_left].
    destruct (completedWithFile progress courseId u cls) eqn:E.
    + right. exists cs, cls, []. repeat split; [done|].
      by intros ? ?%elem_of_nil.
    + destruct IH as [[Hr Hno]|(cs1 & c0 & cs2 & -> & Hc & Hno & Hr)].
      * left. split; [done|]. intros c' [H| ->%list_elem_of_singleton]%elem_of_app;
          [by apply Hno | done].
      * right. exists cs1, c0, (cs2 ++ [cls]). rewrite <- app_assoc.
        repeat split; [done| |done].
        intros c' [H| ->%list_elem_of_singleton]%elem_of_app; [by apply Hno | done].
Qed.

Lemma lastCompletedKey_snoc (units : list UnitInfo) (u : UnitInfo) :
  lastCompletedKey progress courseId (units ++ [u])
  = fold_left
      (fun last cls =>
         let key := fileKey (unit_number u) (class_id cls) in
         if completedWithFile progress courseId u cls then Some key else last)
      (classes u) (lastCompletedKey progress courseId units).
Proof. unfold lastCompletedKey. by rewrite fold_left_app. Qed.

Lemma outer_last (units : list UnitInfo) :
  let r := lastCompletedKey progress courseId units in
  (r = None
   ∧ ∀ u cls, u ∈ units → cls ∈ classes u →
       completedWithFile progress courseId u cls = false)
  ∨ (∃ us1 u us2 cs1 cls cs2,
       units = us1 ++ u :: us2 ∧ classes u = cs1 ++ cls :: cs2
       ∧ completedWithFile progress courseId u cls = true
       ∧ (∀ cls', cls' ∈ cs2 → completedWithFile progress courseId u cls' = false)
       ∧ (∀ u' cls', u' ∈ us2 → cls' ∈ classes u' →
            completedWithFile progress courseId u' cls' = false)
       ∧ r = Some (fileKey (unit_number u) (class_id cls))).
Proof.
  induction units as [|u units IH] using rev_ind; intros r.
  - left. split; [done|]. by intros ? ? ?%elem_of_nil.
  - unfold r. rewrite lastCompletedKey_snoc.
    destruct (inner_last u (classes u) (lastCompletedKey progress courseId units))
      as [[Hr Hno]|(cs1 & cls & cs2 & Hcs & Hc & Hno & Hr)].
    + rewrite Hr.
      destruct IH as [[Hr' Hno']|(us1 & u0 & us2 & cs1 & cls & cs2 & -> & Hcs & Hc
                                   & Hno1 & Hno2 & Hr')].
      * left. split; [done|].
        intros u' c' [H| ->%list_elem_of_singleton]%elem_of_app Hc';
          [by apply Hno' | by apply Hno].
      * right. exists us1, u0, (us2 ++ [u]), cs1, cls, cs2. rewrite <- app_assoc.
        repeat split; [done..| |done].
        intros u' c' [H| ->%list_elem_of_singleton]%elem_of_app Hc';
          [by apply Hno2 | by apply Hno].
    + right. exists units, u, [], cs1, cls, cs2. repeat split; [done..| |done].
      by intros ? ? ?%elem_of_nil.
Qed.

Lemma truthyId_fileKey (n : Z) (id : string) : Sync.truthyId (fileKey n id) = true.
Proof.
  unfold fileKey. by destruct (toString n).
Qed.

Lemma openUnit_spec (unitVal : string) (prev : list string) :
  unitVal ∈ openUnit unitVal prev ∧ ∀ v, v ∈ prev → v ∈ openUnit unitVal prev.
Proof.
  unfold openUnit. case_bool_decide as E; [done|]. split.
  - apply elem_of_app. right. by left.
  - intros v Hv. apply elem_of_app. by left.
Qed.

(** X8: the key the course page looks for is that of the last class, in
    the order of the page, that has a file name and whose key is marked
    complete; when there is one and its unit number is not negative, the
    accordion item of that unit is open afterwards and the items open
    before stay open.  When there is none the open items are unchanged. *)
Theorem last_completed_opens_its_unit (units : list UnitInfo)
    (openUnits : list string) :
  let opened := openLastCompleted progress courseId units openUnits in
  match lastCompletedKey progress courseId units with
  | Some key =>
      ∃ us1 u us2 cs1 cls cs2,
        units = us1 ++ u :: us2 ∧ classes u = cs1 ++ cls :: cs2
        ∧ key = fileKey (unit_number u) (class_id cls)
        ∧ completedWithFile progress courseId u cls = true
        ∧ (∀ cls', cls' ∈ cs2 → completedWithFile progress courseId u cls' = false)
        ∧ (∀ u' cls', u' ∈ us2 → cls' ∈ classes u' →
             completedWithFile progress courseId u' cls' = false)
        ∧ (0 ≤ unit_number u →
             "unit-" +:+ toString (unit_number u) ∈ opened
             ∧ ∀ v, v ∈ openUnits → v ∈ opened)
  | None =>
      (∀ u cls, u ∈ units → cls ∈ classes u →
         completedWithFile progress courseId u cls = false)
      ∧ opened = openUnits
  end.
Proof.
  intros opened. unfold opened, openLastCompleted.
  destruct (outer_last units)
    as [[Hr Hno]|(us1 & u & us2 & cs1 & cls & cs2 & Hus & Hcs & Hc & Hno1 & Hno2 & Hr)];
    rewrite Hr; [done|].
  exists us1, u, us2, cs1, cls, cs2.
  split; [done|]. split; [done|]. split; [done|]. split; [done|].
  split; [done|]. split; [done|].
  intros Hn. rewrite truthyId_fileKey, firstSegment_fileKey by done.
  apply openUnit_spec.
Qed.

End LastCompleted.

Section UnitComplete.

Import Progress App Keys Course.

Lemma unit_keys_spec (cp : gmap string bool) (pre k : string) :
  In k (List.filter (startsWith pre) (List.map fst (map_to_list cp)))
  ↔ startsWith pre k = true ∧ is_Some (cp !! k).
Proof.
  rewrite filter_In, in_map_iff. split.
  - intros [([k' v] & <- & Hin) Hp]. split; [done|]. exists v.
    by apply elem_of_map_to_list, list_elem_of_In.
  - intros [Hp [v Hv]]. split; [|done]. exists (k, v). split; [done|].
    by apply list_elem_of_In, elem_of_map_to_list.
Qed.

Lemma isUnitComplete_true (progress : ProgressData) (courseId : string) (n : Z) :
  isUnitComplete progress courseId n = true
  ↔ (∃ k, startsWith (unitPrefix n) k = true
          ∧ is_Some (courseProgressOf progress courseId !! k))
    ∧ (∀ k, startsWith (unitPrefix n) k = true →
            courseProgressOf progress courseId !! k ≠ Some false).
Proof.
  unfold isUnitComplete.
  set (cp := courseProgressOf progress courseId).
  set (keys := List.filter _ _).
  assert (Hk : ∀ k, In k keys ↔ startsWith (unitPrefix n) k = true ∧ is_Some (cp !! k))
    by apply unit_keys_spec.
  assert (Hall : forallb (truthyAt cp) keys = true
                 ↔ ∀ k, startsWith (unitPrefix n) k = true → cp !! k ≠ Some false).
  { rewrite forallb_forall. split.
    - intros H k Hp Hf. specialize (H k (proj2 (Hk k) (conj Hp (ex_intro _ _ Hf)))).
      unfold truthyAt in H. by rewrite Hf in H.
    - intros H k [Hp [v Hv]]%Hk. unfold truthyAt. rewrite Hv.
      destruct v; [done|]. by destruct (H k Hp). }
  destruct keys as [|k0 keys'] eqn:E.
  - cbn. split; [done|]. intros [(k & Hp & Hs) _].
    by destruct (proj2 (Hk k) (conj Hp Hs)).
  - cbn [length Nat.eqb]. rewrite Hall. split; [|by intros [_ ?]].
    intros H. split; [|done]. exists k0. apply Hk. by left.
Qed.

Lemma isUnitComplete_ext (p p' : ProgressData) (courseId : string) (n : Z) :
  (∀ k, startsWith (unitPrefix n) k = true →
        courseProgressOf p courseId !! k = courseProgressOf p' courseId !! k) →
  isUnitComplete p courseId n = isUnitComplete p' courseId n.
Proof.
  intros H. apply eq_true_iff_eq. rewrite !isUnitComplete_true.
  split; intros [(k & Hp & Hs) Hall]; (split; [exists k; split; [done|]|]).
  - by rewrite <- H.
  - intros k' Hp'. rewrite <- H by done. by apply Hall.
  - by rewrite H.
  - intros k' Hp'. rewrite H by done. by apply Hall.
Qed.

(** X9: [isUnitComplete] looks only at the keys that have been recorded.
    In a course where no key of the unit has been recorded yet the unit is
    not complete; it is complete as soon as one of its files has been
    marked, whatever the number of files of the unit, and it is not
    complete any more when that file is unmarked. *)
Theorem first_marked_file_completes_unit (a : App) (courseId : string)
    (n : Z) (class_id : string) :
  (∀ k, startsWith (unitPrefix n) k = true →
        courseProgressOf (progress a) courseId !! k = None) →
  let key := fileKey n class_id in
  let marked := toggleFileComplete courseId key a in
  let unmarked := toggleFileComplete courseId key marked in
  isUnitComplete (progress a) courseId n = false
  ∧ isUnitComplete (progress marked) courseId n = true
  ∧ isUnitComplete (progress unmarked) courseId n = false.
Proof.
  intros Hfresh key marked unmarked.
  assert (Hp : startsWith (unitPrefix n) key = true).
  { unfold startsWith, unitPrefix, key, fileKey. rewrite <- append_assoc.
    apply prefix_append. }
  assert (Hm : courseProgressOf (progress marked) courseId
               = <[key := true]> (courseProgressOf (progress a) courseId)).
  { unfold marked, toggleFileComplete. cbn [progress].
    rewrite courseProgressOf_insert_eq. unfold truthyAt.
    by rewrite (Hfresh key Hp). }
  assert (Hu : courseProgressOf (progress unmarked) courseId
               = <[key := false]> (courseProgressOf (progress a) courseId)).
  { unfold unmarked, toggleFileComplete at 1. cbn [progress].
    rewrite courseProgressOf_insert_eq, Hm. unfold truthyAt.
    rewrite lookup_insert_eq. cbn. by rewrite insert_insert_eq. }
  split; [|split].
  - apply not_true_is_false. intros [(k & Hk & Hs) _]%isUnitComplete_true.
    rewrite (Hfresh k Hk) in Hs. by destruct Hs.
  - apply isUnitComplete_true. rewrite Hm. split.
    + exists key. split; [done|]. by rewrite lookup_insert_eq.
    + intros k Hk. destruct (decide (k = key)) as [->|Hne].
      * by rewrite lookup_insert_eq.
      * rewrite lookup_insert_ne by done. by rewrite (Hfresh k Hk).
  - apply not_true_is_false. intros [_ Hall]%isUnitComplete_true.
    apply (Hall key Hp). rewrite Hu. by rewrite lookup_insert_eq.
Qed.

Lemma first_marked_file_completes_unit_witness :
  let a := {| progress := ∅; hook := None |} in
  isUnitComplete (progress (toggleFileComplete "c1" (fileKey 1 "a") a)) "c1" 1
  = true.
Proof.
  intros a.
  assert (Hfresh : ∀ k, startsWith (unitPrefix 1) k = true →
                        courseProgressOf (progress a) "c1" !! k = None)
    by (intros k _; reflexivity).
  destruct (first_marked_file_completes_unit a "c1" 1 "a" Hfresh) as (_ & H & _).
  exact H.
Defined.

Lemma lookup_toggleFile_ne (a : App) (c key k : string) :
  k ≠ key →
  courseProgressOf (progress (toggleFileComplete c key a)) c !! k
  = courseProgressOf (progress a) c !! k.
Proof.
  intros Hne. unfold toggleFileComplete. cbn [progress].
  rewrite courseProgressOf_insert_eq. by rewrite lookup_insert_ne.
Qed.

(** X10: whether a unit is complete does not change when a file of
    another unit is toggled or the button of another unit is clicked (unit
    numbers not negative): the unit with number 1 is not affected by the
    keys of the unit with number 11. *)
Theorem other_units_do_not_affect_unit (a : App) (courseId : string) (n : Z)
    (other : UnitInfo) (class_id : string) :
  0 ≤ n → 0 ≤ unit_number other → n ≠ unit_number other →
  isUnitComplete
    (progress (toggleFileComplete courseId (fileKey (unit_number other) class_id) a))
    courseId n
  = isUnitComplete (progress a) courseId n
  ∧ isUnitComplete (progress (onUnitButton courseId other a)) courseId n
    = isUnitComplete (progress a) courseId n.
Proof.
  intros Hn Hm Hne.
  assert (Hkey : ∀ id k, startsWith (unitPrefix n) k = true →
                         k ≠ fileKey (unit_number other) id).
  { intros id k Hp ->.
    assert (Hs : String.prefix (unitPrefix n) (fileKey (unit_number other) id) = true)
      by exact Hp.
    apply firstSegment_prefix in Hs; [|by apply firstSegment_toString].
    rewrite firstSegment_fileKey in Hs by done. by apply toString_inj in Hs. }
  split; apply isUnitComplete_ext; intros k Hp.
  - apply lookup_toggleFile_ne. by apply Hkey.
  - unfold onUnitButton. rewrite progress_toggleUnit, courseProgressOf_insert_eq.
    rewrite lookup_fold_insert. rewrite decide_False; [done|].
    unfold unitFileKeys. intros (cls & <- & _)%list_elem_of_In%in_map_iff.
    by apply (Hkey (Course.class_id cls) _ Hp).
Qed.

Lemma other_units_do_not_affect_unit_witness :
  let a := {| progress := {["c1" := {[ "1-a" := true ]}]}; hook := None |} in
  isUnitComplete (progress (toggleFileComplete "c1" (fileKey 11 "b") a)) "c1" 1
  = isUnitComplete (progress a) "c1" 1.
Proof.
  intros a.
  exact (proj1 (other_units_do_not_affect_unit a "c1" 1
                  {| unit_number := 11; unit_name := "U"; unit_directory := "u11";
                     classes := [] |} "b"
                  ltac:(lia) ltac:(simpl; lia) ltac:(simpl; lia))).
Defined.

End UnitComplete.

Section SortStability.

Import Leaderboard.

Context {A : Type}.
Variables (cmp : A → A → Z) (P : A → bool).

(** Elements selected by [P] are ties of the comparator. *)
Hypothesis ties : ∀ x y, P x = true → P y = true → cmp x y ≤ 0.

Lemma filter_insertSorted (x : A) (l : list A) :
  List.filter P (insertSorted cmp x l)
  = if P x then x :: List.filter P l else List.filter P l.
Proof.
  induction l as [|y l IH]; cbn [insertSorted List.filter]; [done|].
  destruct (0 <? cmp x y) eqn:E; cbn [List.filter]; [|done].
  rewrite IH. apply Z.ltb_lt in E.
  destruct (P x) eqn:Px, (P y) eqn:Py; try done.
  pose proof (ties x y Px Py). lia.
Qed.

Lemma filter_sort (l : list A) : List.filter P (sort cmp l) = List.filter P l.
Proof.
  induction l as [|x l IH]; [done|]. cbn [sort List.filter].
  rewrite filter_insertSorted, IH. by destruct (P x).
Qed.

End SortStability.

Section Boards.

Import Leaderboard Sync Board.


Lemma compareEntries_flip (a b : LeaderboardEntry) :
  0 < compareEntries a b → compareEntries b a ≤ 0.
Proof. rewrite compareEntries_gt, compareEntries_le. lia. Qed.

Lemma compareEntries_trans (a b c : LeaderboardEntry) :
  compareEntries a b ≤ 0 → compareEntries b c ≤ 0 → compareEntries a c ≤ 0.
Proof. rewrite !compareEntries_le. lia. Qed.

Lemma find_findIndex {A} (p : A → bool) (l : list A) :
  match List.find p l with
  | Some x =>
      ∃ i : nat, findIndex p l = Z.of_nat i ∧ l !! i = Some x ∧ p x = true
                 ∧ ∀ j y, (j < i)%nat → l !! j = Some y → p y = false
  | None => findIndex p l = -1
  end.
Proof.
  induction l as [|z l IH]; [done|]. cbn [List.find findIndex].
  destruct (p z) eqn:Ez.
  - exists 0%nat. repeat split; [done|]. intros j y Hj. lia.
  - destruct (List.find p l) as [x|].
    + destruct IH as (i & Hi & Hx & Hp & Hb). exists (S i).
      rewrite Hi. replace (Z.of_nat i <? 0) with false
        by (symmetry; apply Z.ltb_ge; lia).
      repeat split; [lia | done | done |].
      intros [|j] y Hj Hy; [by injection Hy as <-|].
      apply (Hb j y); [lia | done].
    + by rewrite IH.
Qed.

Lemma find_perm_some {A} (p : A → bool) (l l' : list A) :
  l ≡ₚ l' → is_Some (List.find p l) → is_Some (List.find p l').
Proof.
  intros Hperm [x Hx]. apply find_some in Hx as [Hin Hp].
  destruct (List.find p l') eqn:E; [done|].
  assert (Hin' : In x l')
    by (apply list_elem_of_In; rewrite <- Hperm; by apply list_elem_of_In).
  pose proof (find_none _ _ E x Hin'). congruence.
Qed.

(** X11: the display sort is stable: entries with the same percentage and
    the same completed count appear in the order in which they were
    received. *)
Theorem sortedEntries_keeps_order_of_ties (entries : list LeaderboardEntry)
    (percentage completed : Z) :
  let tied := fun e => (le_percentage e =? percentage) && (le_completed e =? completed) in
  List.filter tied (sortedEntries entries) = List.filter tied entries.
Proof.
  intros tied. apply filter_sort. intros x y Hx Hy.
  unfold tied in Hx, Hy. apply andb_true_iff in Hx as [Hx1 Hx2].
  apply andb_true_iff in Hy as [Hy1 Hy2].
  apply Z.eqb_eq in Hx1, Hx2, Hy1, Hy2. apply compareEntries_le. lia.
Qed.

(** X12: the compact leaderboard shows at most five entries, all of them
    when there are at most five; no entry left out has a greater
    percentage than one that is shown, nor the same percentage with a
    greater completed count. *)
Theorem topEntries_are_the_best (entries : list LeaderboardEntry) :
  length (topEntries entries) = Nat.min 5 (length entries)
  ∧ ∃ rest,
      entries ≡ₚ topEntries entries ++ rest
      ∧ ∀ a b, a ∈ topEntries entries → b ∈ rest →
          le_percentage b < le_percentage a
          ∨ (le_percentage b = le_percentage a ∧ le_completed b ≤ le_completed a).
Proof.
  unfold topEntries. split.
  - rewrite length_take. unfold sortedEntries.
    by rewrite (Permutation_length (sort_perm compareEntries entries)).
  - exists (drop 5 (sortedEntries entries)). split.
    + rewrite take_drop. symmetry. apply sort_perm.
    + intros a b [i Hi]%list_elem_of_lookup [j Hj]%list_elem_of_lookup.
      apply compareEntries_le.
      apply lookup_take_Some in Hi as [Hi Hlt]. rewrite lookup_drop in Hj.
      apply (sorted_lookup compareEntries (sortedEntries entries) i (5 + j) a b);
        [|lia|done..].
      apply sort_sorted; [apply compareEntries_flip | apply compareEntries_trans].
Qed.

(** X13: the rank shown by the compact leaderboard is the 1-based position
    of the first entry of the user in the sorted list; it lies between 1
    and the number of entries, and it is at most 5 exactly when the user
    is among the entries shown.  There is no rank when no entry carries the
    user's id or no id is known. *)
Theorem compact_rank_is_sorted_position (entries : list LeaderboardEntry)
    (currentUserId : option string) :
  match Board.currentUserRank entries currentUserId with
  | Some r =>
      ∃ u (i : nat) e,
        currentUserId = Some u ∧ r = Z.of_nat i + 1
        ∧ (i < length entries)%nat
        ∧ sortedEntries entries !! i = Some e ∧ le_userId e = u
        ∧ (∀ j other, (j < i)%nat → sortedEntries entries !! j = Some other →
             le_userId other ≠ u)
        ∧ (r ≤ 5 ↔ ∃ e', e' ∈ topEntries entries ∧ le_userId e' = u)
  | None =>
      ∀ u e, currentUserId = Some u → e ∈ entries → le_userId e ≠ u
  end.
Proof.
  unfold Board.currentUserRank, currentUserEntry.
  destruct currentUserId as [u|]; [|by intros ? ? [=]].
  set (p := fun e => bool_decide (le_userId e = u)).
  destruct (List.find p entries) as [e0|] eqn:E.
  - assert (Hs : is_Some (List.find p (sortedEntries entries))).
    { apply (find_perm_some p entries); [|by exists e0].
      symmetry. apply sort_perm. }
    destruct Hs as [e He].
    pose proof (find_findIndex p (sortedEntries entries)) as Hfi.
    rewrite He in Hfi. destruct Hfi as (i & Hi & Hl & Hp & Hb).
    exists u, i, e. rewrite Hi.
    assert (Hlen : (i < length entries)%nat).
    { apply lookup_lt_Some in Hl. unfold sortedEntries in Hl.
      by rewrite (Permutation_length (sort_perm compareEntries entries)) in Hl. }
    repeat split; try done.
    + by apply bool_decide_eq_true in Hp.
    + intros j other Hj Ho Hu. specialize (Hb j other Hj Ho).
      unfold p in Hb. by rewrite bool_decide_true in Hb.
    + intros Hr. exists e. split; [|by apply bool_decide_eq_true in Hp].
      apply list_elem_of_lookup. exists i. unfold topEntries.
      apply lookup_take_Some. split; [done | lia].
    + intros (e' & [j Hj]%list_elem_of_lookup & Hu). unfold topEntries in Hj.
      apply lookup_take_Some in Hj as [Hj Hlt].
      destruct (decide (i ≤ j)%nat) as [|Hgt]; [lia|].
      specialize (Hb j e' ltac:(lia) Hj). unfold p in Hb.
      by rewrite bool_decide_true in Hb.
  - intros u' e [= <-] He Hu.
    pose proof (find_none _ _ E e (proj1 (list_elem_of_In _ _) He)) as Hp.
    unfold p in Hp. by rewrite bool_decide_true in Hp.
Qed.



(** On a list that is not in ranking order the two ranks differ. *)
Example ranks_differ_on_unsorted_input :
  let a := {| le_userId := "user_1"; le_username := of_string "A"; le_completed := 1;
              le_total := 2; le_percentage := 50; le_lastUpdate := "t" |} in
  let b := {| le_userId := "user_2"; le_username := of_string "B"; le_completed := 2;
              le_total := 2; le_percentage := 100; le_lastUpdate := "t" |} in
  let h := setLeaderboard [a; b] (setUserId (Some "user_1") (initial "c1" None None)) in
  Sync.currentUserRank h = Some 1
  ∧ Board.currentUserRank (leaderboard h) (userId h) = Some 2.
Proof. by vm_compute. Qed.

End Boards.

Section Sending.

Import Sync Trace Channel.

Lemma currentOpen_Some (h : Hook) (i : nat) :
  currentOpen h = Some i → readyStateOf h i = Some OPEN.
Proof.
  unfold currentOpen. destruct (wsRef h) as [j|]; [|done].
  destruct (readyStateOf h j) as [[]|] eqn:E; try done. by intros [= <-].
Qed.

Lemma sockets_flush (i : nat) (cl : Closure) (l : list ProgressUpdate) (h : Hook) :
  sockets (fold_left (fun acc u => send i (flushMsg cl u) acc) l h) = sockets h.
Proof. revert h. induction l as [|u l IH]; intros h; simpl; [done|]. by rewrite IH. Qed.

Lemma sockets_onopen (i : nat) (cl : Closure) (h : Hook) :
  sockets (onopen i cl h) = sockets h.
Proof.
  unfold onopen. simpl.
  destruct (0 <? length (pendingUpdatesRef h))%nat; simpl; [|done].
  by rewrite sockets_flush.
Qed.

Lemma omap_flush (i : nat) (cl : Closure) (l : list ProgressUpdate) :
  omap (fun im : nat * ClientMsg => updateOf im.2)
       (List.map (fun u => (i, flushMsg cl u)) l) = l.
Proof.
  induction l as [|[c k b] l IH]; [done|]. cbn. by rewrite IH.
Qed.

(** What one event hands to [send], and what it does to the queue. *)
Lemma step_effect (h : Hook) (ev : Event) :
  ∃ new,
    wire (step h ev) = wire h ++ new
    ∧ (∀ i m, (i, m) ∈ new → readyStateOf (step h ev) i = Some OPEN)
    ∧ (if isWsOpen ev
       then step h ev = h
            ∨ (pendingUpdatesRef (step h ev) = []
               ∧ omap (fun im => updateOf im.2) new = pendingUpdatesRef h)
       else match currentOpen h with
            | Some _ =>
                pendingUpdatesRef (step h ev) = pendingUpdatesRef h
                ∧ omap (fun im => updateOf im.2) new = issued h [ev]
            | None =>
                pendingUpdatesRef (step h ev) = pendingUpdatesRef h ++ issued h [ev]
                ∧ omap (fun im => updateOf im.2) new = []
            end).
Proof.
  assert (Hsame : ∀ h', wire h' = wire h → pendingUpdatesRef h' = pendingUpdatesRef h →
            ∃ new, wire h' = wire h ++ new
              ∧ (∀ i m, (i, m) ∈ new → readyStateOf h' i = Some OPEN)
              ∧ match currentOpen h with
                | Some _ => pendingUpdatesRef h' = pendingUpdatesRef h
                            ∧ omap (fun im => updateOf im.2) new = []
                | None => pendingUpdatesRef h' = pendingUpdatesRef h ++ []
                          ∧ omap (fun im => updateOf im.2) new = []
                end).
  { intros h' Hw Hp. exists []. rewrite app_nil_r. split; [done|].
    split; [by intros ? ? ?%elem_of_nil|]. rewrite app_nil_r.
    by destruct (currentOpen h). }
  assert (Hone : ∀ m, updateOf m = None →
            ∃ new,
              wire (match currentOpen h with Some i => send i m h | None => h end)
              = wire h ++ new
              ∧ (∀ i m', (i, m') ∈ new →
                   readyStateOf (match currentOpen h with
                                 | Some i => send i m h | None => h end) i
                   = Some OPEN)
              ∧ match currentOpen h with
                | Some _ =>
                    pendingUpdatesRef (match currentOpen h with
                                       | Some i => send i m h | None => h end)
                    = pendingUpdatesRef h
                    ∧ omap (fun im => updateOf im.2) new = []
                | None =>
                    pendingUpdatesRef (match currentOpen h with
                                       | Some i => send i m h | None => h end)
                    = pendingUpdatesRef h ++ []
                    ∧ omap (fun im => updateOf im.2) new = []
                end).
  { intros m Hm. destruct (currentOpen h) as [i|] eqn:E.
    - exists [(i, m)]. split; [done|]. split.
      + intros j m' [= -> ->]%list_elem_of_singleton. by apply currentOpen_Some.
      + split; [done|]. cbn. by rewrite Hm.
    - exists []. rewrite !app_nil_r. split; [done|].
      split; [by intros ? ? ?%elem_of_nil | done]. }
  destruct ev as [fid fname|c| | |s|fk b| |fks| |i|i data|i|i|t];
    cbn [isWsOpen issued app].
  - (* Identify *)
    simpl. destruct (mounted h); [|by apply Hsame].
    destruct (frame_identify fid fname h) as (Hw & Hp & _). by apply Hsame.
  - (* Render *)
    simpl. destruct (mounted h); by apply Hsame.
  - (* Commit *)
    simpl. destruct (mounted h); [|by apply Hsame]. unfold commit.
    destruct (decide (effectDeps h = Some (currentClosure h))); [by apply Hsame|].
    set (h1 := match effectDeps h with Some _ => cleanup h | None => h end).
    assert (H1 : wire h1 = wire h ∧ pendingUpdatesRef h1 = pendingUpdatesRef h).
    { unfold h1. destruct (effectDeps h); [apply frame_cleanup | done]. }
    destruct H1 as [Hw1 Hp1].
    destruct (frame_connect (currentClosure h) h1) as [Hw2 Hp2].
    apply Hsame; simpl; congruence.
  - (* Unmount *)
    simpl. destruct (mounted h); [|by apply Hsame].
    destruct (effectDeps h); [|by apply Hsame].
    destruct (frame_cleanup h) as [Hw Hp]. by apply Hsame.
  - (* UpdateUsername *)
    simpl. unfold updateUsername.
    destruct (negb (truthy (trim s))); [by apply Hsame|].
    set (h1 := set_storedUsername (Some s) (setUsername s h)).
    destruct (currentOpen h) as [i|] eqn:E.
    + change (currentOpen h1) with (currentOpen h). rewrite E.
      exists [(i, set_username s)]. split; [done|]. split; [|done].
      intros j m' [= -> ->]%list_elem_of_singleton.
      change (readyStateOf h i = Some OPEN). by apply currentOpen_Some.
    + change (currentOpen h1) with (currentOpen h). rewrite E.
      exists []. rewrite !app_nil_r. split; [done|].
      split; [by intros ? ? ?%elem_of_nil | done].
  - (* SendProgressUpdate *)
    simpl. unfold sendProgressUpdate. destruct (currentOpen h) as [i|] eqn:E.
    + eexists [(i, _)]. split; [done|]. split; [|done].
      intros j m' [= -> ->]%list_elem_of_singleton.
      change (readyStateOf h i = Some OPEN). by apply currentOpen_Some.
    + exists []. rewrite !app_nil_r. split; [done|].
      split; [by intros ? ? ?%elem_of_nil | done].
  - (* RequestLeaderboardUpdate *)
    simpl. unfold requestLeaderboardUpdate.
    destruct (truthyId (courseId h)).
    + by apply (Hone (request_leaderboard (courseId h))).
    + replace (match currentOpen h with Some _ => h | None => h end) with h
        by (by destruct (currentOpen h)).
      by apply Hsame.
  - (* SyncStudyItems *)
    simpl. unfold syncStudyItems.
    destruct (truthyId (courseId h)).
    + by apply (Hone (sync_study_items (courseId h) fks)).
    + replace (match currentOpen h with Some _ => h | None => h end) with h
        by (by destruct (currentOpen h)).
      by apply Hsame.
  - (* PollTick *)
    simpl. destruct (mounted h); [|by apply Hsame]. unfold pollTick.
    destruct (isConnected h && truthyId (courseId h)); [|by apply Hsame].
    by apply (Hone (request_leaderboard (courseId h))).
  - (* WsOpen *)
    simpl. destruct (sockets h !! i) as [sk|] eqn:Hi.
    2:{ exists []. rewrite app_nil_r. split; [done|].
        split; [by intros ? ? ?%elem_of_nil | by left]. }
    destruct (ws_readyState sk) eqn:Hst;
      try (exists []; rewrite app_nil_r; split; [done|];
           split; [by intros ? ? ?%elem_of_nil | by left]).
    eexists. split; [by rewrite wire_onopen|]. split.
    + intros j m Hj. unfold readyStateOf. rewrite sockets_onopen. simpl.
      assert (j = i) as ->.
      { apply elem_of_app in Hj as [Hj|Hj].
        - apply list_elem_of_fmap in Hj as (u & [= -> _] & _). done.
        - apply list_elem_of_singleton in Hj. by injection Hj. }
      rewrite list_lookup_alter_eq, Hi. reflexivity.
    + right. split; [apply pending_onopen|]. simpl.
      rewrite omap_app, omap_flush. cbn. by rewrite app_nil_r.
  - (* WsMessage *)
    simpl. destruct (sockets h !! i) as [sk|]; [|by apply Hsame].
    destruct (ws_readyState sk); try by apply Hsame.
    destruct data as [c entries| | |]; simpl; try by apply Hsame.
    destruct (decide (c = cl_courseId (ws_closure sk))); by apply Hsame.
  - (* WsError *)
    by apply Hsame.
  - (* WsClose *)
    simpl. destruct (sockets h !! i) as [sk|]; [|by apply Hsame].
    destruct (ws_readyState sk); by apply Hsame.
  - (* TimerFire *)
    simpl. destruct (timers h !! t) as [tm|]; [|by apply Hsame].
    destruct (tm_armed tm); [|by apply Hsame].
    destruct (frame_connect (tm_closure tm) (clearTimeout t h)) as [Hw Hp].
    by apply Hsame.
Qed.

(** X15: the hook never hands a message to a socket that is not open:
    whatever the state and the event, the messages sent so far stay as
    they are, and each message the event adds goes to a socket whose
    [readyState] is [OPEN]. *)
Theorem sends_only_on_open_sockets (h : Hook) (ev : Event) :
  ∃ new,
    wire (step h ev) = wire h ++ new
    ∧ ∀ i m, (i, m) ∈ new → readyStateOf (step h ev) i = Some OPEN.
Proof.
  destruct (step_effect h ev) as (new & Hw & Hopen & _). by exists new.
Qed.

Lemma conserve_step (h : Hook) (ev : Event) :
  flushed h →
  flushed (step h ev)
  ∧ delivered (step h ev) ++ pendingUpdatesRef (step h ev)
    = delivered h ++ pendingUpdatesRef h ++ issued h [ev].
Proof.
  intros Hinv. destruct (step_effect h ev) as (new & Hw & _ & Heff).
  unfold delivered. rewrite Hw, omap_app.
  destruct (isWsOpen ev) eqn:Hev.
  - assert (Hi : issued h [ev] = []) by (by destruct ev).
    rewrite Hi, app_nil_r.
    destruct Heff as [Hsame|[Hp Hnew]].
    + rewrite Hsame in Hw |- *. split; [done|].
      apply (f_equal (omap (fun im : nat * ClientMsg => updateOf im.2))) in Hw.
      rewrite omap_app in Hw. by rewrite <- Hw at 1.
    + split; [by right|]. by rewrite Hp, Hnew, app_nil_r.
  - destruct (currentOpen h) as [j|] eqn:E.
    + destruct Heff as [Hp Hnew]. destruct Hinv as [Hn|Hq]; [congruence|].
      split; [right; by rewrite Hp|]. by rewrite Hp, Hnew, Hq, app_nil_r.
    + destruct Heff as [Hp Hnew].
      destruct (offline_step h ev Hev E) as (Hoff & _).
      split; [by left|]. by rewrite Hp, Hnew, app_nil_r.
Qed.

Lemma conserve_run (evs : list Event) (h : Hook) :
  flushed h →
  flushed (run h evs)
  ∧ delivered (run h evs) ++ pendingUpdatesRef (run h evs)
    = delivered h ++ pendingUpdatesRef h ++ issued h evs.
Proof.
  revert h. induction evs as [|ev evs IH]; intros h Hinv.
  - simpl. by rewrite app_nil_r.
  - destruct (conserve_step h ev Hinv) as [Hinv1 H1].
    destruct (IH (step h ev) Hinv1) as [Hinv2 H2].
    change (run h (ev :: evs)) with (run (step h ev) evs).
    split; [done|]. rewrite H2, issued_cons.
    rewrite (app_assoc (delivered (step h ev))), H1. by rewrite <- !app_assoc.
Qed.

(** X16: no progress update is lost, duplicated or reordered by the hook,
    whatever happens to the connection: after any events from the first
    render, the updates handed to a socket followed by those still queued
    are the updates issued by [sendProgressUpdate], in the order of the
    calls; and nothing is queued while the current socket is open. *)
Theorem updates_delivered_or_queued_in_order (c : string)
    (storedId : option string) (storedName : option jsstring) (evs : list Event) :
  let h := run (initial c storedId storedName) evs in
  delivered h ++ pendingUpdatesRef h = issued (initial c storedId storedName) evs
  ∧ (pendingUpdatesRef h = [] ∨ currentOpen h = None).
Proof.
  intros h.
  destruct (conserve_run evs (initial c storedId storedName)) as [Hinv H];
    [by left|].
  split; [exact H|]. by destruct Hinv; [right | left].
Qed.

End Sending.

Section Identity.

Import Sync Trace Board.

Lemma trimStart_head (s : jsstring) :
  match trimStart s with
  | [] => True
  | c :: _ => isWhiteSpace c = false
  end.
Proof.
  induction s as [|c s IH]; [done|]. cbn [trimStart].
  by destruct (isWhiteSpace c) eqn:E.
Qed.

Lemma trimStart_fixed (c : N) (s : jsstring) :
  isWhiteSpace c = false → trimStart (c :: s) = c :: s.
Proof. intros H. cbn [trimStart]. by rewrite H. Qed.

Lemma trimStart_suffix (s : jsstring) : ∃ pre, s = pre ++ trimStart s.
Proof.
  induction s as [|c s [pre IH]]; [by exists []|]. cbn [trimStart].
  destruct (isWhiteSpace c); [|by exists []].
  exists (c :: pre). by rewrite IH at 1.
Qed.

(** A trimmed string is empty or has no white space at either end. *)
Lemma trim_ends (s : jsstring) :
  trim s = []
  ∨ ∃ a b mid mid', trim s = a :: mid ∧ trim s = mid' ++ [b]
                    ∧ isWhiteSpace a = false ∧ isWhiteSpace b = false.
Proof.
  unfold trim.
  pose proof (trimStart_head s) as Hs.
  destruct (trimStart s) as [|c t] eqn:Et; [by left|].
  pose proof (trimStart_head (rev (c :: t))) as Hr.
  destruct (trimStart_suffix (rev (c :: t))) as [pre Hpre].
  destruct (trimStart (rev (c :: t))) as [|b u] eqn:Eu.
  { exfalso. apply trimStart_nil in Eu. rewrite forallb_rev in Eu.
    cbn in Eu. by rewrite Hs in Eu. }
  right.
  (* the last element of [b :: u] is [c] *)
  assert (Hlast : ∃ u', b :: u = u' ++ [c]).
  { destruct (exists_last (l := b :: u) ltac:(done)) as (u' & x & Hx).
    exists u'. rewrite Hx in Hpre |- *. cbn [rev] in Hpre.
    rewrite app_assoc in Hpre. apply app_inj_tail in Hpre as [_ ->]. done. }
  destruct Hlast as [u' Hu'].
  exists c, b, (rev u'), (rev u). repeat split; try done.
  by rewrite Hu', rev_app_distr.
Qed.

Lemma trim_idempotent (s : jsstring) : trim (trim s) = trim s.
Proof.
  destruct (trim_ends s) as [->|(a & b & mid & mid' & Ha & Hb & Wa & Wb)];
    [done|].
  unfold trim at 1. rewrite Ha at 1. rewrite (trimStart_fixed a mid Wa).
  rewrite <- Ha, Hb, rev_app_distr. cbn [rev app].
  rewrite (trimStart_fixed b _ Wb).
  cbn [rev]. by rewrite rev_involutive.
Qed.

(** X17: a name entered in the rename dialog is stored trimmed: unless it
    is blank, the dialog closes, the user name and the stored name become
    the input without the white space around it, which is not empty and
    neither starts nor ends with white space, and it is announced on the
    current socket if that is open.  A blank input changes nothing and
    leaves the dialog as it is. *)
Theorem dialog_rename_stores_trimmed_name (h : Hook) (newUsername : jsstring)
    (isEditing : bool) :
  let result := handleUpdateUsername newUsername isEditing h in
  if forallb isWhiteSpace newUsername
  then result = (isEditing, h)
  else
    result.1 = false
    ∧ username result.2 = trim newUsername
    ∧ storedUsername result.2 = Some (trim newUsername)
    ∧ trim (username result.2) = username result.2
    ∧ (∃ a b mid mid', username result.2 = a :: mid
                       ∧ username result.2 = mid' ++ [b]
                       ∧ isWhiteSpace a = false ∧ isWhiteSpace b = false)
    ∧ wire result.2
      = wire h ++ match currentOpen h with
                  | Some i => [(i, set_username (trim newUsername))]
                  | None => []
                  end.
Proof.
  intros result. unfold result, handleUpdateUsername.
  rewrite truthy_trim.
  destruct (forallb isWhiteSpace newUsername) eqn:Hws; cbn [negb]; [done|].
  cbn [fst snd]. unfold updateUsername.
  rewrite trim_idempotent. rewrite truthy_trim, Hws. cbn [negb].
  set (t := trim newUsername).
  assert (Hu : username (match currentOpen
                          (set_storedUsername (Some t) (setUsername t h)) with
                        | Some i => send i (set_username t)
                                      (set_storedUsername (Some t) (setUsername t h))
                        | None => set_storedUsername (Some t) (setUsername t h)
                        end) = t).
  { by destruct (currentOpen _). }
  split; [done|]. rewrite Hu. split; [done|].
  split; [by destruct (currentOpen _)|].
  split; [apply trim_idempotent|]. split.
  - destruct (trim_ends newUsername) as [Hnil|H]; [|exact H].
    pose proof (truthy_trim newUsername) as Ht. rewrite Hnil, Hws in Ht.
    discriminate Ht.
  - change (currentOpen (set_storedUsername (Some t) (setUsername t h)))
      with (currentOpen h).
    destruct (currentOpen h); cbn; [done | by rewrite app_nil_r].
Qed.

(** X18: the user keeps id and name across page loads: once [getUserId]
    and [getUsername] have stored what they generated, a later load,
    whatever the course and whatever the generators would produce then,
    ends with the same id and name; after a rename it ends with the same
    id and the new name. *)
Theorem identity_survives_reload (c c' : string) (storedId : option string)
    (storedName : option jsstring) (freshId freshId' : string)
    (freshName freshName' : jsstring) (rename : jsstring) :
  truthyId freshId = true → truthy freshName = true →
  let h := identify freshId freshName (initial c storedId storedName) in
  let reload := fun h0 =>
    identify freshId' freshName' (initial c' (storedUserId h0) (storedUsername h0)) in
  (userId (reload h) = userId h ∧ username (reload h) = username h)
  ∧ (forallb isWhiteSpace rename = false →
       userId (reload (updateUsername rename h)) = userId h
       ∧ username (reload (updateUsername rename h)) = rename).
Proof.
  intros Hid Hname h reload.
  assert (Hh : ∃ id name, truthyId id = true ∧ truthy name = true
                 ∧ userId h = Some id ∧ username h = name
                 ∧ storedUserId h = Some id ∧ storedUsername h = Some name).
  { exists (match storedId with
            | Some s => if truthyId s then s else freshId
            | None => freshId
            end),
           (match storedName with
            | Some n => if truthy n then n else freshName
            | None => freshName
            end).
    unfold h, identify. cbn [storedUserId storedUsername initial].
    destruct storedId as [s|]; [destruct (truthyId s) eqn:Es|];
      (destruct storedName as [n|]; [destruct (truthy n) eqn:En|]);
      cbn [storedUserId storedUsername initial set_storedUserId];
      rewrite ?En; repeat split; assumption || reflexivity. }
  destruct Hh as (id & name & Tid & Tname & Hu & Hn & Hsu & Hsn).
  split.
  - unfold reload, identify. cbn [storedUserId storedUsername initial].
    rewrite Hsu, Hsn, Tid. cbn. rewrite Tname. cbn. by rewrite Hu, Hn.
  - intros Hws.
    assert (Hr : storedUserId (updateUsername rename h) = Some id
                 ∧ storedUsername (updateUsername rename h) = Some rename).
    { unfold updateUsername. rewrite truthy_trim, Hws. cbn [negb].
      destruct (currentOpen _); cbn; by rewrite Hsu. }
    destruct Hr as [Hr1 Hr2].
    assert (Tr : truthy rename = true) by (by destruct rename).
    unfold reload, identify. cbn [storedUserId storedUsername initial].
    rewrite Hr1, Hr2, Tid. cbn. rewrite Tr. cbn. by rewrite Hu.
Qed.

Lemma identity_survives_reload_witness :
  let h := identify "user_1" (of_string "SwiftPanda1") (initial "c1" None None) in
  let h' := identify "user_2" (of_string "BoldFox2")
              (initial "c2" (storedUserId h) (storedUsername h)) in
  userId h' = Some "user_1" ∧ username h' = of_string "SwiftPanda1".
Proof.
  intros h h'.
  exact (proj1 (identity_survives_reload "c1" "c2" None None "user_1" "user_2"
                  (of_string "SwiftPanda1") (of_string "BoldFox2") []
                  eq_refl eq_refl)).
Defined.

Lemma cleanup_current (h : Hook) (i : nat) (sk : Socket) :
  wsRef h = Some i → sockets h !! i = Some sk → ws_readyState sk = OPEN →
  sockets (cleanup h)
  = alter (fun s => {| ws_closure := ws_closure s; ws_readyState := CLOSING |})
      i (sockets h)
  ∧ length (timers (cleanup h)) = length (timers h)
  ∧ mounted (cleanup h) = mounted h.
Proof.
  intros Hw Hi Hst. unfold cleanup.
  set (h1 := match reconnectTimeoutRef h with
             | Some t => clearTimeout t h
             | None => h
             end).
  assert (H1 : wsRef h1 = wsRef h ∧ sockets h1 = sockets h
               ∧ length (timers h1) = length (timers h)
               ∧ mounted h1 = mounted h).
  { unfold h1. destruct (reconnectTimeoutRef h); [|done]. cbn.
    by rewrite length_alter. }
  destruct H1 as (Hw1 & Hs1 & Ht1 & Hm1). rewrite Hw1, Hw.
  unfold close, readyStateOf. rewrite Hs1, Hi. cbn. rewrite Hst.
  cbn. by rewrite Hs1.
Qed.

(** X19: unmounting does not end the reconnecting.  The cleanup cancels
    the pending timeout and closes the socket, but leaves its [onclose] in
    place: when the socket reports the close, a new timeout is armed, and
    when that fires a new socket is opened with the same user and course
    and becomes the current one, although the component is gone. *)
Theorem unmount_does_not_stop_reconnect (h : Hook) (i : nat) (sk : Socket) :
  reachable h → mounted h = true → is_Some (effectDeps h) →
  wsRef h = Some i → sockets h !! i = Some sk → ws_readyState sk = OPEN →
  let h1 := step h Unmount in
  let h2 := step h1 (WsClose i) in
  let h3 := step h2 (TimerFire (length (timers h))) in
  (mounted h1 = false ∧ readyStateOf h1 i = Some CLOSING)
  ∧ timers h2 !! length (timers h)
    = Some {| tm_closure := ws_closure sk; tm_delay := 3000; tm_armed := true |}
  ∧ (mounted h3 = false
     ∧ wsRef h3 = Some (length (sockets h))
     ∧ sockets h3 !! length (sockets h)
       = Some {| ws_closure := ws_closure sk; ws_readyState := CONNECTING |}).
Proof.
  intros Hreach Hm [deps Hdeps] Hw Hi Hst h1 h2 h3.
  assert (Hu : hasUser (ws_closure sk)).
  { destruct (haveUser_reachable h Hreach) as [Hs _].
    rewrite Forall_lookup in Hs. by apply (Hs i). }
  destruct (cleanup_current h i sk Hw Hi Hst) as (Hs & Ht & _).
  assert (Hh1 : h1 = set_mounted false (cleanup h)).
  { unfold h1. cbn [step]. by rewrite Hm, Hdeps. }
  set (sk' := {| ws_closure := ws_closure sk; ws_readyState := CLOSING |}).
  assert (Hi1 : sockets h1 !! i = Some sk').
  { rewrite Hh1. cbn [sockets set_mounted]. rewrite Hs.
    by rewrite list_lookup_alter_eq, Hi. }
  assert (Ht1 : length (timers h1) = length (timers h))
    by (by rewrite Hh1).
  assert (Hl1 : length (sockets h1) = length (sockets h)).
  { rewrite Hh1. cbn [sockets set_mounted]. by rewrite Hs, length_alter. }
  assert (Hm1 : mounted h1 = false) by (by rewrite Hh1).
  split; [|split].
  - split; [done|]. unfold readyStateOf. by rewrite Hi1.
  - unfold h2. rewrite (step_WsClose h1 i sk' Hi1 ltac:(done)). cbn.
    rewrite <- Ht1. by apply list_lookup_middle.
  - destruct (close_then_fire h1 i sk' Hu Hi1 ltac:(done)) as (_ & Hs3 & _ & Hw3).
    rewrite Ht1 in Hs3, Hw3. fold h2 h3 in Hs3, Hw3.
    split; [|split].
    + unfold h3, h2. rewrite (step_WsClose h1 i sk' Hi1 ltac:(done)).
      set (h2' := onclose _ _).
      assert (Htm : timers h2' !! length (timers h)
                    = Some {| tm_closure := ws_closure sk'; tm_delay := 3000;
                              tm_armed := true |}).
      { unfold h2'. cbn. rewrite <- Ht1. by apply list_lookup_middle. }
      rewrite (step_TimerFire h2' _ _ Htm eq_refl).
      unfold connect. by destruct (truthyUser _).
    + by rewrite Hw3, Hl1.
    + rewrite Hs3, <- Hl1. apply list_lookup_middle. by rewrite length_alter.
Qed.

Lemma unmount_does_not_stop_reconnect_witness :
  let h := run (initial "c1" None None)
             [Identify "user_1" (of_string "A"); Commit; WsOpen 0%nat] in
  let h3 := run h [Unmount; WsClose 0%nat; TimerFire 0%nat] in
  mounted h3 = false ∧ wsRef h3 = Some 1%nat.
Proof.
  intros h h3.
  assert (Hreach : reachable h) by (by eexists _, _, _, _).
  destruct (unmount_does_not_stop_reconnect h 0%nat
              {| ws_closure := {| cl_userId := Some "user_1"; cl_courseId := "c1";
                                  cl_username := of_string "A" |};
                 ws_readyState := OPEN |}
              Hreach eq_refl ltac:(by eexists) eq_refl eq_refl eq_refl)
    as (_ & _ & Hm & Hw & _).
  split; [exact Hm | exact Hw].
Defined.

End Identity.

Section StudyPage.

Import Progress App Study.

(** X20: the zoom stays between 50 and 200 percent in steps of 25,
    whatever the sequence of clicks on the two zoom buttons. *)
Theorem zoom_stays_in_range (clicks : list bool) :
  let final :=
    fold_left (fun s (zoomIn : bool) =>
                 if zoomIn then handleZoomIn s else handleZoomOut s)
              clicks 100 in
  50 ≤ final ≤ 200 ∧ (25 | final).
Proof.
  intros final. unfold final.
  assert (H : ∀ s, 50 ≤ s ≤ 200 ∧ (25 | s) →
              50 ≤ fold_left (fun s (zoomIn : bool) =>
                                if zoomIn then handleZoomIn s else handleZoomOut s)
                             clicks s ≤ 200
              ∧ (25 | fold_left (fun s (zoomIn : bool) =>
                                   if zoomIn then handleZoomIn s else handleZoomOut s)
                                clicks s)).
  { induction clicks as [|b l IH]; intros s Hs; [done|]. cbn [fold_left].
    apply IH. destruct Hs as [Hr [k ->]].
    destruct b; unfold handleZoomIn, handleZoomOut.
    - destruct (Z.min_spec (k * 25 + 25) 200) as [[? ->]|[? ->]].
      + split; [lia|]. exists (k + 1). lia.
      + split; [lia|]. by exists 8.
    - destruct (Z.max_spec (k * 25 - 25) 50) as [[? ->]|[? ->]].
      + split; [lia|]. by exists 2.
      + split; [lia|]. exists (k - 1). lia. }
  apply H. split; [lia|]. by exists 4.
Qed.

Lemma isFileComplete_toggle_other (a : App) (c k c' k' : string) :
  (c', k') ≠ (c, k) →
  isFileComplete (App.progress (toggleFileComplete c k a)) c' k'
  = isFileComplete (App.progress a) c' k'.
Proof.
  intros Hne. unfold toggleFileComplete. cbn [App.progress]. unfold isFileComplete.
  destruct (decide (c' = c)) as [->|Hc].
  - rewrite lookup_insert_eq. assert (k' ≠ k) by congruence.
    rewrite lookup_insert_ne by done. unfold courseProgressOf.
    by destruct (App.progress a !! c).
  - by rewrite lookup_insert_ne.
Qed.

(** X21: [goToNext] on a cart that is not empty, with the active index in
    range, keeps the index in range and moves it on by one except on the
    last item; the file of the item that was active is complete afterwards
    when the item names its course and key, and no file that was complete
    becomes incomplete.  The cart is not changed. *)
Theorem next_marks_complete_and_advances (p : Page) :
  0 ≤ activeIndex p < Z.of_nat (length (items p)) →
  let p' := goToNext p in
  items p' = items p
  ∧ 0 ≤ activeIndex p' < Z.of_nat (length (items p))
  ∧ activeIndex p'
    = (if activeIndex p =? Z.of_nat (length (items p)) - 1
       then activeIndex p else activeIndex p + 1)
  ∧ (∀ it c k, activeItem p = Some it →
       si_courseId it = Some c → si_fileKey it = Some k →
       Sync.truthyId c = true → Sync.truthyId k = true →
       isFileComplete (progress p') c k = true)
  ∧ (∀ c k, isFileComplete (progress p) c k = true →
            isFileComplete (progress p') c k = true).
Proof.
  intros Hidx p'. split; [done|]. split; [|split].
  - unfold p', goToNext. cbn [activeIndex]. lia.
  - unfold p', goToNext. cbn [activeIndex].
    destruct (Z.eqb_spec (activeIndex p) (Z.of_nat (length (items p)) - 1)); lia.
  - unfold p', goToNext. cbn [Study.progress].
    set (a := {| App.progress := Study.progress p; hook := Some (sync p) |}).
    split.
    + intros it c k Hit Hc Hk Tc Tk. rewrite Hit, Hc, Hk, Tc, Tk. cbn [andb].
      destruct (isFileComplete (Study.progress p) c k) eqn:E; [done|].
      rewrite isFileComplete_toggle. cbn [App.progress a]. by rewrite E.
    + intros c k Hck.
      destruct (activeItem p) as [it|]; [|done].
      destruct (si_courseId it) as [c0|]; [|done].
      destruct (si_fileKey it) as [k0|]; [|done].
      destruct (Sync.truthyId c0 && Sync.truthyId k0); [|done].
      destruct (isFileComplete (Study.progress p) c0 k0) eqn:E; [done|].
      rewrite isFileComplete_toggle_other; [done|]. intros [= -> ->].
      cbn [App.progress a] in *. congruence.
Qed.

Lemma next_marks_complete_and_advances_witness :
  let item := fun id u =>
    {| si_id := id; si_url := id; si_title := id; si_courseName := "C";
       si_unitNumber := u; si_courseId := Some "c1"; si_fileKey := Some id |} in
  let p := {| items := [item "1-a" 1; item "1-b" 1]; activeIndex := 0;
              scale := 100; progress := ∅;
              sync := Sync.initial "c1" None None |} in
  activeIndex (goToNext p) = 1
  ∧ isFileComplete (progress (goToNext p)) "c1" "1-a" = true.
Proof.
  intros item p.
  destruct (next_marks_complete_and_advances p ltac:(simpl; lia))
    as (_ & _ & Hi & Hc & _).
  split; [exact Hi|].
  exact (Hc (item "1-a" 1) "c1" "1-a" eq_refl eq_refl eq_refl eq_refl eq_refl).
Defined.

Lemma groupOf_push (g : list (Z * list StudyItem)) (it : StudyItem) (u : Z) :
  groupOf (pushGroup g it) u
  = groupOf g u ++ (if si_unitNumber it =? u then [it] else []).
Proof.
  unfold groupOf. induction g as [|[v l] g IH]; cbn [pushGroup List.find fst snd].
  - by destruct (si_unitNumber it =? u).
  - destruct (Z.eqb_spec v (si_unitNumber it)) as [->|Hv];
      cbn [List.find fst snd].
    + destruct (si_unitNumber it =? u); [done|]. by rewrite app_nil_r.
    + destruct (Z.eqb_spec v u) as [->|Hu]; [|exact IH].
      rewrite (proj2 (Z.eqb_neq _ _)) by done. by rewrite app_nil_r.
Qed.

Lemma groupOf_fold (l : list StudyItem) (g : list (Z * list StudyItem)) (u : Z) :
  groupOf (fold_left pushGroup l g) u
  = groupOf g u ++ List.filter (fun it => si_unitNumber it =? u) l.
Proof.
  revert g. induction l as [|it l IH]; intros g; cbn [fold_left List.filter].
  - by rewrite app_nil_r.
  - rewrite IH, groupOf_push, <- app_assoc.
    by destruct (si_unitNumber it =? u).
Qed.

Lemma groupOf_groupsOf (l : list StudyItem) (u : Z) :
  groupOf (groupsOf l) u = List.filter (fun it => si_unitNumber it =? u) l.
Proof. unfold groupsOf. by rewrite groupOf_fold. Qed.

Lemma keys_push (g : list (Z * list StudyItem)) (it : StudyItem) :
  (∀ u, u ∈ List.map fst (pushGroup g it)
        ↔ u ∈ List.map fst g ∨ u = si_unitNumber it)
  ∧ (NoDup (List.map fst g) → NoDup (List.map fst (pushGroup g it))).
Proof.
  induction g as [|[v l] g [IHin IHnd]]; cbn [pushGroup List.map fst].
  - split.
    + intros u. rewrite list_elem_of_singleton, elem_of_nil. tauto.
    + intros _. apply NoDup_singleton.
  - destruct (Z.eqb_spec v (si_unitNumber it)) as [->|Hv]; cbn [List.map fst].
    + split; [|done]. intros u. rewrite elem_of_cons. tauto.
    + split.
      * intros u. rewrite !elem_of_cons, IHin. tauto.
      * intros [Hnin Hnd]%NoDup_cons. apply NoDup_cons. split; [|by apply IHnd].
        rewrite IHin. intros [?|?]; [done | by subst].
Qed.

Lemma keys_fold (l : list StudyItem) (g : list (Z * list StudyItem)) :
  (∀ u, u ∈ List.map fst (fold_left pushGroup l g)
        ↔ u ∈ List.map fst g ∨ ∃ it, it ∈ l ∧ si_unitNumber it = u)
  ∧ (NoDup (List.map fst g) → NoDup (List.map fst (fold_left pushGroup l g))).
Proof.
  revert g. induction l as [|it l IH]; intros g; cbn [fold_left].
  - split; [|done]. intros u. split; [by left|].
    intros [?|(? & ?%elem_of_nil & _)]; done.
  - destruct (IH (pushGroup g it)) as [IHin IHnd].
    destruct (keys_push g it) as [Hin Hnd]. split.
    + intros u. rewrite IHin, Hin. split.
      * intros [[? | ->] | (x & Hx & Hu)]; [by left| |].
        -- right. exists it. split; [by left | done].
        -- right. exists x. split; [by right | done].
      * intros [? | (x & [-> | Hx]%elem_of_cons & Hu)].
        -- left. by left.
        -- left. by right.
        -- right. by exists x.
    + intros H. by apply IHnd, Hnd.
Qed.

Lemma sortedUnits_spec (l : list StudyItem) :
  let us := sortedUnits (groupsOf l) in
  StronglySorted Z.lt us
  ∧ ∀ u, u ∈ us ↔ ∃ it, it ∈ l ∧ si_unitNumber it = u.
Proof.
  intros us. unfold us, sortedUnits.
  destruct (keys_fold l []) as [Hin Hnd]. fold (groupsOf l) in Hin, Hnd.
  set (keys := List.map fst (groupsOf l)) in *.
  pose proof (sort_perm (fun a b => a - b) keys) as Hperm.
  assert (Hs : StronglySorted (fun a b => a - b ≤ 0)
                 (Leaderboard.sort (fun a b => a - b) keys)).
  { apply sort_sorted; intros; lia. }
  assert (Hnd' : NoDup (Leaderboard.sort (fun a b => a - b) keys)).
  { rewrite Hperm. apply Hnd. constructor. }
  split.
  - clear -Hs Hnd'. induction Hs as [|x xs Hs IH Hx]; [constructor|].
    apply NoDup_cons in Hnd' as [Hnin Hnd]. constructor; [by apply IH|].
    rewrite Forall_forall in Hx |- *. intros y Hy. specialize (Hx y Hy).
    assert (x ≠ y) by (by intros ->). lia.
  - intros u. rewrite Hperm, Hin, elem_of_nil. tauto.
Qed.

Lemma filter_filter_ne (l : list StudyItem) (u0 u : Z) :
  u ≠ u0 →
  List.filter (fun it => si_unitNumber it =? u)
    (List.filter (fun it => negb (si_unitNumber it =? u0)) l)
  = List.filter (fun it => si_unitNumber it =? u) l.
Proof.
  intros Hne. induction l as [|x l IH]; [done|]. cbn [List.filter].
  destruct (Z.eqb_spec (si_unitNumber x) u0) as [E0|E0]; cbn [negb List.filter].
  - rewrite IH. rewrite (proj2 (Z.eqb_neq _ _)) by lia. done.
  - rewrite IH. done.
Qed.

Lemma concat_groups_ext (l l' : list StudyItem) (us : list Z) :
  (∀ u, u ∈ us →
     List.filter (fun it => si_unitNumber it =? u) l
     = List.filter (fun it => si_unitNumber it =? u) l') →
  concat (List.map (fun u => List.filter (fun it => si_unitNumber it =? u) l) us)
  = concat (List.map (fun u => List.filter (fun it => si_unitNumber it =? u) l') us).
Proof.
  induction us as [|u us IH]; intros H; [done|]. cbn [List.map concat].
  rewrite (H u) by (by left). rewrite IH; [done|]. intros v Hv. apply H. by right.
Qed.

Lemma filter_partition_perm (l : list StudyItem) (u0 : Z) :
  l ≡ₚ List.filter (fun it => si_unitNumber it =? u0) l
       ++ List.filter (fun it => negb (si_unitNumber it =? u0)) l.
Proof.
  induction l as [|x l IH]; [done|]. cbn [List.filter].
  destruct (si_unitNumber x =? u0); cbn [negb app].
  - by constructor.
  - rewrite <- Permutation_middle. by constructor.
Qed.

(** The blocks of the units, in any order without repetition that covers
    the units present, rearrange the list. *)
Lemma concat_groups_perm (us : list Z) (l : list StudyItem) :
  NoDup us → (∀ it, it ∈ l → si_unitNumber it ∈ us) →
  concat (List.map (fun u => List.filter (fun it => si_unitNumber it =? u) l) us)
  ≡ₚ l.
Proof.
  revert l. induction us as [|u0 us IH]; intros l Hnd Hcov.
  - destruct l as [|x l]; [done|].
    by destruct (proj1 (elem_of_nil (si_unitNumber x)) (Hcov x ltac:(by left))).
  - apply NoDup_cons in Hnd as [Hnin Hnd]. cbn [List.map concat].
    etrans; [|symmetry; apply (filter_partition_perm l u0)].
    apply Permutation_app_head.
    rewrite (concat_groups_ext l
               (List.filter (fun it => negb (si_unitNumber it =? u0)) l)).
    + apply IH; [done|]. intros it [Hit Hne]%list_elem_of_In%filter_In.
      apply list_elem_of_In, Hcov in Hit.
      apply elem_of_cons in Hit as [E|]; [|done].
      rewrite E, Z.eqb_refl in Hne. discriminate Hne.
    + intros u Hu. symmetry. apply filter_filter_ne. by intros ->.
Qed.

(** For a list in unit order the blocks, in increasing order of the
    units, are the list itself. *)
Lemma concat_groups_sorted (us : list Z) (l : list StudyItem) :
  StronglySorted Z.lt us → (∀ it, it ∈ l → si_unitNumber it ∈ us) →
  StronglySorted (fun a b => si_unitNumber a ≤ si_unitNumber b) l →
  concat (List.map (fun u => List.filter (fun it => si_unitNumber it =? u) l) us)
  = l.
Proof.
  revert l. induction us as [|u0 us IH]; intros l Hus Hcov Hl.
  - destruct l as [|x l]; [done|].
    by destruct (proj1 (elem_of_nil (si_unitNumber x)) (Hcov x ltac:(by left))).
  - apply StronglySorted_inv in Hus as [Hus Hu0]. rewrite Forall_forall in Hu0.
    cbn [List.map concat].
    assert (Hsplit : ∃ l1 l2,
              l = l1 ++ l2
              ∧ (∀ it, it ∈ l1 → si_unitNumber it = u0)
              ∧ (∀ it, it ∈ l2 → si_unitNumber it ≠ u0)).
    { clear IH. induction Hl as [|x l Hl IHl Hx].
      - exists [], []. split; [done|]. split; by intros ? ?%elem_of_nil.
      - destruct IHl as (l1 & l2 & -> & H1 & H2).
        { intros it Hit. apply Hcov. by right. }
        destruct (decide (si_unitNumber x = u0)) as [E|E].
        + exists (x :: l1), l2. split; [done|]. split; [|done].
          intros it [->|Hit]%elem_of_cons; [done | by apply H1].
        + exists [], (x :: l1 ++ l2). split; [done|].
          split; [by intros ? ?%elem_of_nil|].
          intros it [->|Hit]%elem_of_cons; [done|].
          rewrite Forall_forall in Hx. specialize (Hx it Hit).
          assert (Hxu : si_unitNumber x ∈ u0 :: us) by (apply Hcov; by left).
          apply elem_of_cons in Hxu as [?|Hxu]; [done|].
          specialize (Hu0 _ Hxu). lia. }
    destruct Hsplit as (l1 & l2 & -> & H1 & H2).
    assert (F1 : List.filter (fun it => si_unitNumber it =? u0) (l1 ++ l2) = l1).
    { rewrite List.filter_app, filter_all, filter_none, app_nil_r; [done| |].
      - intros x Hx. apply Z.eqb_neq. by apply H2.
      - intros x Hx. apply Z.eqb_eq. by apply H1. }
    rewrite F1. f_equal.
    rewrite (concat_groups_ext (l1 ++ l2) l2).
    + apply IH; [done| |].
      * intros it Hit.
        assert (Hin : si_unitNumber it ∈ u0 :: us)
          by (apply Hcov, elem_of_app; by right).
        apply elem_of_cons in Hin as [E|]; [|done]. by destruct (H2 it Hit).
      * clear -Hl. induction l1 as [|x l1 IH1]; [done|].
        apply IH1. by apply StronglySorted_inv in Hl as [? _].
    + intros u Hu. rewrite List.filter_app, filter_none, app_nil_l; [done|].
      intros x Hx. apply Z.eqb_neq. rewrite (H1 x Hx).
      specialize (Hu0 u Hu). lia.
Qed.

(** Blocks in increasing order of the units are in unit order. *)
Lemma concat_groups_is_sorted (us : list Z) (l : list StudyItem) :
  StronglySorted Z.lt us →
  StronglySorted (fun a b => si_unitNumber a ≤ si_unitNumber b)
    (concat (List.map
               (fun u => List.filter (fun it => si_unitNumber it =? u) l) us)).
Proof.
  induction 1 as [|u0 us Hus IH Hu0]; [constructor|]. cbn [List.map concat].
  rewrite Forall_forall in Hu0.
  set (rest := concat _) in *.
  assert (Hrest : ∀ y, y ∈ rest → u0 < si_unitNumber y).
  { intros y Hy. unfold rest in Hy. apply list_elem_of_In, in_concat in Hy
      as (blk & Hblk & Hy). apply in_map_iff in Hblk as (u & <- & Hu).
    apply filter_In in Hy as [_ Hy]. apply Z.eqb_eq in Hy. rewrite Hy.
    apply Hu0. by apply list_elem_of_In. }
  clearbody rest. induction l as [|x l IHl]; [exact IH|]. cbn [List.filter].
  destruct (Z.eqb_spec (si_unitNumber x) u0) as [E|E]; [|exact IHl].
  cbn [app]. constructor; [exact IHl|].
  apply Forall_forall. intros y [Hy|Hy]%elem_of_app.
  - apply list_elem_of_In, filter_In in Hy as [_ Hy]. apply Z.eqb_eq in Hy. lia.
  - specialize (Hrest y Hy). lia.
Qed.

Lemma inner_rows (p : Page) (group : list StudyItem) (gi : Z) (rows0 : list Row) :
  fold_left
    (fun '(index, rows) item => (index + 1, rows ++ [rowOf p index item]))
    group (gi, rows0)
  = (gi + Z.of_nat (length group),
     rows0 ++ imap (fun j it => rowOf p (gi + Z.of_nat j) it) group).
Proof.
  revert gi rows0. induction group as [|it group IH]; intros gi rows0.
  - cbn. by rewrite Z.add_0_r, app_nil_r.
  - cbn [fold_left]. rewrite IH. cbn [length imap]. f_equal; [lia|].
    rewrite <- app_assoc. f_equal. cbn [app]. rewrite Z.add_0_r. f_equal.
    apply imap_ext. intros j x _. cbn. f_equal. lia.
Qed.

Lemma sidebarRows_spec (p : Page) :
  sidebarRows p
  = imap (fun j it => rowOf p (Z.of_nat j) it)
      (concat (List.map (groupOf (groupsOf (items p)))
                        (sortedUnits (groupsOf (items p))))).
Proof.
  unfold sidebarRows, groupedItems.
  set (groups := groupsOf (items p)).
  set (f := fun '(globalIndex, out) unitNum => _).
  assert (H : ∀ us gi out,
            concat (List.map g_items (fold_left f us (gi, out)).2)
            = concat (List.map g_items out)
              ++ imap (fun j it => rowOf p (gi + Z.of_nat j) it)
                   (concat (List.map (groupOf groups) us))).
  { induction us as [|u us IH]; intros gi out.
    - cbn. by rewrite app_nil_r.
    - cbn [fold_left]. unfold f at 2. rewrite inner_rows.
      rewrite IH. rewrite List.map_app, concat_app. cbn [List.map concat g_items].
      rewrite app_nil_r, app_nil_l, <- app_assoc. f_equal.
      rewrite imap_app. f_equal. apply imap_ext. intros j x _. cbn.
      f_equal. lia. }
  rewrite H. cbn [List.map concat app]. apply imap_ext. intros j x _. done.
Qed.

(** X22: the rows of the sidebar are the items of the cart grouped by
    unit in increasing order of the unit number, numbered from 0 in that
    order.  A click on a row makes its number the active index, which the
    viewer reads as a position in the cart: every row opens its own item
    exactly when the cart is already in unit order. *)
Theorem sidebar_row_opens_its_item (p : Page) :
  List.map row_item (sidebarRows p) ≡ₚ items p
  ∧ StronglySorted (fun a b => si_unitNumber a ≤ si_unitNumber b)
      (List.map row_item (sidebarRows p))
  ∧ (∀ (j : nat) row, sidebarRows p !! j = Some row → row_index row = Z.of_nat j)
  ∧ ((∀ row, row ∈ sidebarRows p →
        activeItem (selectRow row p) = Some (row_item row))
     ↔ StronglySorted (fun a b => si_unitNumber a ≤ si_unitNumber b) (items p)).
Proof.
  destruct (sortedUnits_spec (items p)) as [Hus Hcov].
  set (us := sortedUnits (groupsOf (items p))) in *.
  set (shown := concat (List.map (groupOf (groupsOf (items p))) us)).
  assert (Hshown : shown
            = concat (List.map
                (fun u => List.filter (fun it => si_unitNumber it =? u) (items p))
                us)).
  { unfold shown. f_equal. apply map_ext. intros u. apply groupOf_groupsOf. }
  assert (Hrows : sidebarRows p = imap (fun j it => rowOf p (Z.of_nat j) it) shown)
    by apply sidebarRows_spec.
  assert (Hitems : List.map row_item (sidebarRows p) = shown).
  { rewrite Hrows. apply list_eq. intros j.
    rewrite list_lookup_fmap, list_lookup_imap. by destruct (shown !! j). }
  assert (Hnd : NoDup us).
  { clear -Hus. induction Hus as [|x xs Hs IH Hx]; constructor; [|done].
    intros Hin. rewrite Forall_forall in Hx. specialize (Hx x Hin). lia. }
  assert (Hcov' : ∀ it, it ∈ items p → si_unitNumber it ∈ us).
  { intros it Hit. apply Hcov. by exists it. }
  assert (Hperm : shown ≡ₚ items p).
  { rewrite Hshown. by apply concat_groups_perm. }
  assert (Hidx : ∀ (j : nat) row, sidebarRows p !! j = Some row →
                   row_index row = Z.of_nat j ∧ shown !! j = Some (row_item row)).
  { intros j row. rewrite Hrows, list_lookup_imap.
    destruct (shown !! j) as [it|]; [|done]. by intros [= <-]. }
  split; [by rewrite Hitems|]. split.
  { rewrite Hitems, Hshown. by apply concat_groups_is_sorted. }
  split; [intros j row Hj; by apply Hidx|].
  assert (Hact : ∀ (j : nat) row, sidebarRows p !! j = Some row →
                   activeItem (selectRow row p) = items p !! j).
  { intros j row Hj. destruct (Hidx j row Hj) as [Hi _].
    unfold activeItem, selectRow, at_index. cbn [items activeIndex]. rewrite Hi.
    replace (Z.of_nat j <? 0) with false by (symmetry; apply Z.ltb_ge; lia).
    by rewrite Nat2Z.id. }
  split.
  - intros Hall.
    assert (Heq : shown = items p).
    { apply list_eq. intros j.
      destruct (sidebarRows p !! j) as [row|] eqn:Hj.
      - destruct (Hidx j row Hj) as [_ Hs]. rewrite Hs, <- (Hact j row Hj).
        symmetry. apply Hall. apply list_elem_of_lookup. by exists j.
      - assert (Hlen : (length shown ≤ j)%nat).
        { apply lookup_ge_None in Hj. by rewrite Hrows, length_imap in Hj. }
        rewrite (proj2 (lookup_ge_None shown j)) by done.
        symmetry. apply lookup_ge_None.
        by rewrite <- (Permutation_length Hperm). }
    rewrite <- Heq, Hshown. by apply concat_groups_is_sorted.
  - intros Hsorted row [j Hj]%list_elem_of_lookup.
    rewrite (Hact j row Hj). destruct (Hidx j row Hj) as [_ Hs].
    rewrite <- Hs, Hshown. f_equal. symmetry. by apply concat_groups_sorted.
Qed.

(** With the file of unit 2 put in the cart before the file of unit 1,
    the first row shows the file of unit 1 and opens the file of unit 2. *)
Example sidebar_row_opens_other_item :
  let item := fun id u =>
    {| si_id := id; si_url := id; si_title := id; si_courseName := "C";
       si_unitNumber := u; si_courseId := Some "c1"; si_fileKey := Some id |} in
  let p := {| items := [item "2-a" 2; item "1-b" 1]; activeIndex := 0;
              scale := 100; progress := ∅;
              sync := Sync.initial "c1" None None |} in
  ∃ row, sidebarRows p !! 0%nat = Some row
         ∧ si_id (row_item row) = "1-b"
         ∧ si_id <$> activeItem (selectRow row p) = Some "2-a".
Proof. intros item p. eexists. by vm_compute. Qed.

End StudyPage.

Section SearchIndex.

Import Keys Course Search.

(** The entry of a class in the search index, if it has one. *)
Lemma searchable_tracked (cls : ClassInfo) (f : string) :
  filename cls = Some f →
  Sync.truthyId f && bool_decide (status cls = "success") = tracked cls.
Proof. intros H. unfold tracked, primaryFilename. by rewrite H. Qed.

Lemma search_classes (baseURL dir : string) (u : UnitInfo) (cs : list ClassInfo)
    (items : list SearchItem) :
  fold_left
    (fun items cls =>
       match filename cls with
       | Some f =>
           if Sync.truthyId f && bool_decide (status cls = "success")
           then items ++ [fileItem baseURL dir u cls f]
           else items
       | None => items
       end)
    cs items
  = items
    ++ omap (fun cls => if tracked cls
                        then fileItem baseURL dir u cls <$> filename cls
                        else None) cs.
Proof.
  set (g := fun cls => if tracked cls
                       then fileItem baseURL dir u cls <$> filename cls
                       else None).
  revert items. induction cs as [|cls cs IH]; intros items; cbn [fold_left].
  - cbn. by rewrite app_nil_r.
  - rewrite IH.
    assert (Hc : omap g (cls :: cs)
                 = match g cls with
                   | Some y => y :: omap g cs
                   | None => omap g cs
                   end) by reflexivity.
    rewrite Hc. unfold g at 2. destruct (filename cls) as [f|] eqn:E.
    + rewrite (searchable_tracked cls f E).
      destruct (tracked cls); cbn; [by rewrite <- app_assoc | done].
    + by destruct (tracked cls).
Qed.

Lemma search_units (baseURL dir : string) (summary : CourseSummary)
    (us : list UnitInfo) (items : list SearchItem) :
  fold_left
    (fun items u =>
       fold_left
         (fun items cls =>
            match filename cls with
            | Some f =>
                if Sync.truthyId f && bool_decide (status cls = "success")
                then items ++ [fileItem baseURL dir u cls f]
                else items
            | None => items
            end)
         (classes u) (items ++ [unitItem dir summary u]))
    us items
  = items
    ++ flat_map
         (fun u =>
            unitItem dir summary u
            :: omap (fun cls => if tracked cls
                                then fileItem baseURL dir u cls <$> filename cls
                                else None) (classes u)) us.
Proof.
  revert items. induction us as [|u us IH]; intros items; cbn [fold_left flat_map].
  - by rewrite app_nil_r.
  - rewrite IH, search_classes. by rewrite <- !app_assoc.
Qed.

Lemma search_courses (baseURL : string) (courses : list (string * CourseSummary))
    (items : list SearchItem) :
  fold_left
    (fun items '(dir, summary) =>
       fold_left
         (fun items u =>
            fold_left
              (fun items cls =>
                 match filename cls with
                 | Some f =>
                     if Sync.truthyId f && bool_decide (status cls = "success")
                     then items ++ [fileItem baseURL dir u cls f]
                     else items
                 | None => items
                 end)
              (classes u) (items ++ [unitItem dir summary u]))
         (units summary) (items ++ [courseItem dir summary]))
    courses items
  = items
    ++ flat_map
         (fun '(dir, summary) =>
            courseItem dir summary
            :: flat_map
                 (fun u =>
                    unitItem dir summary u
                    :: omap (fun cls =>
                               if tracked cls
                               then fileItem baseURL dir u cls <$> filename cls
                               else None) (classes u))
                 (units summary))
         courses.
Proof.
  revert items. induction courses as [|[dir summary] courses IH]; intros items;
    cbn [fold_left flat_map].
  - by rewrite app_nil_r.
  - rewrite IH, search_units. by rewrite <- !app_assoc.
Qed.

Lemma buildSearchItems_spec (baseURL : string)
    (courses : list (string * CourseSummary)) :
  buildSearchItems baseURL courses
  = flat_map
      (fun '(dir, summary) =>
         courseItem dir summary
         :: flat_map
              (fun u =>
                 unitItem dir summary u
                 :: omap (fun cls => if tracked cls
                                     then fileItem baseURL dir u cls <$> filename cls
                                     else None) (classes u))
              (units summary))
      courses.
Proof. unfold buildSearchItems. by rewrite search_courses. Qed.

Lemma length_omap_le {A B} (f : A → option B) (p : A → bool) (l : list A) :
  (∀ x, is_Some (f x) → p x = true) →
  (length (omap f l) ≤ length (List.filter p l))%nat.
Proof.
  intros H. induction l as [|x l IH]; [done|].
  assert (Hc : omap f (x :: l)
               = match f x with Some y => y :: omap f l | None => omap f l end)
    by reflexivity.
  rewrite Hc. cbn [List.filter]. destruct (f x) eqn:E.
  - rewrite (H x) by (by rewrite E). cbn [length]. lia.
  - destruct (p x); cbn [length]; lia.
Qed.

Lemma filter_file_units (baseURL dir : string) (summary : CourseSummary)
    (us : list UnitInfo) :
  List.filter (fun it => bool_decide (s_type it = file))
    (flat_map
       (fun u =>
          unitItem dir summary u
          :: omap (fun cls => if tracked cls
                              then fileItem baseURL dir u cls <$> filename cls
                              else None) (classes u)) us)
  = flat_map
      (fun u => omap (fun cls => if tracked cls
                                 then fileItem baseURL dir u cls <$> filename cls
                                 else None) (classes u)) us.
Proof.
  induction us as [|u us IH]; [done|]. cbn [flat_map].
  rewrite List.filter_app, IH. f_equal.
  change (List.filter ?p (unitItem dir summary u :: ?l)) with (List.filter p l).
  apply filter_all. intros it (cls & _ & Hit)%list_elem_of_omap.
  destruct (tracked cls); [|done].
  destruct (filename cls); [|done]. by injection Hit as <-.
Qed.

Lemma length_file_units (baseURL dir : string) (us : list UnitInfo) :
  (length (flat_map
             (fun u => omap (fun cls =>
                               if tracked cls
                               then fileItem baseURL dir u cls <$> filename cls
                               else None) (classes u)) us)
   ≤ length (concat (List.map unitFileKeys us)))%nat.
Proof.
  induction us as [|u us IH]; [done|]. cbn [flat_map List.map concat].
  rewrite !length_app. unfold unitFileKeys at 1. rewrite length_map.
  assert (H : (length (omap (fun cls =>
                               if tracked cls
                               then fileItem baseURL dir u cls <$> filename cls
                               else None) (classes u))
               ≤ length (List.filter tracked (classes u)))%nat).
  { apply length_omap_le. intros cls [it Hit]. by destruct (tracked cls). }
  lia.
Qed.

(** X23: the search index lists, for every course in order, the course,
    then each unit followed by its files; a class has a file entry exactly
    when it is tracked for progress and carries its file name itself, so a
    course never has more file entries than progress keys (and has fewer
    when a class has its file name only in its [files] list). *)
Theorem search_lists_tracked_files (baseURL dir : string) (summary : CourseSummary) :
  let entries := buildSearchItems baseURL [(dir, summary)] in
  let fileEntries := List.filter (fun it => bool_decide (s_type it = file)) entries in
  fileEntries
  = flat_map
      (fun u => omap (fun cls => if tracked cls
                                 then fileItem baseURL dir u cls <$> filename cls
                                 else None) (classes u))
      (units summary)
  ∧ (length fileEntries ≤ length (allFileKeys (units summary)))%nat.
Proof.
  intros entries fileEntries.
  assert (Hf : fileEntries
               = flat_map
                   (fun u => omap (fun cls => if tracked cls
                                   then fileItem baseURL dir u cls <$> filename cls
                                   else None) (classes u))
                   (units summary)).
  { unfold fileEntries, entries. rewrite buildSearchItems_spec.
    cbn [flat_map]. rewrite app_nil_r.
    change (List.filter ?p (courseItem dir summary :: ?l)) with (List.filter p l).
    apply filter_file_units. }
  split; [exact Hf|]. rewrite Hf, allFileKeys_concat. apply length_file_units.
Qed.

(** A class with its file name in its [files] list only is tracked for
    progress but cannot be found by the search. *)
Example tracked_file_missing_from_search :
  let cls := {| class_id := "7"; class_name := "Slides"; filename := None;
                files := [Some "a.pdf"]; status := "success" |} in
  let u := {| unit_number := 1; unit_name := "Intro"; unit_directory := "u1";
              classes := [cls] |} in
  let summary := {| course_id := "C1"; course_name := "Course"; units := [u] |} in
  allFileKeys (units summary) = ["1-7"]
  ∧ List.filter (fun it => bool_decide (s_type it = file))
      (buildSearchItems "http://h" [("c1", summary)]) = [].
Proof. by vm_compute. Qed.

End SearchIndex.
